(** * MyoZen telemetry core: frame decoder, session aggregator,
      connection supervisor and sync scheduler.

    Shallow embedding of [bluetooth.service.js], [mqtt.service.js],
    [sync.service.js] and of the schemas of [data.model.js].

    Conventions.
    - A [Date] is its number of milliseconds since the epoch; every
      [new Date()] of the source is an explicit clock reading passed in.
    - A Mongoose collection is the list of its documents in insertion
      order; an [ObjectId] is a natural number handed out by a counter.
    - A JavaScript exception is the [Throw] case of a [Completion];
      [try]/[catch] is [try_catch] for pure code and [catch] for code
      that reads or writes the store.
    - An awaited storage operation may reject: its outcome is taken
      from the list [faults] of the world. *)

From Stdlib Require Import ZArith Lia.
From Stdlib.Strings Require Import Byte.
From stdpp Require Import base option list gmap strings pretty.

Local Open Scope Z_scope.

(** ** Completions: a value or a thrown exception *)

Inductive JsError : Type :=
| RangeError
| TypeError
| StorageError.

Inductive Completion (A : Type) : Type :=
| Normal (a : A)
| Throw (e : JsError).
Arguments Normal {A} a.
Arguments Throw {A} e.

#[export] Instance completion_ret : MRet Completion := λ A a, Normal a.

#[export] Instance completion_bind : MBind Completion := λ A B k c,
  match c with
  | Normal a => k a
  | Throw e => Throw e
  end.

Definition try_catch {A} (body : Completion A) (handler : JsError → Completion A)
  : Completion A :=
  match body with
  | Normal a => Normal a
  | Throw e => handler e
  end.

(** ** Buffers *)

Abbreviation Date := Z (only parsing).
Abbreviation Buffer := (list byte) (only parsing).

Definition byte_val (b : byte) : Z := Z.of_N (Byte.to_N b).

(** [data[i]]: the byte, or [undefined] (here [None]) out of range. *)
Definition index (data : Buffer) (i : nat) : option Z :=
  byte_val <$> data !! i.

(** Little-endian value of a run of bytes. *)
Fixpoint le_value (bs : list byte) : Z :=
  match bs with
  | [] => 0
  | b :: rest => byte_val b + 256 * le_value rest
  end.

(** Node's [Buffer.readUIntLE]-family: a [RangeError] unless the whole
    field lies inside the buffer. *)
Definition read_le (width : nat) (data : Buffer) (offset : nat) : Completion Z :=
  if decide (offset + width ≤ length data)%nat
  then Normal (le_value (take width (drop offset data)))
  else Throw RangeError.

Definition readUInt32LE (data : Buffer) (offset : nat) : Completion Z :=
  read_le 4 data offset.

Definition to_int16 (u : Z) : Z :=
  if decide (u < 32768) then u else u - 65536.

Definition readInt16LE (data : Buffer) (offset : nat) : Completion Z :=
  u ← read_le 2 data offset; Normal (to_int16 u).

(** A JavaScript numeric value is a Number or a BigInt;
    [readBigUInt64LE] returns a BigInt. *)
Inductive JsNumeric : Type :=
| JsNumber (z : Z)
| JsBigInt (z : Z).

Definition readBigUInt64LE (data : Buffer) (offset : nat) : Completion JsNumeric :=
  u ← read_le 8 data offset; Normal (JsBigInt u).

(** [new Date(v)]: the constructor converts a non-string primitive with
    ToNumber, and ToNumber of a BigInt throws a [TypeError]. *)
Definition new_Date (v : JsNumeric) : Completion Date :=
  match v with
  | JsNumber z => Normal z
  | JsBigInt _ => Throw TypeError
  end.

(** [data.slice(start)] *)
Definition slice (data : Buffer) (start : nat) : Buffer := drop start data.

(** ** Decoded device data *)

(** One element of [dataPoints] / [responseData]; a field the object
    does not carry is [None]. *)
Record DataPoint : Type := mkDataPoint {
  timestamp : option Date;
  value : option Z;
  channel : option Z;
  response : option Buffer
}.

Record StimulationParameters : Type := mkStim {
  intensity : option Z;
  frequency : option Z;
  pulseWidth : option Z
}.

Abbreviation Metadata := (list (string * string)) (only parsing).

(** The object returned by [parseDeviceData], and the parsed JSON
    document of an MQTT data message.  [eventTimestamp] is the
    timestamp the DeviceEvent of the data model carries; no handler
    reads it.  [dataPoints] is the sample array of an EMG event. *)
Record DeviceData : Type := mkDeviceData {
  type : string;
  sessionId : string;
  eventTimestamp : option Date;
  dataPoints : list DataPoint;
  stimulationParameters : option StimulationParameters;
  stimulationPattern : option string;
  responseData : option (list DataPoint);
  metadata : Metadata
}.

Definition bluetooth_metadata : Metadata :=
  [("source", "bluetooth"); ("deviceType", "myozen")]%string.

(** ** Frame decoder ([parseDeviceData]) *)

(** The loop [for (let i = 13; i < data.length; i += 2)]; [fuel]
    bounds the number of iterations. *)
Fixpoint parse_loop (fuel : nat) (data : Buffer) (ts : Date) (i : nat)
    (points : list DataPoint) : Completion (list DataPoint) :=
  match fuel with
  | O => Normal points
  | S fuel' =>
      if decide (i < length data)%nat then
        if decide (i + 1 < length data)%nat then
          v ← readInt16LE data i;
          parse_loop fuel' data ts (i + 2)
            (points ++ [mkDataPoint (Some ts) (Some v) None None])
        else parse_loop fuel' data ts (i + 2) points
      else Normal points
  end.

(** The body of the [try] block. *)
Definition parseDeviceData_body (data : Buffer) : Completion (option DeviceData) :=
  let dataType := index data 0 in
  if decide (dataType = Some 1) then
    sid ← readUInt32LE data 1;
    raw ← readBigUInt64LE data 5;
    ts ← new_Date raw;
    points ← parse_loop (length data) data ts 13 [];
    Normal (Some (mkDeviceData "emg" (pretty sid) (Some ts) points
                    None None None bluetooth_metadata))
  else if decide (dataType = Some 2) then
    sid ← readUInt32LE data 1;
    raw ← readBigUInt64LE data 5;
    ts ← new_Date raw;
    let stim := mkStim (index data 13) (index data 14) (index data 15) in
    Normal (Some (mkDeviceData "ems" (pretty sid) (Some ts) []
                    (Some stim) None
                    (Some [mkDataPoint (Some ts) None None (Some (slice data 16))])
                    bluetooth_metadata))
  else Normal None.

(** [parseDeviceData]: the [catch] logs and returns [null]. *)
Definition parseDeviceData (data : Buffer) : Completion (option DeviceData) :=
  try_catch (parseDeviceData_body data) (λ _, Normal None).

(** ** Documents and collections ([device.model.js], [data.model.js]) *)

Abbreviation ObjectId := nat (only parsing).

Record Device : Type := mkDevice {
  dev_id : ObjectId;
  serialNumber : string;
  assignedPatient : option ObjectId;
  assignedDoctor : ObjectId;
  lastConnected : option Date
}.

Record SyncStatus : Type := mkSyncStatus {
  synced : bool;
  syncedAt : option Date
}.

(** A document of [EMGData] or of [EMSData].  [doc_dataPoints] is the
    sample array of the document: [dataPoints] in the EMG schema,
    [responseData] in the EMS schema. *)
Record SessionDoc : Type := mkSessionDoc {
  doc_id : ObjectId;
  doc_device : ObjectId;
  doc_patient : option ObjectId;
  doc_doctor : ObjectId;
  doc_sessionId : string;
  doc_startTime : Date;
  doc_endTime : option Date;
  doc_dataPoints : list DataPoint;
  doc_stimulationParameters : option StimulationParameters;
  doc_stimulationPattern : option string;
  doc_metadata : Metadata;
  doc_syncStatus : SyncStatus
}.

Inductive Model : Type := EMGData | EMSData.

#[export] Instance Model_eq_dec : EqDecision Model.
Proof. solve_decision. Defined.

Record Db : Type := mkDb {
  devices : list Device;
  emgDocs : list SessionDoc;
  emsDocs : list SessionDoc;
  nextId : ObjectId
}.

Definition collection (m : Model) (d : Db) : list SessionDoc :=
  match m with
  | EMGData => emgDocs d
  | EMSData => emsDocs d
  end.

Definition set_collection (m : Model) (c : list SessionDoc) (d : Db) : Db :=
  match m with
  | EMGData => mkDb (devices d) c (emsDocs d) (nextId d)
  | EMSData => mkDb (devices d) (emgDocs d) c (nextId d)
  end.

Definition set_devices (ds : list Device) (d : Db) : Db :=
  mkDb ds (emgDocs d) (emsDocs d) (nextId d).

Definition set_nextId (n : ObjectId) (d : Db) : Db :=
  mkDb (devices d) (emgDocs d) (emsDocs d) n.

(** ** The world the services run in *)

(** [now] is what [new Date()] reads (the clock is set from outside and
    stands still while one handler runs); [faults] holds the outcomes of
    the coming storage calls ([true]: the call rejects; an exhausted
    list: the call succeeds); [isSyncing] is the field of the
    [SyncService] singleton; [pushes] records the simulated cloud
    calls. *)
Record World : Type := mkWorld {
  db : Db;
  now : Date;
  faults : list bool;
  isSyncing : bool;
  pushes : list (Model * ObjectId)
}.

Definition set_db (d : Db) (w : World) : World :=
  mkWorld d (now w) (faults w) (isSyncing w) (pushes w).
Definition set_now (t : Date) (w : World) : World :=
  mkWorld (db w) t (faults w) (isSyncing w) (pushes w).
Definition set_faults (fs : list bool) (w : World) : World :=
  mkWorld (db w) (now w) fs (isSyncing w) (pushes w).
Definition set_isSyncing (b : bool) (w : World) : World :=
  mkWorld (db w) (now w) (faults w) b (pushes w).
Definition set_pushes (ps : list (Model * ObjectId)) (w : World) : World :=
  mkWorld (db w) (now w) (faults w) (isSyncing w) ps.

(** ** State-and-exception monad of the asynchronous functions *)

Definition M (A : Type) : Type := World → Completion A * World.

#[export] Instance M_ret : MRet M := λ A a w, (Normal a, w).

#[export] Instance M_bind : MBind M := λ A B k m w,
  match m w with
  | (Normal a, w') => k a w'
  | (Throw e, w') => (Throw e, w')
  end.

Definition catch {A} (body : M A) (handler : JsError → M A) : M A := λ w,
  match body w with
  | (Normal a, w') => (Normal a, w')
  | (Throw e, w') => handler e w'
  end.

Definition finally {A} (body : M A) (cleanup : World → World) : M A := λ w,
  match body w with
  | (r, w') => (r, cleanup w')
  end.

Definition lift {A} (c : Completion A) : M A := λ w, (c, w).

Definition gets {A} (f : World → A) : M A := λ w, (Normal (f w), w).

Definition modify (f : World → World) : M unit := λ w, (Normal (), f w).

(** [new Date()] *)
Definition new_Date_now : M Date := gets now.

(** Every awaited storage operation starts by taking its outcome. *)
Definition storage_call : M unit := λ w,
  match faults w with
  | [] => (Normal (), w)
  | false :: rest => (Normal (), set_faults rest w)
  | true :: rest => (Throw StorageError, set_faults rest w)
  end.

Fixpoint for_each {A} (l : list A) (body : A → M unit) : M unit :=
  match l with
  | [] => mret ()
  | x :: rest => body x ;; for_each rest body
  end.

(** ** Mongoose operations *)

Definition session_filter (sid : string) (dev : ObjectId) (d : SessionDoc) : Prop :=
  doc_sessionId d = sid ∧ doc_device d = dev.

#[export] Instance session_filter_dec sid dev d : Decision (session_filter sid dev d).
Proof. unfold session_filter. apply _. Defined.

Fixpoint update_by_id (id : ObjectId) (f : SessionDoc → SessionDoc)
    (c : list SessionDoc) : list SessionDoc :=
  match c with
  | [] => []
  | d :: rest =>
      if decide (doc_id d = id) then f d :: rest
      else d :: update_by_id id f rest
  end.

Fixpoint update_device (id : ObjectId) (f : Device → Device) (ds : list Device)
  : list Device :=
  match ds with
  | [] => []
  | d :: rest =>
      if decide (dev_id d = id) then f d :: rest
      else d :: update_device id f rest
  end.

(** [Model.findOne({ sessionId, device })] *)
Definition findOne (m : Model) (sid : string) (dev : ObjectId) : M (option SessionDoc) :=
  storage_call ;;
  c ← gets (λ w, collection m (db w));
  mret (snd <$> list_find (session_filter sid dev) c).

(** [Model.findByIdAndUpdate(id, update)] *)
Definition findByIdAndUpdate (m : Model) (id : ObjectId)
    (update : SessionDoc → SessionDoc) : M unit :=
  storage_call ;;
  modify (λ w, set_db (set_collection m
                         (update_by_id id update (collection m (db w))) (db w)) w).

(** The update document
    [{ $push: { <samples>: { $each: points } }, endTime: t }]. *)
Definition push_each (points : list DataPoint) (t : Date) (d : SessionDoc) : SessionDoc :=
  mkSessionDoc (doc_id d) (doc_device d) (doc_patient d) (doc_doctor d)
    (doc_sessionId d) (doc_startTime d) (Some t)
    (doc_dataPoints d ++ points)
    (doc_stimulationParameters d) (doc_stimulationPattern d)
    (doc_metadata d) (doc_syncStatus d).

(** [Model.create(fields)]: the store assigns [_id]; [startTime]
    defaults to [Date.now]. *)
Definition create (m : Model) (fields : ObjectId → Date → SessionDoc) : M SessionDoc :=
  storage_call ;;
  t ← new_Date_now;
  id ← gets (λ w, nextId (db w));
  let doc := fields id t in
  modify (λ w, set_db (set_nextId (S id)
                         (set_collection m (collection m (db w) ++ [doc]) (db w))) w) ;;
  mret doc.

Definition set_lastConnected (t : option Date) (d : Device) : Device :=
  mkDevice (dev_id d) (serialNumber d) (assignedPatient d) (assignedDoctor d) t.

(** [device.save()] of a fetched device whose modified path is
    [lastConnected]. *)
Definition Device_save (dev : Device) : M unit :=
  storage_call ;;
  modify (λ w, set_db (set_devices
                         (update_device (dev_id dev)
                            (set_lastConnected (lastConnected dev))
                            (devices (db w))) (db w)) w).

(** [device.lastConnected = new Date()] *)
Definition touch (dev : Device) (t : Date) : Device :=
  set_lastConnected (Some t) dev.

(** ** Session aggregator *)

(** The fields passed to [EMGData.create]. *)
Definition new_emg_session (device : Device) (data : DeviceData)
    (id : ObjectId) (t : Date) : SessionDoc :=
  mkSessionDoc id (dev_id device) (assignedPatient device) (assignedDoctor device)
    (sessionId data) t None (dataPoints data) None None (metadata data)
    (mkSyncStatus false None).

(** [stimulationParameters] as [EMSData.create] stores it.  Of the
    fields an event carries, [emsDataSchema] declares [frequency] and
    [pulseWidth]; [intensity] is no path of the schema and Mongoose
    leaves it out of the document. *)
Definition schema_stimulation (p : StimulationParameters) : StimulationParameters :=
  mkStim None (frequency p) (pulseWidth p).

(** The document [EMSData.create] makes of the fields passed to it. *)
Definition new_ems_session (device : Device) (data : DeviceData)
    (id : ObjectId) (t : Date) : SessionDoc :=
  mkSessionDoc id (dev_id device) (assignedPatient device) (assignedDoctor device)
    (sessionId data) t None (default [] (responseData data))
    (schema_stimulation <$> stimulationParameters data) (stimulationPattern data)
    (metadata data) (mkSyncStatus false None).

(** The find-or-create of EMG sessions, as both services write it. *)
Definition upsert_emg (device : Device) (data : DeviceData) : M unit :=
  existingSession ← findOne EMGData (sessionId data) (dev_id device);
  match existingSession with
  | Some ex =>
      t ← new_Date_now;
      findByIdAndUpdate EMGData (doc_id ex) (push_each (dataPoints data) t)
  | None =>
      create EMGData (new_emg_session device data) ;; mret ()
  end.

Definition upsert_ems (device : Device) (data : DeviceData) : M unit :=
  existingSession ← findOne EMSData (sessionId data) (dev_id device);
  match existingSession with
  | Some ex =>
      t ← new_Date_now;
      findByIdAndUpdate EMSData (doc_id ex)
        (push_each (default [] (responseData data)) t)
  | None =>
      create EMSData (new_ems_session device data) ;; mret ()
  end.

Definition save_lastConnected (device : Device) : M unit :=
  t ← new_Date_now;
  Device_save (touch device t).

(** [processEMGData] of the Bluetooth service. *)
Definition processEMGData (device : Device) (data : DeviceData) : M unit :=
  catch (save_lastConnected device ;; upsert_emg device data)
        (λ _, mret ()).

(** [processEMSData] of the Bluetooth service. *)
Definition processEMSData (device : Device) (data : DeviceData) : M unit :=
  catch (save_lastConnected device ;; upsert_ems device data)
        (λ _, mret ()).

(** The dispatch at the end of the Bluetooth [handleDeviceData]. *)
Definition bluetooth_dispatch (device : Device) (parsedData : DeviceData) : M unit :=
  if decide (type parsedData = "emg") then processEMGData device parsedData
  else if decide (type parsedData = "ems") then processEMSData device parsedData
  else mret ().

(** [handleDeviceData] of the MQTT service. *)
Definition handleDeviceData (device : Device) (data : DeviceData) : M unit :=
  catch (save_lastConnected device ;;
         if decide (type data = "emg") then upsert_emg device data
         else if decide (type data = "ems") then upsert_ems device data
         else mret ())
        (λ _, mret ()).

(** [Device.findOne({ serialNumber })] *)
Definition Device_findOne (serial : string) : M (option Device) :=
  storage_call ;;
  ds ← gets (λ w, devices (db w));
  mret (snd <$> list_find (λ d, serialNumber d = serial) ds).

(** [handleDeviceData] of the Bluetooth service (the message statistics
    of [connectionState] are left out). *)
Definition bluetooth_handleDeviceData (deviceId : string) (data : Buffer) : M unit :=
  catch (device ← Device_findOne deviceId;
         match device with
         | None => mret ()
         | Some device =>
             parsedData ← lift (parseDeviceData data);
             match parsedData with
             | None => mret ()
             | Some parsedData => bluetooth_dispatch device parsedData
             end
         end)
        (λ _, mret ()).

(** The two transports feeding the aggregator. *)
Inductive Transport : Type := PubSub | Wireless.

Definition handle (via : Transport) (device : Device) (data : DeviceData) : M unit :=
  match via with
  | PubSub => handleDeviceData device data
  | Wireless => bluetooth_dispatch device data
  end.

(** One delivery to the aggregator: the event, the clock at that time and
    the outcomes of the storage calls it will make. *)
Record Arrival : Type := mkArrival {
  arr_now : Date;
  arr_faults : list bool;
  arr_device : Device;
  arr_data : DeviceData
}.

Definition deliver (via : Transport) (w : World) (a : Arrival) : World :=
  snd (handle via (arr_device a) (arr_data a)
         (set_faults (arr_faults a) (set_now (arr_now a) w))).

Definition deliver_all (via : Transport) (w : World) (l : list Arrival) : World :=
  foldl (deliver via) w l.

(** The EMG records of a (device, session) pair. *)
Definition sessions_for (dev : ObjectId) (sid : string) (w : World) : list SessionDoc :=
  filter (session_filter sid dev) (emgDocs (db w)).

(** An EMG event of the pair. *)
Definition emg_event_of (dev : ObjectId) (sid : string) (a : Arrival) : Prop :=
  type (arr_data a) = "emg" ∧ sessionId (arr_data a) = sid
  ∧ dev_id (arr_device a) = dev.

#[export] Instance emg_event_of_dec dev sid a : Decision (emg_event_of dev sid a).
Proof. unfold emg_event_of. apply _. Defined.

(** None of the (at most three) storage calls of the delivery rejects. *)
Definition fault_free (a : Arrival) : Prop :=
  Forall (λ b, b = false) (take 3 (arr_faults a)).

#[export] Instance fault_free_dec a : Decision (fault_free a).
Proof. unfold fault_free. apply _. Defined.

(** Identifiers of a collection are unique and below the store's counter. *)
Definition ids_wf (m : Model) (w : World) : Prop :=
  NoDup (doc_id <$> collection m (db w))
  ∧ Forall (λ d, doc_id d < nextId (db w))%nat (collection m (db w)).

#[export] Instance ids_wf_dec m w : Decision (ids_wf m w).
Proof. unfold ids_wf. apply _. Defined.

(** ** Connection supervision *)

Record BackoffConfig : Type := mkBackoffConfig {
  maxReconnectAttempts : nat;
  reconnectDelay : Z;
  maxReconnectDelay : Z
}.

(** [mqttConfig] *)
Definition mqttConfig : BackoffConfig := mkBackoffConfig 10%nat 1000 30000.

(** [Math.min(mqttConfig.reconnectDelay * Math.pow(2, count),
    mqttConfig.maxReconnectDelay)], the expression of the ["reconnect"]
    handler.  JavaScript computes it on doubles; for the constants of
    [mqttConfig] the integer value is the same at every count: the
    product [1000 * 2^count] is exact as long as it is finite, and once
    it is [Infinity] the minimum is the cap, as it is here. *)
Definition backoff (count : nat) : Z :=
  Z.min (reconnectDelay mqttConfig * 2 ^ Z.of_nat count) (maxReconnectDelay mqttConfig).

(** *** Pub/sub client ([mqtt.service.js]) *)

(** The module's [connectionState], with the two fields of the client
    the handlers write: [client.options.reconnectPeriod] and whether
    [client.end] was called. *)
Record MqttState : Type := mkMqttState {
  isConnected : bool;
  reconnectCount : nat;
  lastMessageTime : option Date;
  messageCount : nat;
  reconnectPeriod : Z;
  ended : bool
}.

(** State right after [mqtt.connect(url, { reconnectPeriod:
    mqttConfig.reconnectDelay, ... })]. *)
Definition mqtt_initial : MqttState :=
  mkMqttState false 0%nat None 0%nat (reconnectDelay mqttConfig) false.

(** [client.on("connect", ...)] *)
Definition on_connect (s : MqttState) : MqttState :=
  mkMqttState true 0%nat (lastMessageTime s) (messageCount s) (reconnectPeriod s) (ended s).

(** [client.on("disconnect", ...)] and [client.on("close", ...)] *)
Definition on_disconnect (s : MqttState) : MqttState :=
  mkMqttState false (reconnectCount s) (lastMessageTime s) (messageCount s)
    (reconnectPeriod s) (ended s).

Definition on_close (s : MqttState) : MqttState := on_disconnect s.

(** [client.on("error", ...)] *)
Definition on_error (s : MqttState) : MqttState :=
  if decide (maxReconnectAttempts mqttConfig ≤ reconnectCount s)%nat
  then mkMqttState (isConnected s) (reconnectCount s) (lastMessageTime s)
         (messageCount s) (reconnectPeriod s) true
  else s.

(** [client.on("reconnect", ...)] *)
Definition on_reconnect (s : MqttState) : MqttState :=
  let count := (reconnectCount s + 1)%nat in
  let newDelay := backoff count in
  mkMqttState (isConnected s) count (lastMessageTime s) (messageCount s)
    newDelay (ended s).

(** [client.getStatus()] *)
Definition getStatus (s : MqttState) : bool * nat * option Date * nat :=
  (isConnected s, reconnectCount s, lastMessageTime s, messageCount s).

(** *** Wireless peripherals ([connectToDevice] of [bluetooth.service.js]) *)

(** The properties of [bluetoothConfig] that the disconnect listener
    reads; [None] is [undefined]. *)
Record BluetoothConfig : Type := mkBluetoothConfig {
  bt_maxReconnectAttempts : option nat;
  bt_reconnectDelay : option Z;
  bt_maxReconnectDelay : option Z
}.

(** [bluetoothConfig]: the object literal declares [verboseLogging],
    [scanInterval] and [simulatedDevices] and none of the three. *)
Definition bluetoothConfig : BluetoothConfig := mkBluetoothConfig None None None.

(** The Bluetooth [connectionState] as far as [connectToDevice] uses
    it.  [connectedDevices] holds the keys of the Map.
    [bt_reconnectCount] is the property [connectionState.reconnectCount]:
    [None] while it is [undefined], a Map otherwise.  [listeners] are
    the peripherals with a pending [once("disconnect")] listener, one
    entry per registration. *)
Record BluetoothState : Type := mkBluetoothState {
  connectedDevices : gset string;
  bt_reconnectCount : option (gmap string nat);
  listeners : list string
}.

(** The state the module starts with: its object literal declares no
    [reconnectCount], and no statement of the module assigns one. *)
Definition bluetooth_initial : BluetoothState := mkBluetoothState ∅ None [].

(** [connectionState.reconnectCount.set(id, n)]; a method call on
    [undefined] throws a [TypeError]. *)
Definition reconnectCount_set (id : string) (n : nat) (s : BluetoothState)
  : Completion BluetoothState :=
  match bt_reconnectCount s with
  | None => Throw TypeError
  | Some counts =>
      Normal (mkBluetoothState (connectedDevices s) (Some (<[id := n]> counts))
                (listeners s))
  end.

(** [connectionState.reconnectCount.get(id) || 0] *)
Definition reconnectCount_get (id : string) (s : BluetoothState) : Completion nat :=
  match bt_reconnectCount s with
  | None => Throw TypeError
  | Some counts => Normal (default 0%nat (counts !! id))
  end.

(** [connectToDevice(peripheral)] from its first statement to the
    registration of the disconnect listener; [connected] is the outcome
    of [await peripheral.connectAsync()].  The [catch] of the function
    logs and rethrows.  What follows the registration (service
    discovery, subscriptions, the save of the device) is left out. *)
Definition connectToDevice (id : string) (connected : Completion unit)
    (s : BluetoothState) : Completion unit * BluetoothState :=
  match connected with
  | Throw e => (Throw e, s)
  | Normal _ =>
      let s1 := mkBluetoothState ({[id]} ∪ connectedDevices s) (bt_reconnectCount s)
                  (listeners s) in
      match reconnectCount_set id 0%nat s1 with
      | Throw e => (Throw e, s1)
      | Normal s2 =>
          (Normal (),
           mkBluetoothState (connectedDevices s2) (bt_reconnectCount s2)
             (id :: listeners s2))
      end
  end.

(** What a run of the disconnect listener hands to [setTimeout]: nothing,
    or a reconnect after a delay, [None] standing for [NaN]. *)
Inductive Schedule : Type :=
| NotScheduled
| ScheduledAfter (delay : option Z).

(** [Math.min(bluetoothConfig.reconnectDelay * Math.pow(2, reconnectCount),
    bluetoothConfig.maxReconnectDelay)]: [NaN] when a constant is
    [undefined]. *)
Definition wireless_delay (reconnectCount : nat) : option Z :=
  match bt_reconnectDelay bluetoothConfig, bt_maxReconnectDelay bluetoothConfig with
  | Some delay, Some cap => Some (Z.min (delay * 2 ^ Z.of_nat reconnectCount) cap)
  | _, _ => None
  end.

(** The ["disconnect"] listener of a peripheral.  The comparison
    [reconnectCount < bluetoothConfig.maxReconnectAttempts] is false
    when the right side is [undefined]. *)
Definition on_peripheral_disconnect (id : string) (s : BluetoothState)
  : Completion Schedule * BluetoothState :=
  let s1 := mkBluetoothState (connectedDevices s ∖ {[id]}) (bt_reconnectCount s)
              (listeners s) in
  match reconnectCount_get id s1 with
  | Throw e => (Throw e, s1)
  | Normal reconnectCount =>
      match bt_maxReconnectAttempts bluetoothConfig with
      | Some maxAttempts =>
          if decide (reconnectCount < maxAttempts)%nat then
            match reconnectCount_set id (reconnectCount + 1)%nat s1 with
            | Throw e => (Throw e, s1)
            | Normal s2 => (Normal (ScheduledAfter (wireless_delay reconnectCount)), s2)
            end
          else (Normal NotScheduled, s1)
      | None => (Normal NotScheduled, s1)
      end
  end.

(** ** Sync service ([sync.service.js]) *)

Definition unsynced (d : SessionDoc) : Prop := synced (doc_syncStatus d) = false.

#[export] Instance unsynced_dec d : Decision (unsynced d).
Proof. unfold unsynced. apply _. Defined.

Definition set_syncStatus (st : SyncStatus) (d : SessionDoc) : SessionDoc :=
  mkSessionDoc (doc_id d) (doc_device d) (doc_patient d) (doc_doctor d)
    (doc_sessionId d) (doc_startTime d) (doc_endTime d) (doc_dataPoints d)
    (doc_stimulationParameters d) (doc_stimulationPattern d)
    (doc_metadata d) st.

(** [Model.find({ 'syncStatus.synced': false }).limit(limit)] *)
Definition find_unsynced (m : Model) (limit : nat) : M (list SessionDoc) :=
  storage_call ;;
  c ← gets (λ w, collection m (db w));
  mret (take limit (filter unsynced c)).

(** [Model.find({ _id: { $in: recordIds } })] *)
Definition find_by_ids (m : Model) (recordIds : list ObjectId) : M (list SessionDoc) :=
  storage_call ;;
  c ← gets (λ w, collection m (db w));
  mret (filter (λ d, doc_id d ∈ recordIds) c).

(** [record.save()] of a fetched record whose modified paths are
    [syncStatus.synced] and [syncStatus.syncedAt]. *)
Definition save_syncStatus (m : Model) (record : SessionDoc) : M unit :=
  storage_call ;;
  modify (λ w, set_db (set_collection m
                         (update_by_id (doc_id record)
                            (set_syncStatus (doc_syncStatus record))
                            (collection m (db w))) (db w)) w).

(** The simulated cloud call. *)
Definition cloud_push (m : Model) (id : ObjectId) : M unit :=
  modify (λ w, set_pushes (pushes w ++ [(m, id)]) w).

(** The common text of [syncEMGRecord] and [syncEMSRecord]. *)
Definition sync_record (m : Model) (record : SessionDoc) : M bool :=
  catch (cloud_push m (doc_id record) ;;
         t ← new_Date_now;
         let record := set_syncStatus (mkSyncStatus true (Some t)) record in
         save_syncStatus m record ;;
         mret true)
        (λ _, mret false).

Definition syncEMGRecord (record : SessionDoc) : M bool := sync_record EMGData record.
Definition syncEMSRecord (record : SessionDoc) : M bool := sync_record EMSData record.

Definition batch_size : nat := 100.

(** The [try] block of [syncData]. *)
Definition syncData_body : M unit :=
  pendingEMGData ← find_unsynced EMGData batch_size;
  (if decide (0 < length pendingEMGData)%nat
   then for_each pendingEMGData (λ record, syncEMGRecord record ;; mret ())
   else mret ()) ;;
  pendingEMSData ← find_unsynced EMSData batch_size;
  (if decide (0 < length pendingEMSData)%nat
   then for_each pendingEMSData (λ record, syncEMSRecord record ;; mret ())
   else mret ()).

(** [SyncService.syncData] *)
Definition syncData : M unit := λ w,
  if isSyncing w then (Normal (), w)
  else finally (catch syncData_body (λ _, mret ()))
               (set_isSyncing false)
               (set_isSyncing true w).

Definition lower (c : Ascii.ascii) : Ascii.ascii :=
  let n := Ascii.N_of_ascii c in
  if decide (65 ≤ n ≤ 90)%N then Ascii.ascii_of_N (n + 32) else c.

Fixpoint toLowerCase (s : string) : string :=
  match s with
  | EmptyString => EmptyString
  | String c rest => String (lower c) (toLowerCase rest)
  end.

(** The loop of [forceSyncRecords]. *)
Fixpoint force_loop (m : Model) (records : list SessionDoc) (successCount : nat)
  : M nat :=
  match records with
  | [] => mret successCount
  | record :: rest =>
      success ← sync_record m record;
      force_loop m rest (if success : bool then S successCount else successCount)
  end.

Record ForceSyncSummary : Type := mkSummary {
  total : nat;
  success : nat;
  failed : nat
}.

(** [SyncService.forceSyncRecords]; the [catch] rethrows. *)
Definition forceSyncRecords (recordIds : list ObjectId) (dataType : string)
  : M ForceSyncSummary :=
  catch (let m := if decide (toLowerCase dataType = "emg") then EMGData else EMSData in
         records ← find_by_ids m recordIds;
         successCount ← force_loop m records 0%nat;
         mret (mkSummary (length records) successCount
                 (length records - successCount)))
        (λ e, lift (Throw e)).

(** *** The scheduler as interleaved steps *)

(** Where a started [syncData] is suspended: at the [await] of a
    [find], or inside the loop over the fetched records. *)
Inductive Phase : Type :=
| AwaitFind (m : Model)
| Syncing (m : Model) (todo : list SessionDoc).

(** Resuming a suspended run up to its next [await]; [None] when the
    run has left [syncData] through its [finally]. *)
Definition resume (ph : Phase) (w : World) : option Phase * World :=
  match ph with
  | AwaitFind m =>
      match find_unsynced m batch_size w with
      | (Normal pending, w') => (Some (Syncing m pending), w')
      | (Throw _, w') => (None, set_isSyncing false w')
      end
  | Syncing m (record :: rest) =>
      (Some (Syncing m rest), snd (sync_record m record w))
  | Syncing EMGData [] => (Some (AwaitFind EMSData), w)
  | Syncing EMSData [] => (None, set_isSyncing false w)
  end.

(** The process: the world and the [syncData] calls in flight. *)
Record Process : Type := mkProcess {
  world : World;
  running : list Phase
}.

(** A call of [syncData()], up to its first [await]. *)
Definition trigger (p : Process) : Process :=
  if isSyncing (world p) then p
  else mkProcess (set_isSyncing true (world p))
                 (running p ++ [AwaitFind EMGData]).

Inductive Action : Type :=
| Tick                                   (* the interval timer calls syncData *)
| Resume (i : nat)                       (* the i-th call in flight continues *)
| Environment (t : Date) (fs : list bool) (* time passes, storage outcomes arrive *)
| Ingest (via : Transport) (a : Arrival)  (* a device event is handled *)
| Force (recordIds : list ObjectId) (dataType : string). (* forceSyncRecords *)

Definition exec (p : Process) (act : Action) : Process :=
  match act with
  | Tick => trigger p
  | Resume i =>
      match running p !! i with
      | None => p
      | Some ph =>
          match resume ph (world p) with
          | (Some ph', w') => mkProcess w' (<[i := ph']> (running p))
          | (None, w') => mkProcess w' (delete i (running p))
          end
      end
  | Environment t fs => mkProcess (set_faults fs (set_now t (world p))) (running p)
  | Ingest via a => mkProcess (deliver via (world p) a) (running p)
  | Force recordIds dataType =>
      mkProcess (snd (forceSyncRecords recordIds dataType (world p))) (running p)
  end.

Definition exec_all (p : Process) (acts : list Action) : Process :=
  foldl exec p acts.

(** A freshly constructed [SyncService] over any store. *)
Definition started (d : Db) (t : Date) : Process :=
  mkProcess (mkWorld d t [] false []) [].

(** * Auxiliary definitions used in the statements *)

(** The signed 16-bit little-endian value whose low byte is at [o]. *)
Definition int16_at (data : Buffer) (o : nat) : option Z :=
  match index data o, index data (o + 1) with
  | Some lo, Some hi => Some (to_int16 (lo + 256 * hi))
  | _, _ => None
  end.

(** Sample frames. *)
Definition short_emg_frame : Buffer := ["001"; "007"; "000"; "000"; "000"]%byte.
Definition unknown_kind_frame : Buffer :=
  ["003"; "000"; "000"; "000"; "000"; "000"; "000"; "000"; "000";
   "000"; "000"; "000"; "000"; "010"; "000"]%byte.

(** An EMG frame of 18 bytes: header, the samples 16 and -1, and one
    trailing byte. *)
Definition emg_frame_18 : Buffer :=
  ["001"; "007"; "000"; "000"; "000";
   "100"; "000"; "000"; "000"; "000"; "000"; "000"; "000";
   "016"; "000"; "255"; "255"; "009"]%byte.

(** What one fault-free EMG delivery does to the EMG collection and to
    the identifier counter. *)
Definition emg_step (dev : Device) (data : DeviceData) (t : Date) (d : Db)
  : list SessionDoc * ObjectId :=
  match list_find (session_filter (sessionId data) (dev_id dev)) (emgDocs d) with
  | Some (_, ex) =>
      (update_by_id (doc_id ex) (push_each (dataPoints data) t) (emgDocs d), nextId d)
  | None =>
      (emgDocs d ++ [new_emg_session dev data (nextId d) t], S (nextId d))
  end.

(** The samples an arrival carries. *)
Definition samples (a : Arrival) : list DataPoint := dataPoints (arr_data a).

Ltac run_handler :=
  unfold deliver, handle, bluetooth_dispatch, handleDeviceData, processEMGData,
    processEMSData, catch, save_lastConnected, upsert_emg, upsert_ems, findOne,
    findByIdAndUpdate, create, Device_save, storage_call, new_Date_now, gets,
    modify, mbind, M_bind, mret, M_ret.

Ltac split_faults fs :=
  destruct fs as [| [] [| [] [| [] fs]]]; cbn in *;
  repeat match goal with
         | H : Forall _ (_ :: _) |- _ => inversion H; clear H; subst
         end;
  try discriminate.

(** Appending the samples of an arrival to a record. *)
Definition append_event (r : SessionDoc) (a : Arrival) : SessionDoc :=
  push_each (samples a) (arr_now a) r.

(** A store with one registered device and no session yet. *)
Definition device_D1 : Device := mkDevice 1%nat "D1" (Some 2%nat) 3%nat None.

Definition empty_db : Db := mkDb [device_D1] [] [] 10%nat.

Definition empty_world : World := mkWorld empty_db 0 [] false [].

Definition sample_at (t v : Z) : DataPoint := mkDataPoint (Some t) (Some v) (Some 1) None.

(** Event A: three samples, device timestamp 50, handled at clock 60. *)
Definition event_A : Arrival :=
  mkArrival 60 [] device_D1
    (mkDeviceData "emg" "S1" (Some 50)
       [sample_at 50 11; sample_at 50 12; sample_at 50 13] None None None []).

(** Event B: two samples, device timestamp 100, handled at clock 200. *)
Definition event_B : Arrival :=
  mkArrival 200 [] device_D1
    (mkDeviceData "emg" "S1" (Some 100)
       [sample_at 100 21; sample_at 100 22] None None None []).


(** The pub/sub client after a connect followed by [n] consecutive
    reconnect events. *)
Definition after_failures (n : nat) (s : MqttState) : MqttState :=
  Nat.iter n on_reconnect (on_connect s).

(** ** Relational reasoning about the monad *)

(** Every run of [m] relates the world before to the world after. *)
Definition preserves {A} (R : relation World) (m : M A) : Prop :=
  ∀ w, R w (snd (m w)).

(** [m] never throws. *)
Definition never_throws {A} (m : M A) : Prop :=
  ∀ w, ∃ a, fst (m w) = Normal a.

(** The single-flight flag is left as it was. *)
Definition same_flag : relation World := λ w w', isSyncing w' = isSyncing w.

(** Documents keep their position and identifier, and a synced
    document stays synced. *)
Definition grows (c c' : list SessionDoc) : Prop :=
  ∀ i d, c !! i = Some d →
    ∃ d', c' !! i = Some d' ∧ doc_id d' = doc_id d
          ∧ (synced (doc_syncStatus d) = true → synced (doc_syncStatus d') = true).

Definition sync_monotone : relation World :=
  λ w w', ∀ m, grows (collection m (db w)) (collection m (db w')).

(** Existing documents keep their sync status and every added document
    is unsynced. *)
Definition extends (c c' : list SessionDoc) : Prop :=
  ∃ extra, doc_syncStatus <$> c' = (doc_syncStatus <$> c) ++ (doc_syncStatus <$> extra)
           ∧ Forall unsynced extra.

Definition ingest_only : relation World :=
  λ w w', ∀ m, extends (collection m (db w)) (collection m (db w')).

(** A relation that ignores the pending storage outcomes, the log of
    cloud calls and the device collection. *)
Class Insensitive (R : relation World) : Prop := {
  insensitive_faults : ∀ w fs, R w (set_faults fs w);
  insensitive_pushes : ∀ w ps, R w (set_pushes ps w);
  insensitive_devices : ∀ w ds, R w (set_db (set_devices ds (db w)) w)
}.

Tactic Notation "papply" uconstr(lem) := apply lem; try apply _.

(** At most one [syncData] call is in flight, and the flag is set
    exactly while one is. *)
Definition single_flight (p : Process) : Prop :=
  (isSyncing (world p) = true ∧ ∃ ph, running p = [ph])
  ∨ (isSyncing (world p) = false ∧ running p = []).

(** Two timer ticks, then the query of the run in flight rejects. *)
Definition two_ticks_then_fault : list Action :=
  [Tick; Tick; Environment 5 [true]].

(** ** The sync run as a function of the world *)

Definition mark_synced (t : Date) (d : SessionDoc) : SessionDoc :=
  set_syncStatus (mkSyncStatus true (Some t)) d.

(** One attempt: the cloud call is logged, the next storage outcome is
    consumed, and the document is marked unless the save rejects. *)
Definition sync_effect (m : Model) (r : SessionDoc) (w : World) : bool * World :=
  let w1 := set_pushes (pushes w ++ [(m, doc_id r)]) w in
  match faults w with
  | true :: fs => (false, set_faults fs w1)
  | fs =>
      (true,
       set_db (set_collection m
                 (update_by_id (doc_id r) (mark_synced (now w)) (collection m (db w)))
                 (db w))
         (set_faults (tail fs) w1))
  end.

Definition sync_batch (m : Model) (rs : list SessionDoc) (w : World) : World :=
  foldl (λ w r, snd (sync_effect m r w)) w rs.

(** The records a run fetches. *)
Definition fetch (m : Model) (w : World) : list SessionDoc :=
  take batch_size (filter unsynced (collection m (db w))).

(** One half of a run: the query and the loop; [false] when the query
    rejected. *)
Definition phase (m : Model) (w : World) : bool * World :=
  match faults w with
  | true :: fs => (false, set_faults fs w)
  | fs => (true, sync_batch m (fetch m w) (set_faults (tail fs) w))
  end.

Definition sync_run (w : World) : World :=
  let (ok, w1) := phase EMGData (set_isSyncing true w) in
  set_isSyncing false (if ok then snd (phase EMSData w1) else w1).

(** The records of a batch whose save succeeds, given the outcomes of
    the saves in order. *)
Fixpoint succeeded (rs : list SessionDoc) (fs : list bool) : list SessionDoc :=
  match rs with
  | [] => []
  | r :: rs' =>
      match fs with
      | true :: fs' => succeeded rs' fs'
      | _ => r :: succeeded rs' (tail fs)
      end
  end.

(** Marking the documents whose identifier is in [ids]. *)
Definition mark_ids (t : Date) (ids : list ObjectId) (c : list SessionDoc)
  : list SessionDoc :=
  (λ d, if decide (doc_id d ∈ ids) then mark_synced t d else d) <$> c.

(** The cloud calls of a model among the calls logged since [w]. *)
Definition pushes_since (m : Model) (w w' : World) : list ObjectId :=
  snd <$> filter (λ p, fst p = m) (drop (length (pushes w)) (pushes w')).

(** Stores of unsynced EMG records, for the scenarios. *)
Definition unsynced_doc (i : nat) : SessionDoc :=
  mkSessionDoc i 1%nat (Some 2%nat) 3%nat "S" 0 None [] None None []
    (mkSyncStatus false None).

Definition world_with (n : nat) (fs : list bool) : World :=
  mkWorld (mkDb [device_D1] (unsynced_doc <$> seq 0 n) [] n) 7 fs false [].

(** The query succeeds, the save of the fourth record rejects. *)
Definition one_failure : list bool :=
  [false; false; false; false; true].

Definition synced_flags (w : World) : list bool :=
  (λ d, synced (doc_syncStatus d)) <$> emgDocs (db w).

(** A store with one synced and one unsynced EMG record. *)
Definition synced_doc : SessionDoc :=
  mkSessionDoc 4%nat 1%nat (Some 2%nat) 3%nat "S1" 0 (Some 5) [sample_at 1 1]
    None None [] (mkSyncStatus true (Some 6)).

Definition mixed_process : Process :=
  mkProcess (mkWorld (mkDb [device_D1] [synced_doc; unsynced_doc 5] [] 10%nat)
               0 [] false []) [].

Definition busy_day : list Action :=
  [Ingest PubSub event_B; Tick; Resume 0; Ingest Wireless event_A;
   Force [4%nat; 5%nat] "EMG"; Resume 0; Resume 0; Resume 0; Tick].

(** The process when nothing but the run in flight makes progress. *)
Fixpoint run_alone (fuel : nat) (p : Process) : Process :=
  match fuel with
  | O => p
  | S fuel' =>
      match running p with
      | [] => p
      | _ :: _ => run_alone fuel' (exec p (Resume 0))
      end
  end.

(** The storage outcome the query of a batch meets in a run started in
    [w]: the EMG query comes first, the EMS query after the saves of the
    EMG batch. *)
Definition query_outcome (m : Model) (w : World) : option bool :=
  match m with
  | EMGData => head (faults w)
  | EMSData => faults w !! S (length (fetch EMGData w))
  end.

(** The outcomes the saves of a batch meet, in order. *)
Definition save_outcomes (m : Model) (w : World) : list bool :=
  match m with
  | EMGData => tail (faults w)
  | EMSData => drop (length (fetch EMGData w) + 2) (faults w)
  end.

(** Ten unsynced EMG records and three unsynced EMS records; both
    queries succeed, the save of the fourth EMG record and the save of
    the second EMS record reject. *)
Definition two_batches : World :=
  mkWorld (mkDb [device_D1] (unsynced_doc <$> seq 0 10) (unsynced_doc <$> seq 10 3)
             13%nat)
    7
    ([false]
       ++ [false; false; false; true; false; false; false; false; false; false]
       ++ [false] ++ [false; true; false])
    false [].

(** * Further parts of the services *)

(** ** Session aggregator: EMS sessions and interleaved handlers *)

(** The EMS records of a (device, session) pair. *)
Definition ems_sessions_for (dev : ObjectId) (sid : string) (w : World)
  : list SessionDoc :=
  filter (session_filter sid dev) (emsDocs (db w)).

(** An EMS event of the pair. *)
Definition ems_event_of (dev : ObjectId) (sid : string) (a : Arrival) : Prop :=
  type (arr_data a) = "ems" ∧ sessionId (arr_data a) = sid
  ∧ dev_id (arr_device a) = dev.

#[export] Instance ems_event_of_dec dev sid a : Decision (ems_event_of dev sid a).
Proof. unfold ems_event_of. apply _. Defined.

(** The response samples an arrival carries ([data.responseData || []]). *)
Definition responses (a : Arrival) : list DataPoint :=
  default [] (responseData (arr_data a)).

Definition append_response (r : SessionDoc) (a : Arrival) : SessionDoc :=
  push_each (responses a) (arr_now a) r.

(** What one fault-free EMS delivery does to the EMS collection and to
    the identifier counter. *)
Definition ems_step (dev : Device) (data : DeviceData) (t : Date) (d : Db)
  : list SessionDoc * ObjectId :=
  match list_find (session_filter (sessionId data) (dev_id dev)) (emsDocs d) with
  | Some (_, ex) =>
      (update_by_id (doc_id ex) (push_each (default [] (responseData data)) t)
         (emsDocs d), nextId d)
  | None =>
      (emsDocs d ++ [new_ems_session dev data (nextId d) t], S (nextId d))
  end.

(** The two halves of [upsert_emg], on either side of the [await] of
    [findOne]. *)
Definition lookup_emg (device : Device) (data : DeviceData) : M (option SessionDoc) :=
  findOne EMGData (sessionId data) (dev_id device).

Definition write_emg (device : Device) (data : DeviceData)
    (existingSession : option SessionDoc) : M unit :=
  match existingSession with
  | Some ex =>
      t ← new_Date_now;
      findByIdAndUpdate EMGData (doc_id ex) (push_each (dataPoints data) t)
  | None =>
      create EMGData (new_emg_session device data) ;; mret ()
  end.

(** Two handlers whose lookups both complete before either writes. *)
Definition interleaved_upserts (deviceA : Device) (dataA : DeviceData)
    (deviceB : Device) (dataB : DeviceData) : M unit :=
  foundA ← lookup_emg deviceA dataA;
  foundB ← lookup_emg deviceB dataB;
  write_emg deviceA dataA foundA ;;
  write_emg deviceB dataB foundB.


(** Documents keep their place, identity and key, and their samples
    remain a prefix of the samples stored later. *)
Definition keeps_samples (c c' : list SessionDoc) : Prop :=
  ∀ i d, c !! i = Some d →
    ∃ d', c' !! i = Some d'
          ∧ doc_id d' = doc_id d
          ∧ doc_device d' = doc_device d
          ∧ doc_sessionId d' = doc_sessionId d
          ∧ doc_startTime d' = doc_startTime d
          ∧ doc_dataPoints d `prefix_of` doc_dataPoints d'.

Definition additive : relation World :=
  λ w w', ∀ m, keeps_samples (collection m (db w)) (collection m (db w')).

(** Nothing but the sync status of a document changes. *)
Definition status_only (c c' : list SessionDoc) : Prop :=
  Forall2 (λ d d', d' = set_syncStatus (doc_syncStatus d') d) c c'.

Definition sync_only : relation World :=
  λ w w', ∀ m, status_only (collection m (db w)) (collection m (db w')).

(** A delivery of which the second storage call rejects. *)
Definition event_A_rejected : Arrival :=
  mkArrival 60 [false; true] device_D1 (arr_data event_A).

(** A delivery of which the first storage call rejects. *)
Definition event_A_unsaved : Arrival :=
  mkArrival 60 [true] device_D1 (arr_data event_A).

(** An event of a kind the handlers do not know. *)
Definition event_unknown : Arrival :=
  mkArrival 70 [] device_D1
    (mkDeviceData "ecg" "S1" (Some 65) [sample_at 65 1] None None None []).

(** Two EMS events of one session; the second carries no response data. *)
Definition ems_A : Arrival :=
  mkArrival 60 [] device_D1
    (mkDeviceData "ems" "S1" (Some 50) [] (Some (mkStim (Some 5) (Some 50) (Some 300)))
       None (Some [sample_at 50 1; sample_at 50 2]) []).

Definition ems_B : Arrival :=
  mkArrival 200 [] device_D1
    (mkDeviceData "ems" "S1" (Some 100) [] None None None []).

(** A store whose only EMG record is synced. *)
Definition synced_world : World :=
  mkWorld (mkDb [device_D1] [synced_doc] [] 10%nat) 0 [] false [].

(** ** Device status ([handleDeviceStatus], [parseDeviceStatus]) *)

(** A status object; a field it does not carry is [None]. *)
Record DeviceStatus : Type := mkStatus {
  batteryLevel : option Z;
  firmwareVersion : option string
}.

(** The [updates] object handed to [Device.findByIdAndUpdate]. *)
Record DeviceUpdates : Type := mkUpdates {
  upd_batteryLevel : option Z;
  upd_firmwareVersion : option string;
  upd_lastConnected : option Date
}.

(** A byte of the buffer inside a template literal: an index out of
    range is printed as [undefined]. *)
Definition show_element (o : option Z) : string :=
  match o with
  | Some z => pretty z
  | None => "undefined"
  end.

(** [parseDeviceStatus] *)
Definition parseDeviceStatus (data : Buffer) : Completion (option DeviceStatus) :=
  try_catch
    (let batteryLevel := index data 0 in
     let major := index data 1 in
     let minor := index data 2 in
     let patch := index data 3 in
     let build := index data 4 in
     let firmwareVersion :=
       show_element major +:+ "." +:+ show_element minor +:+ "."
       +:+ show_element patch +:+ "." +:+ show_element build in
     Normal (Some (mkStatus batteryLevel (Some firmwareVersion))))
    (λ _, Normal None).

(** The fields [updates] gets from a status: [batteryLevel] when it is
    not [undefined], [firmwareVersion] when it is truthy. *)
Definition status_updates (status : DeviceStatus) : DeviceUpdates :=
  mkUpdates (batteryLevel status)
    (match firmwareVersion status with
     | Some v => if decide (v = EmptyString) then None else Some v
     | None => None
     end)
    None.

(** [Object.keys(updates).length > 0] *)
Definition has_keys (u : DeviceUpdates) : bool :=
  bool_decide (upd_batteryLevel u ≠ None ∨ upd_firmwareVersion u ≠ None
               ∨ upd_lastConnected u ≠ None).

(** [Device.findByIdAndUpdate(id, updates)]; of the fields written, the
    device documents of this development hold [lastConnected]. *)
Definition Device_findByIdAndUpdate (id : ObjectId) (updates : DeviceUpdates) : M unit :=
  storage_call ;;
  modify (λ w, set_db (set_devices
                         (update_device id
                            (λ d, match upd_lastConnected updates with
                                  | Some t => set_lastConnected (Some t) d
                                  | None => d
                                  end)
                            (devices (db w))) (db w)) w).

(** The common part of both status handlers, after the device is known.
    The result is the update document that reached the store, [None]
    when nothing was written. *)
Definition write_status (device : Device) (status : DeviceStatus)
  : M (option DeviceUpdates) :=
  let updates := status_updates status in
  if has_keys updates then
    t ← new_Date_now;
    let updates := mkUpdates (upd_batteryLevel updates)
                     (upd_firmwareVersion updates) (Some t) in
    Device_findByIdAndUpdate (dev_id device) updates ;;
    mret (Some updates)
  else mret None.

(** [handleDeviceStatus] of the MQTT service. *)
Definition handleDeviceStatus (device : Device) (status : DeviceStatus)
  : M (option DeviceUpdates) :=
  catch (write_status device status) (λ _, mret None).

(** [handleDeviceStatus] of the Bluetooth service. *)
Definition bluetooth_handleDeviceStatus (deviceId : string) (data : Buffer)
  : M (option DeviceUpdates) :=
  catch (status ← lift (parseDeviceStatus data);
         match status with
         | None => mret None
         | Some status =>
             device ← Device_findOne deviceId;
             match device with
             | None => mret None
             | Some device => write_status device status
             end
         end)
        (λ _, mret None).

(** A status frame: battery 85, firmware 1.2.3.4. *)
Definition status_frame : Buffer := ["085"; "001"; "002"; "003"; "004"]%byte.

(** ** Connection supervision: runs of events *)

(** The events the pub/sub client reacts to: the five lifecycle events,
    an incoming message at a given time, and the 5-second timer that
    resets the message count. *)
Inductive MqttEvent : Type :=
| Connect
| Disconnect
| Close
| Error
| Reconnect
| Message (t : Date)
| CountReset.

(** The first two statements of the ["message"] handler. *)
Definition on_message_stats (t : Date) (s : MqttState) : MqttState :=
  mkMqttState (isConnected s) (reconnectCount s) (Some t) (S (messageCount s))
    (reconnectPeriod s) (ended s).

(** The callback of [messageCountResetInterval]. *)
Definition on_count_reset (s : MqttState) : MqttState :=
  mkMqttState (isConnected s) (reconnectCount s) (lastMessageTime s) 0%nat
    (reconnectPeriod s) (ended s).

Definition mqtt_step (s : MqttState) (e : MqttEvent) : MqttState :=
  match e with
  | Connect => on_connect s
  | Disconnect => on_disconnect s
  | Close => on_close s
  | Error => on_error s
  | Reconnect => on_reconnect s
  | Message t => on_message_stats t s
  | CountReset => on_count_reset s
  end.

Definition mqtt_run (s : MqttState) (es : list MqttEvent) : MqttState :=
  foldl mqtt_step s es.

(** The number of reconnect events since the last connect, the events
    given latest first. *)
Fixpoint reconnects_since_connect (latest_first : list MqttEvent) : nat :=
  match latest_first with
  | [] => 0
  | Connect :: _ => 0
  | Reconnect :: rest => S (reconnects_since_connect rest)
  | _ :: rest => reconnects_since_connect rest
  end.

(** The number of messages since the last reset of the count, the
    events given latest first. *)
Fixpoint messages_since_reset (latest_first : list MqttEvent) : nat :=
  match latest_first with
  | [] => 0
  | CountReset :: _ => 0
  | Message _ :: rest => S (messages_since_reset rest)
  | _ :: rest => messages_since_reset rest
  end.

(** The events around a peripheral: a call of [connectToDevice] with
    the outcome of its [connectAsync], and the peripheral's
    ["disconnect"] event. *)
Inductive PeripheralEvent : Type :=
| ConnectAttempt (id : string) (connected : Completion unit)
| Disconnected (id : string).

(** [n] listeners of the peripheral run one after the other; a listener
    that throws schedules nothing. *)
Fixpoint run_listeners (id : string) (n : nat) (s : BluetoothState)
  : BluetoothState * list Schedule :=
  match n with
  | O => (s, [])
  | S n' =>
      let (c, s1) := on_peripheral_disconnect id s in
      let (s2, rest) := run_listeners id n' s1 in
      (s2, match c with
           | Normal r => r :: rest
           | Throw _ => rest
           end)
  end.

(** One event: the new state and what the listeners it ran handed to
    [setTimeout].  A [once] listener is removed when its event fires. *)
Definition peripheral_step (s : BluetoothState) (e : PeripheralEvent)
  : BluetoothState * list Schedule :=
  match e with
  | ConnectAttempt id connected => (snd (connectToDevice id connected s), [])
  | Disconnected id =>
      let n := length (filter (λ l, l = id) (listeners s)) in
      run_listeners id n
        (mkBluetoothState (connectedDevices s) (bt_reconnectCount s)
           (filter (λ l, l ≠ id) (listeners s)))
  end.

Fixpoint peripheral_run (s : BluetoothState) (es : list PeripheralEvent)
  : BluetoothState * list Schedule :=
  match es with
  | [] => (s, [])
  | e :: rest =>
      let (s1, r1) := peripheral_step s e in
      let (s2, r2) := peripheral_run s1 rest in
      (s2, r1 ++ r2)
  end.

(** The peripherals whose [connectAsync] resolved in a run of events. *)
Definition resolved (es : list PeripheralEvent) : list string :=
  omap (λ e, match e with
             | ConnectAttempt id (Normal _) => Some id
             | _ => None
             end) es.

(** ** Forced sync and repeated runs *)

(** The collection [forceSyncRecords] works on: [EMGData] when the
    lower-cased [dataType] is ["emg"], [EMSData] for every other string. *)
Definition model_of (dataType : string) : Model :=
  if decide (toLowerCase dataType = "emg") then EMGData else EMSData.

(** The documents [find({ _id: { $in: recordIds } })] returns. *)
Definition requested (m : Model) (recordIds : list ObjectId) (w : World)
  : list SessionDoc :=
  filter (λ d, doc_id d ∈ recordIds) (collection m (db w)).

(** The number of rejected saves among the first [n] storage outcomes. *)
Definition rejections (n : nat) (fs : list bool) : nat :=
  length (filter (λ b, b = true) (take n fs)).

(** A store with a synced and an unsynced EMG record and an EMS record,
    and the storage outcomes [fs] to come. *)
Definition two_kinds (fs : list bool) : World :=
  mkWorld (mkDb [device_D1] [synced_doc; unsynced_doc 5] [unsynced_doc 6] 10%nat)
    9 fs false [].

(** * Properties *)

(** ** Frame decoder *)

Section Decoder.

Implicit Types (data : Buffer) (ts : Date).

Lemma read_le_short width data offset :
  (length data < offset + width)%nat → read_le width data offset = Throw RangeError.
Proof. intros H. unfold read_le. case_decide; [lia | done]. Qed.

Lemma read_le_inside width data offset :
  (offset + width ≤ length data)%nat →
  read_le width data offset = Normal (le_value (take width (drop offset data))).
Proof. intros H. unfold read_le. case_decide; [done | lia]. Qed.

Lemma readInt16LE_inside data i :
  (i + 1 < length data)%nat →
  ∃ v, int16_at data i = Some v ∧ readInt16LE data i = Normal v.
Proof.
  intros H. unfold readInt16LE, int16_at, index.
  rewrite read_le_inside by lia.
  destruct (lookup_lt_is_Some_2 data i) as [lo Hlo]; [lia |].
  destruct (lookup_lt_is_Some_2 data (i + 1)) as [hi Hhi]; [lia |].
  rewrite Hlo, Hhi. simpl. eexists; split; [reflexivity |].
  rewrite (drop_S _ _ _ Hlo).
  replace (S i) with (i + 1)%nat by lia.
  rewrite (drop_S _ _ _ Hhi). simpl.
  do 2 f_equal. lia.
Qed.

(** What the sample loop computes once it is reached: one point per
    complete byte pair after offset [i], in order; a trailing odd byte
    contributes nothing. *)
Lemma parse_loop_spec data ts fuel : ∀ i points,
  (length data ≤ i + 2 * fuel)%nat →
  ∃ new,
    parse_loop fuel data ts i points = Normal (points ++ new)
    ∧ length new = ((length data - i) / 2)%nat
    ∧ ∀ j, (j < length new)%nat →
        ∃ v, int16_at data (i + 2 * j) = Some v
             ∧ new !! j = Some (mkDataPoint (Some ts) (Some v) None None).
Proof.
  induction fuel as [| fuel IH]; intros i points Hfuel; cbn [parse_loop].
  - exists []. rewrite app_nil_r. split; [done |]. split.
    + replace (length data - i)%nat with 0%nat by lia. done.
    + simpl. intros j Hj. lia.
  - case_decide as Hi; [case_decide as Hi1 |].
    + destruct (readInt16LE_inside data i Hi1) as (v & Hv & ->). cbn [mbind completion_bind].
      destruct (IH (i + 2)%nat (points ++ [mkDataPoint (Some ts) (Some v) None None]))
        as (new & Hrun & Hlen & Hnth); [lia |].
      exists (mkDataPoint (Some ts) (Some v) None None :: new).
      rewrite Hrun, <- app_assoc. split; [done |]. split.
      * cbn [length]. rewrite Hlen.
        assert (E : (length data - i = (length data - (i + 2)) + 1 * 2)%nat) by lia.
        rewrite E, Nat.div_add by lia. lia.
      * intros [| j] Hj; simpl in *.
        -- exists v. rewrite Nat.add_0_r. done.
        -- destruct (Hnth j) as (v' & Hv' & Hj'); [lia |].
           exists v'. split; [| done].
           replace (i + S (j + S (j + 0)))%nat with (i + 2 + 2 * j)%nat by lia. done.
    + destruct (IH (i + 2)%nat points) as (new & Hrun & Hlen & Hnth); [lia |].
      exists new. split; [done |].
      replace (length data - (i + 2))%nat with 0%nat in Hlen by lia.
      replace (length data - i)%nat with 1%nat by lia.
      split; [rewrite Hlen; reflexivity |].
      intros j Hj. rewrite Hlen in Hj. change (0 / 2)%nat with 0%nat in Hj. lia.
    + exists []. rewrite app_nil_r. split; [done |].
      replace (length data - i)%nat with 0%nat by lia.
      split; [done |]. simpl. intros j Hj. lia.
Qed.

(** Whatever [readBigUInt64LE] returns, the [Date] constructor rejects it. *)
Lemma timestamp_never_built data :
  (ts_raw ← readBigUInt64LE data 5; new_Date ts_raw) = Throw RangeError
  ∨ (ts_raw ← readBigUInt64LE data 5; new_Date ts_raw) = Throw TypeError.
Proof.
  unfold readBigUInt64LE, read_le. case_decide; [right | left]; reflexivity.
Qed.

Lemma parseDeviceData_null data : parseDeviceData data = Normal None.
Proof.
  unfold parseDeviceData, parseDeviceData_body.
  repeat case_decide; try reflexivity;
    unfold readUInt32LE, readBigUInt64LE, read_le;
    repeat case_decide; reflexivity.
Qed.

End Decoder.

(** C7.  The wireless frame decoder is total: every byte sequence is
    decoded to a normal completion (an event or [null]), never to a
    thrown exception; a frame shorter than the 13-byte header yields
    [null], and so does a frame whose first byte is neither 1 nor 2. *)
Theorem parseDeviceData_total (data : Buffer) :
  (∃ r, parseDeviceData data = Normal r)
  ∧ ((length data < 13)%nat → parseDeviceData data = Normal None)
  ∧ (index data 0 ≠ Some 1 → index data 0 ≠ Some 2 →
     parseDeviceData data = Normal None).
Proof.
  split; [| split].
  - unfold parseDeviceData.
    destruct (parseDeviceData_body data) as [r | e]; simpl; eauto.
  - intros Hshort. unfold parseDeviceData, parseDeviceData_body.
    repeat case_decide; try reflexivity;
      unfold readUInt32LE, readBigUInt64LE.
    + destruct (decide (5 ≤ length data)%nat).
      * rewrite (read_le_inside 4), (read_le_short 8) by lia. reflexivity.
      * rewrite (read_le_short 4) by lia. reflexivity.
    + destruct (decide (5 ≤ length data)%nat).
      * rewrite (read_le_inside 4), (read_le_short 8) by lia. reflexivity.
      * rewrite (read_le_short 4) by lia. reflexivity.
  - intros H1 H2. unfold parseDeviceData, parseDeviceData_body.
    rewrite !decide_False by done. reflexivity.
Qed.

Lemma parseDeviceData_total_witness :
  (length short_emg_frame < 13)%nat
  ∧ parseDeviceData short_emg_frame = Normal None
  ∧ index unknown_kind_frame 0 ≠ Some 1
  ∧ index unknown_kind_frame 0 ≠ Some 2
  ∧ parseDeviceData unknown_kind_frame = Normal None.
Proof.
  assert (Hs : (length short_emg_frame < 13)%nat) by (vm_compute; lia).
  assert (H1 : index unknown_kind_frame 0 ≠ Some 1) by (vm_compute; discriminate).
  assert (H2 : index unknown_kind_frame 0 ≠ Some 2) by (vm_compute; discriminate).
  split; [exact Hs |].
  split; [exact (proj1 (proj2 (parseDeviceData_total short_emg_frame)) Hs) |].
  split; [exact H1 |]. split; [exact H2 |].
  exact (proj2 (proj2 (parseDeviceData_total unknown_kind_frame)) H1 H2).
Defined.

(** ** Session aggregator *)

Section Aggregator.

Implicit Types (w : World) (a : Arrival) (c : list SessionDoc) (via : Transport).

Lemma deliver_emg_ok via w a :
  type (arr_data a) = "emg" → fault_free a →
  (emgDocs (db (deliver via w a)), nextId (db (deliver via w a)))
  = emg_step (arr_device a) (arr_data a) (arr_now a) (db w).
Proof.
  intros Hty Hff. destruct a as [t fs dev data]. simpl in *.
  unfold fault_free in Hff. simpl in Hff.
  run_handler. unfold emg_step. cbn. rewrite Hty, !decide_True by done.
  destruct via; split_faults fs;
    destruct (list_find _ _) as [[i ex]|]; cbn; reflexivity.
Qed.

Lemma deliver_emg_skip via w a :
  ¬ (type (arr_data a) = "emg" ∧ fault_free a) →
  emgDocs (db (deliver via w a)) = emgDocs (db w)
  ∧ (nextId (db w) ≤ nextId (db (deliver via w a)))%nat.
Proof.
  intros Hno. destruct a as [t fs dev data]. simpl in *.
  unfold fault_free in Hno. simpl in Hno.
  run_handler. cbn.
  destruct (decide (type data = "emg")) as [Hty | Hty].
  - assert (Hff : ¬ Forall (λ b, b = false) (take 3 fs)) by tauto. clear Hno.
    destruct via; split_faults fs;
      try (exfalso; apply Hff; repeat constructor; fail);
      repeat (destruct (list_find _ _) as [[i ex]|]; cbn);
      split; (reflexivity || lia).
  - destruct (decide (type data = "ems")) as [Hty' | Hty'].
    + destruct via; split_faults fs;
        repeat (destruct (list_find _ _) as [[i ex]|]; cbn);
        split; (reflexivity || lia).
    + destruct via; split_faults fs; split; (reflexivity || lia).
Qed.

(** The aggregator catches whatever its storage calls throw. *)
Lemma handle_never_throws via dev data : never_throws (handle via dev data).
Proof.
  intros w. exists (). destruct w as [d t fs flag ps].
  run_handler. cbn.
  destruct via; repeat case_decide;
    destruct fs as [| [] [| [] [| [] fs]]]; cbn;
    repeat (destruct (list_find _ _) as [[i ex] |]; cbn); reflexivity.
Qed.

(** No frame reaches the store through the Bluetooth handler: the
    decoder returns [null] for every frame. *)
Lemma bluetooth_frames_are_dropped deviceId data w :
  fst (bluetooth_handleDeviceData deviceId data w) = Normal ()
  ∧ db (snd (bluetooth_handleDeviceData deviceId data w)) = db w.
Proof.
  unfold bluetooth_handleDeviceData, catch, Device_findOne, storage_call, gets, lift,
    mbind, M_bind, mret, M_ret.
  rewrite parseDeviceData_null. destruct w as [d t fs flag ps]. cbn.
  destruct fs as [| [] fs]; cbn;
    repeat (destruct (list_find _ _) as [[i ex] |]; cbn); done.
Qed.

(** *** Updating by identifier *)

Lemma update_by_id_ids id f c :
  (∀ d, doc_id (f d) = doc_id d) →
  doc_id <$> update_by_id id f c = doc_id <$> c.
Proof.
  intros Hf. induction c as [| d c IH]; [done |]. cbn [update_by_id].
  case_decide; rewrite !fmap_cons; [by rewrite Hf | by rewrite IH].
Qed.

Lemma update_by_id_absent id f c :
  id ∉ doc_id <$> c → update_by_id id f c = c.
Proof.
  induction c as [| d c IH]; simpl; [done |].
  intros Hid. apply not_elem_of_cons in Hid as [Hne Hid].
  case_decide; [congruence | by rewrite IH].
Qed.

Lemma filter_update_by_id (P : SessionDoc → Prop) `{!∀ d, Decision (P d)} id f c :
  NoDup (doc_id <$> c) →
  (∀ d, P (f d) ↔ P d) →
  filter P (update_by_id id f c) = update_by_id id f (filter P c).
Proof.
  intros Hnd Hf. induction c as [| d c IH]; [done |].
  rewrite fmap_cons in Hnd. apply NoDup_cons in Hnd as [Hd Hnd].
  cbn [update_by_id]. case_decide as Hid.
  - destruct (decide (P d)) as [HP | HP].
    + rewrite (filter_cons_True P (f d)) by (by apply Hf).
      rewrite (filter_cons_True P d) by done.
      cbn [update_by_id]. by rewrite decide_True.
    + rewrite (filter_cons_False P (f d)) by (by rewrite Hf).
      rewrite (filter_cons_False P d) by done.
      symmetry. apply update_by_id_absent. subst id.
      intros (x & Hx & Hin%list_elem_of_filter)%list_elem_of_fmap.
      apply Hd. rewrite Hx. apply list_elem_of_fmap_2. tauto.
  - destruct (decide (P d)) as [HP | HP].
    + rewrite !(filter_cons_True P d) by done. cbn [update_by_id].
      rewrite decide_False by done. by rewrite IH.
    + rewrite !(filter_cons_False P d) by done. by apply IH.
Qed.

Lemma same_id_same_doc c (x y : SessionDoc) :
  NoDup (doc_id <$> c) → x ∈ c → y ∈ c → doc_id x = doc_id y → x = y.
Proof.
  induction c as [| d c IH]; intros Hnd Hx Hy Hid; [by apply elem_of_nil in Hx |].
  apply NoDup_cons in Hnd as [Hd Hnd].
  apply elem_of_cons in Hx as [-> | Hx]; apply elem_of_cons in Hy as [-> | Hy].
  - done.
  - exfalso. apply Hd. rewrite Hid. by apply list_elem_of_fmap_2.
  - exfalso. apply Hd. rewrite <- Hid. by apply list_elem_of_fmap_2.
  - by apply IH.
Qed.

Lemma push_each_filter sid dev pts t d :
  session_filter sid dev (push_each pts t d) ↔ session_filter sid dev d.
Proof. destruct d; reflexivity. Qed.

Lemma list_find_filter_nil sid dev c :
  filter (session_filter sid dev) c = [] →
  list_find (session_filter sid dev) c = None.
Proof.
  intros Hnil. apply list_find_None, Forall_forall. intros x Hx HP.
  eapply filter_nil_not_elem_of; eauto.
Qed.

Lemma list_find_filter_one sid dev c r :
  filter (session_filter sid dev) c = [r] →
  ∃ i, list_find (session_filter sid dev) c = Some (i, r).
Proof.
  intros Hone.
  assert (Hr : r ∈ filter (session_filter sid dev) c) by (rewrite Hone; left).
  apply list_elem_of_filter in Hr as [HP Hin].
  destruct (list_find_elem_of _ _ _ Hin HP) as [[i x] Hfind].
  exists i. rewrite Hfind. do 2 f_equal.
  apply list_find_Some in Hfind as (Hix & HPx & _).
  assert (Hx : x ∈ filter (session_filter sid dev) c).
  { apply list_elem_of_filter. split; [done |]. eapply list_elem_of_lookup_2; eauto. }
  rewrite Hone in Hx. by apply list_elem_of_singleton in Hx.
Qed.

Lemma ids_below_fmap c (n : nat) :
  Forall (λ d, doc_id d < n)%nat c ↔ Forall (λ i, i < n)%nat (doc_id <$> c).
Proof. by rewrite Forall_fmap. Qed.

(** *** One delivery *)

Lemma deliver_wf via w a : ids_wf EMGData w → ids_wf EMGData (deliver via w a).
Proof.
  intros [Hnd Hlt]. unfold ids_wf in *. simpl in *.
  destruct (decide (type (arr_data a) = "emg" ∧ fault_free a)) as [[Hty Hff] | Hno].
  - pose proof (deliver_emg_ok via w a Hty Hff) as Hstep.
    unfold emg_step in Hstep.
    destruct (list_find _ _) as [[i ex] |]; injection Hstep as -> ->.
    + rewrite update_by_id_ids by (by intros []). split; [done |].
      apply ids_below_fmap. rewrite update_by_id_ids by (by intros []).
      by apply ids_below_fmap.
    + rewrite fmap_app. simpl. split.
      * apply NoDup_app. split; [done |]. split; [| apply NoDup_singleton].
        intros x (d & Hx & Hd)%list_elem_of_fmap Hx'%list_elem_of_singleton.
        rewrite Forall_forall in Hlt. specialize (Hlt d Hd). simpl in Hlt. lia.
      * apply Forall_app. split.
        -- eapply Forall_impl; [exact Hlt |]. simpl. intros; lia.
        -- constructor; [simpl; lia | constructor].
  - destruct (deliver_emg_skip via w a Hno) as [-> Hle]. split; [done |].
    eapply Forall_impl; [exact Hlt |]. simpl. intros; lia.
Qed.


Lemma deliver_create via dev sid w a :
  sessions_for dev sid w = [] → emg_event_of dev sid a → fault_free a →
  sessions_for dev sid (deliver via w a)
  = [new_emg_session (arr_device a) (arr_data a) (nextId (db w)) (arr_now a)].
Proof.
  intros Hnone (Hty & Hsid & Hdev) Hff. unfold sessions_for in *.
  pose proof (deliver_emg_ok via w a Hty Hff) as Hstep. unfold emg_step in Hstep.
  rewrite Hsid, Hdev, (list_find_filter_nil _ _ _ Hnone) in Hstep.
  injection Hstep as -> _.
  rewrite filter_app, Hnone, filter_cons_True; [done |].
  by split.
Qed.

Lemma deliver_append via dev sid w a r :
  ids_wf EMGData w →
  sessions_for dev sid w = [r] → emg_event_of dev sid a → fault_free a →
  sessions_for dev sid (deliver via w a) = [push_each (samples a) (arr_now a) r].
Proof.
  intros [Hnd _] Hone (Hty & Hsid & Hdev) Hff. unfold sessions_for in *.
  pose proof (deliver_emg_ok via w a Hty Hff) as Hstep. unfold emg_step in Hstep.
  destruct (list_find_filter_one _ _ _ _ Hone) as [i Hfind].
  rewrite Hsid, Hdev, Hfind in Hstep. injection Hstep as -> _.
  rewrite filter_update_by_id by (done || intros; apply push_each_filter).
  rewrite Hone. simpl. by rewrite decide_True.
Qed.

End Aggregator.

Section Sequences.

Implicit Types (w : World) (a : Arrival) (l : list Arrival) (via : Transport).

Lemma deliver_all_wf via l : ∀ w,
  ids_wf EMGData w → ids_wf EMGData (deliver_all via w l).
Proof.
  induction l as [| a l IH]; intros w Hwf; [done |].
  apply IH. by apply deliver_wf.
Qed.






End Sequences.




(** C2 (as amended).  When an event A creates a session with 3 samples
    and a second event B of the same (device, session) brings 2 more,
    the aggregator leaves a single record with the 5 samples, A's then
    B's; its endTime is the clock reading taken while B was handled, and
    its startTime the clock reading taken while A was handled. *)
Theorem append_sets_endTime_to_clock (via : Transport) (dev : ObjectId)
    (sid : string) (w : World) (A B : Arrival) :
  ids_wf EMGData w →
  sessions_for dev sid w = [] →
  emg_event_of dev sid A → fault_free A →
  emg_event_of dev sid B → fault_free B →
  length (samples A) = 3%nat → length (samples B) = 2%nat →
  ∃ r,
    sessions_for dev sid (deliver_all via w [A; B]) = [r]
    ∧ doc_dataPoints r = samples A ++ samples B
    ∧ length (doc_dataPoints r) = 5%nat
    ∧ doc_endTime r = Some (arr_now B)
    ∧ doc_startTime r = arr_now A.
Proof.
  intros Hwf Hnone HA HfA HB HfB HlenA HlenB. simpl.
  pose proof (deliver_create via dev sid w A Hnone HA HfA) as Hcreated.
  pose proof (deliver_append via dev sid _ B _ (deliver_wf via w A Hwf) Hcreated HB HfB)
    as Happended.
  eexists. split; [exact Happended |].
  simpl. rewrite length_app. unfold samples in *. rewrite HlenA, HlenB. done.
Qed.

Lemma append_sets_endTime_to_clock_witness :
  ∃ r,
    sessions_for 1%nat "S1" (deliver_all Wireless empty_world [event_A; event_B]) = [r]
    ∧ doc_dataPoints r = samples event_A ++ samples event_B
    ∧ length (doc_dataPoints r) = 5%nat
    ∧ doc_endTime r = Some (arr_now event_B)
    ∧ doc_startTime r = arr_now event_A.
Proof.
  apply (append_sets_endTime_to_clock Wireless 1%nat "S1" empty_world event_A event_B).
  - vm_compute. split; repeat constructor.
  - reflexivity.
  - vm_compute. auto.
  - vm_compute. constructor.
  - vm_compute. auto.
  - vm_compute. constructor.
  - reflexivity.
  - reflexivity.
Defined.

(** C2 as stated fails: B carries the device timestamp 100 and is
    handled when the clock reads 200; the single resulting record has 5
    samples and its endTime is 200, not B's timestamp. *)
Lemma endTime_is_not_event_timestamp :
  ∃ r,
    sessions_for 1%nat "S1" (deliver_all PubSub empty_world [event_A; event_B]) = [r]
    ∧ length (doc_dataPoints r) = 5%nat
    ∧ eventTimestamp (arr_data event_B) = Some 100
    ∧ doc_endTime r = Some 200
    ∧ doc_endTime r ≠ eventTimestamp (arr_data event_B).
Proof.
  eexists. split; [vm_compute; reflexivity |].
  split; [reflexivity |]. split; [reflexivity |]. split; [reflexivity |].
  simpl. discriminate.
Qed.

(** C10.  An EMG frame of 18 bytes: the sample loop, once reached, would
    yield the two points 16 and -1 and ignore the trailing byte, as the
    claim says; but the decoder returns [null], because the timestamp
    read by [readBigUInt64LE] is a BigInt and [new Date] of it throws
    before the loop is reached. *)
Theorem emg_frame_decodes_to_null :
  index emg_frame_18 0 = Some 1
  ∧ length emg_frame_18 = 18%nat
  ∧ (∀ ts, parse_loop (length emg_frame_18) emg_frame_18 ts 13 []
           = Normal [mkDataPoint (Some ts) (Some 16) None None;
                     mkDataPoint (Some ts) (Some (-1)) None None])
  ∧ readBigUInt64LE emg_frame_18 5 = Normal (JsBigInt 100)
  ∧ new_Date (JsBigInt 100) = Throw TypeError
  ∧ parseDeviceData emg_frame_18 = Normal None.
Proof. repeat split. Qed.

(** ** Connection supervision *)

Section Supervisor.

Lemma backoff_capped n : backoff n ≤ maxReconnectDelay mqttConfig.
Proof. unfold backoff. lia. Qed.

Lemma after_failures_count n s : reconnectCount (after_failures n s) = n.
Proof. induction n as [| n IH]; simpl; [done |]. rewrite IH. lia. Qed.

Lemma after_failures_period n s :
  reconnectPeriod (after_failures (S n) s) = backoff (S n).
Proof.
  unfold after_failures. simpl. fold (after_failures n s).
  rewrite after_failures_count. f_equal. lia.
Qed.

Lemma listener_never_schedules id s delay :
  fst (on_peripheral_disconnect id s) ≠ Normal (ScheduledAfter delay).
Proof.
  unfold on_peripheral_disconnect, reconnectCount_get. simpl.
  by destruct (bt_reconnectCount s).
Qed.

Lemma connect_attempt_throws id s :
  bt_reconnectCount s = None →
  fst (connectToDevice id (Normal ()) s) = Throw TypeError
  ∧ listeners (snd (connectToDevice id (Normal ()) s)) = listeners s
  ∧ bt_reconnectCount (snd (connectToDevice id (Normal ()) s)) = None
  ∧ connectedDevices (snd (connectToDevice id (Normal ()) s))
    = {[id]} ∪ connectedDevices s.
Proof.
  intros Hnone. unfold connectToDevice, reconnectCount_set. simpl.
  by rewrite Hnone.
Qed.

End Supervisor.

(** C3.  In the pub/sub client the claim holds: the reconnect handler
    increments the counter and stores
    [min(1000 * 2^count, 30000)] as the period the client waits before
    its next attempt, so that after a connect the first three
    consecutive reconnects give 2000, 4000 and 8000 ms and every count
    from 5 on gives the cap.  In the wireless transport it does not:
    the module declares neither [connectionState.reconnectCount] nor
    the three constants of [bluetoothConfig], so that
    [connectToDevice], once [connectAsync] has resolved, records the
    peripheral as connected and then throws a [TypeError] at the reset
    of the counter, before the disconnect listener is registered; and
    the listener itself, from whatever state it is run, never schedules
    a reconnect. *)
Theorem reconnect_backoff :
  (∀ s, reconnectCount (on_reconnect s) = S (reconnectCount s)
        ∧ reconnectPeriod (on_reconnect s)
          = Z.min (1000 * 2 ^ Z.of_nat (S (reconnectCount s))) 30000)
  ∧ (∀ s n, reconnectPeriod (after_failures (S n) s)
            = Z.min (1000 * 2 ^ Z.of_nat (S n)) 30000)
  ∧ (λ n, reconnectPeriod (after_failures n mqtt_initial)) <$> [1; 2; 3]%nat
    = [2000; 4000; 8000]
  ∧ (∀ s n, (5 ≤ n)%nat → reconnectPeriod (after_failures n s) = 30000)
  ∧ (∀ id,
       let attempt := connectToDevice id (Normal ()) bluetooth_initial in
       fst attempt = Throw TypeError
       ∧ listeners (snd attempt) = []
       ∧ connectedDevices (snd attempt) = {[id]})
  ∧ (∀ id s delay,
       fst (on_peripheral_disconnect id s) ≠ Normal (ScheduledAfter delay))
  ∧ (∀ id s,
       bt_reconnectCount s = None →
       fst (on_peripheral_disconnect id s) = Throw TypeError).
Proof.
  split; [| split; [| split; [| split; [| split; [| split]]]]].
  - intros s. unfold on_reconnect, backoff. simpl.
    split; [lia |]. do 3 f_equal. lia.
  - intros s n. apply after_failures_period.
  - reflexivity.
  - intros s n Hn. destruct n as [| n]; [lia |].
    rewrite after_failures_period. unfold backoff. simpl reconnectDelay.
    simpl maxReconnectDelay. apply Z.min_r.
    assert (Hpow : 2 ^ 5 ≤ 2 ^ Z.of_nat (S n)) by (apply Z.pow_le_mono_r; lia).
    lia.
  - intros id. cbv zeta.
    destruct (connect_attempt_throws id bluetooth_initial) as (-> & -> & _ & ->);
      [done |].
    repeat split. apply (right_id_L (∅ : gset string) (∪)).
  - apply listener_never_schedules.
  - intros id s Hnone. unfold on_peripheral_disconnect, reconnectCount_get.
    simpl. by rewrite Hnone.
Qed.

Lemma reconnect_backoff_witness :
  reconnectPeriod (after_failures 7 mqtt_initial) = 30000
  ∧ fst (on_peripheral_disconnect "p"
           (snd (connectToDevice "p" (Normal ()) bluetooth_initial)))
    = Throw TypeError.
Proof.
  pose proof reconnect_backoff as (_ & _ & _ & Hclamp & _ & _ & Hthrows).
  split; [apply (Hclamp mqtt_initial 7%nat); lia |].
  apply Hthrows. reflexivity.
Defined.

(** C4.  The connect handler of the pub/sub client resets the attempt
    counter and leaves [client.options.reconnectPeriod] as the last
    reconnect set it: after three failed reconnects and a successful
    connect the counter is 0 and the period is still 8000 ms, while the
    configured base is 1000 ms. *)
Theorem connect_resets_count_not_period :
  (∀ s, reconnectCount (on_connect s) = 0%nat
        ∧ reconnectPeriod (on_connect s) = reconnectPeriod s)
  ∧ reconnectPeriod (after_failures 3 mqtt_initial) = 8000
  ∧ reconnectCount (on_connect (after_failures 3 mqtt_initial)) = 0%nat
  ∧ reconnectPeriod (on_connect (after_failures 3 mqtt_initial)) = 8000
  ∧ reconnectDelay mqttConfig = 1000.
Proof.
  split; [intros s; split; reflexivity |].
  repeat (split; [reflexivity |]). reflexivity.
Qed.

(** ** A relational logic for the monad *)

Section Logic.

Context (R : relation World) `{!PreOrder R}.

Lemma preserves_ret {A} (a : A) : preserves R (mret a).
Proof. intros w. simpl. reflexivity. Qed.

Lemma preserves_lift {A} (c : Completion A) : preserves R (lift c).
Proof. intros w. simpl. reflexivity. Qed.

Lemma preserves_gets {A} (f : World → A) : preserves R (gets f).
Proof. intros w. simpl. reflexivity. Qed.

Lemma preserves_bind {A B} (m : M A) (k : A → M B) :
  preserves R m → (∀ a, preserves R (k a)) → preserves R (m ≫= k).
Proof.
  intros Hm Hk w. unfold mbind, M_bind. specialize (Hm w).
  destruct (m w) as [[a | e] w']; simpl in *; [| done].
  etrans; [exact Hm | apply Hk].
Qed.

Lemma preserves_catch {A} (m : M A) (h : JsError → M A) :
  preserves R m → (∀ e, preserves R (h e)) → preserves R (catch m h).
Proof.
  intros Hm Hh w. unfold catch. specialize (Hm w).
  destruct (m w) as [[a | e] w']; simpl in *; [done |].
  etrans; [exact Hm | apply Hh].
Qed.

Lemma preserves_finally {A} (m : M A) (f : World → World) :
  preserves R m → (∀ w, R w (f w)) → preserves R (finally m f).
Proof.
  intros Hm Hf w. unfold finally. specialize (Hm w).
  destruct (m w) as [r w']; simpl in *. etrans; [exact Hm | apply Hf].
Qed.

Lemma preserves_modify (f : World → World) :
  (∀ w, R w (f w)) → preserves R (modify f).
Proof. intros Hf w. apply Hf. Qed.

Lemma preserves_for_each {A} (l : list A) (body : A → M unit) :
  (∀ x, preserves R (body x)) → preserves R (for_each l body).
Proof.
  intros Hbody. induction l as [| x l IH]; simpl.
  - apply preserves_ret.
  - apply preserves_bind; [apply Hbody | intros _; apply IH].
Qed.

Context `{!Insensitive R}.

Lemma preserves_storage_call : preserves R storage_call.
Proof.
  intros w. unfold storage_call.
  destruct (faults w) as [| [] fs]; simpl;
    [reflexivity | apply insensitive_faults | apply insensitive_faults].
Qed.

Lemma preserves_new_Date_now : preserves R new_Date_now.
Proof. apply preserves_gets. Qed.

Lemma preserves_Device_save dev : preserves R (Device_save dev).
Proof.
  apply preserves_bind; [apply preserves_storage_call | intros _].
  apply preserves_modify. intros w. apply insensitive_devices.
Qed.

Lemma preserves_cloud_push m id : preserves R (cloud_push m id).
Proof. apply preserves_modify. intros w. apply insensitive_pushes. Qed.

Lemma preserves_findOne m sid dev : preserves R (findOne m sid dev).
Proof.
  apply preserves_bind; [apply preserves_storage_call | intros _].
  apply preserves_bind; [apply preserves_gets | intros c; apply preserves_ret].
Qed.

Lemma preserves_find_unsynced m n : preserves R (find_unsynced m n).
Proof.
  apply preserves_bind; [apply preserves_storage_call | intros _].
  apply preserves_bind; [apply preserves_gets | intros c; apply preserves_ret].
Qed.

Lemma preserves_find_by_ids m ids : preserves R (find_by_ids m ids).
Proof.
  apply preserves_bind; [apply preserves_storage_call | intros _].
  apply preserves_bind; [apply preserves_gets | intros c; apply preserves_ret].
Qed.

(** What remains to be shown of a relation: that the three writes to a
    session collection respect it. *)
Context
  (Hupdate : ∀ m id pts t, preserves R (findByIdAndUpdate m id (push_each pts t)))
  (Hcreate_emg : ∀ dev data, preserves R (create EMGData (new_emg_session dev data)))
  (Hcreate_ems : ∀ dev data, preserves R (create EMSData (new_ems_session dev data)))
  (Hsave : ∀ m r, synced (doc_syncStatus r) = true →
             preserves R (save_syncStatus m r)).

Lemma preserves_upsert_emg dev data : preserves R (upsert_emg dev data).
Proof.
  apply preserves_bind; [apply preserves_findOne | intros [ex |]].
  - apply preserves_bind; [apply preserves_new_Date_now | intros t; apply Hupdate].
  - apply preserves_bind; [apply Hcreate_emg | intros _; apply preserves_ret].
Qed.

Lemma preserves_upsert_ems dev data : preserves R (upsert_ems dev data).
Proof.
  apply preserves_bind; [apply preserves_findOne | intros [ex |]].
  - apply preserves_bind; [apply preserves_new_Date_now | intros t; apply Hupdate].
  - apply preserves_bind; [apply Hcreate_ems | intros _; apply preserves_ret].
Qed.

Lemma preserves_save_lastConnected dev : preserves R (save_lastConnected dev).
Proof.
  apply preserves_bind; [apply preserves_new_Date_now | intros t].
  apply preserves_Device_save.
Qed.

Lemma preserves_handle via dev data : preserves R (handle via dev data).
Proof.
  destruct via; simpl.
  - apply preserves_catch; [| intros _; apply preserves_ret].
    apply preserves_bind; [apply preserves_save_lastConnected | intros _].
    repeat case_decide;
      [apply preserves_upsert_emg | apply preserves_upsert_ems | apply preserves_ret].
  - unfold bluetooth_dispatch. repeat case_decide; [| | apply preserves_ret].
    + apply preserves_catch; [| intros _; apply preserves_ret].
      apply preserves_bind; [apply preserves_save_lastConnected | intros _].
      apply preserves_upsert_emg.
    + apply preserves_catch; [| intros _; apply preserves_ret].
      apply preserves_bind; [apply preserves_save_lastConnected | intros _].
      apply preserves_upsert_ems.
Qed.

Lemma preserves_sync_record m r : preserves R (sync_record m r).
Proof.
  apply preserves_catch; [| intros _; apply preserves_ret].
  apply preserves_bind; [apply preserves_cloud_push | intros _].
  apply preserves_bind; [apply preserves_new_Date_now | intros t].
  apply preserves_bind; [by apply Hsave | intros _; apply preserves_ret].
Qed.

Lemma preserves_force_loop m rs : ∀ n, preserves R (force_loop m rs n).
Proof.
  induction rs as [| r rs IH]; intros n; simpl; [apply preserves_ret |].
  apply preserves_bind; [apply preserves_sync_record | intros b; apply IH].
Qed.

Lemma preserves_forceSyncRecords ids ty : preserves R (forceSyncRecords ids ty).
Proof.
  apply preserves_catch; [| intros e; apply preserves_lift].
  apply preserves_bind; [apply preserves_find_by_ids | intros rs].
  apply preserves_bind; [apply preserves_force_loop | intros n; apply preserves_ret].
Qed.

Lemma preserves_syncData_body : preserves R syncData_body.
Proof.
  unfold syncData_body.
  apply preserves_bind; [apply preserves_find_unsynced | intros rs].
  apply preserves_bind.
  { case_decide; [| apply preserves_ret]. apply preserves_for_each. intros r.
    apply preserves_bind; [apply preserves_sync_record | intros _; apply preserves_ret]. }
  intros _.
  apply preserves_bind; [apply preserves_find_unsynced | intros rs'].
  case_decide; [| apply preserves_ret]. apply preserves_for_each. intros r.
  apply preserves_bind; [apply preserves_sync_record | intros _; apply preserves_ret].
Qed.

End Logic.

(** ** The relations the services respect *)

Section Relations.

Implicit Types (w : World) (c : list SessionDoc) (m : Model).

Lemma collection_set m' m c d :
  collection m' (set_collection m c d) = if decide (m' = m) then c else collection m' d.
Proof. destruct m', m; reflexivity. Qed.

Lemma collection_set_nextId m n d : collection m (set_nextId n d) = collection m d.
Proof. destruct m; reflexivity. Qed.

(** *** The single-flight flag *)

#[export] Instance same_flag_preorder : PreOrder same_flag.
Proof. split; [by intros w | intros w1 w2 w3; unfold same_flag; congruence]. Qed.

#[export] Instance same_flag_insensitive : Insensitive same_flag.
Proof. split; intros; reflexivity. Qed.

Lemma handle_same_flag via dev data : preserves same_flag (handle via dev data).
Proof.
  papply preserves_handle; intros;
    (papply preserves_bind; [papply preserves_storage_call | intros _]).
  - papply preserves_modify. by intros w.
  - papply preserves_bind; [papply preserves_gets | intros t].
    papply preserves_bind; [papply preserves_gets | intros id].
    papply preserves_bind; [| intros _; papply preserves_ret].
    papply preserves_modify. by intros w.
  - papply preserves_bind; [papply preserves_gets | intros t].
    papply preserves_bind; [papply preserves_gets | intros id].
    papply preserves_bind; [| intros _; papply preserves_ret].
    papply preserves_modify. by intros w.
Qed.

Lemma save_syncStatus_same_flag m r : preserves same_flag (save_syncStatus m r).
Proof.
  papply preserves_bind; [papply preserves_storage_call | intros _].
  papply preserves_modify. by intros w.
Qed.

Lemma sync_record_same_flag m r : preserves same_flag (sync_record m r).
Proof.
  papply preserves_sync_record. intros; apply save_syncStatus_same_flag.
Qed.

Lemma forceSyncRecords_same_flag ids ty :
  preserves same_flag (forceSyncRecords ids ty).
Proof.
  papply preserves_forceSyncRecords.
  intros; apply save_syncStatus_same_flag.
Qed.

(** *** Monotonicity of the sync status *)

Lemma grows_refl c : grows c c.
Proof. intros i d Hd. eauto. Qed.

Lemma grows_trans c1 c2 c3 : grows c1 c2 → grows c2 c3 → grows c1 c3.
Proof.
  intros H12 H23 i d Hd.
  destruct (H12 i d Hd) as (d2 & Hd2 & Hid2 & Hs2).
  destruct (H23 i d2 Hd2) as (d3 & Hd3 & Hid3 & Hs3).
  exists d3. split; [done |]. split; [congruence | auto].
Qed.



#[export] Instance sync_monotone_preorder : PreOrder sync_monotone.
Proof.
  split.
  - intros w m. apply grows_refl.
  - intros w1 w2 w3 H12 H23 m. eapply grows_trans; eauto.
Qed.

#[export] Instance sync_monotone_insensitive : Insensitive sync_monotone.
Proof. split; intros w x m; destruct m; apply grows_refl. Qed.








(** *** Ingestion keeps every status and adds unsynced documents *)

Lemma extends_refl c : extends c c.
Proof. exists []. simpl. by rewrite app_nil_r. Qed.

Lemma extends_trans c1 c2 c3 : extends c1 c2 → extends c2 c3 → extends c1 c3.
Proof.
  intros (e1 & H1 & Hu1) (e2 & H2 & Hu2). exists (e1 ++ e2). split.
  - by rewrite H2, H1, fmap_app, app_assoc.
  - by apply Forall_app.
Qed.


#[export] Instance ingest_only_preorder : PreOrder ingest_only.
Proof.
  split.
  - intros w m. apply extends_refl.
  - intros w1 w2 w3 H12 H23 m. eapply extends_trans; eauto.
Qed.

#[export] Instance ingest_only_insensitive : Insensitive ingest_only.
Proof. split; intros w x m; destruct m; apply extends_refl. Qed.



End Relations.

(** ** Sync scheduler: single flight *)

Section SingleFlight.

Implicit Types (p : Process) (w : World).

Lemma resume_continues ph w ph' w' :
  resume ph w = (Some ph', w') → isSyncing w' = isSyncing w.
Proof.
  destruct ph as [m | m [| r rest]]; simpl.
  - pose proof (preserves_find_unsynced same_flag m batch_size w) as Hflag.
    destruct (find_unsynced m batch_size w) as [[pending | e] w1]; simpl in *;
      intros Heq; simplify_eq. exact Hflag.
  - destruct m; intros Heq; simplify_eq. reflexivity.
  - destruct m; intros Heq; simplify_eq; apply sync_record_same_flag.
Qed.

Lemma resume_finishes ph w w' :
  resume ph w = (None, w') → isSyncing w' = false.
Proof.
  destruct ph as [m | m [| r rest]]; simpl.
  - destruct (find_unsynced m batch_size w) as [[pending | e] w1]; simpl;
      intros Heq; simplify_eq. reflexivity.
  - destruct m; intros Heq; simplify_eq. reflexivity.
  - destruct m; intros Heq; simplify_eq.
Qed.

(** A rejected [find] ends the run through [catch] and [finally]. *)
Lemma resume_find_rejected m w fs :
  faults w = true :: fs →
  ∃ w', resume (AwaitFind m) w = (None, w') ∧ isSyncing w' = false.
Proof.
  intros Hf. simpl. unfold find_unsynced, storage_call, mbind, M_bind.
  rewrite Hf. simpl. eauto.
Qed.

Lemma deliver_same_flag via w a : isSyncing (deliver via w a) = isSyncing w.
Proof.
  unfold deliver.
  exact (handle_same_flag via (arr_device a) (arr_data a)
           (set_faults (arr_faults a) (set_now (arr_now a) w))).
Qed.

Lemma exec_single_flight p act : single_flight p → single_flight (exec p act).
Proof.
  intros Hinv. destruct act as [| i | t fs | via a | ids ty]; simpl.
  - unfold trigger. destruct Hinv as [[Hon Hrun] | [Hoff Hrun]].
    + rewrite Hon. by left.
    + rewrite Hoff. left. simpl. split; [done |]. rewrite Hrun. eauto.
  - destruct (running p !! i) as [ph |] eqn:Hi; [| done].
    destruct Hinv as [[Hon [ph0 Hrun]] | [Hoff Hrun]];
      [| by rewrite Hrun in Hi].
    rewrite Hrun in Hi. destruct i as [| i]; [| done].
    injection Hi as ->.
    destruct (resume ph (world p)) as [[ph' |] w'] eqn:Hres.
    + left. simpl. rewrite Hrun. split; [| by eexists].
      by rewrite (resume_continues _ _ _ _ Hres).
    + right. simpl. rewrite Hrun. split; [| done].
      by apply (resume_finishes _ _ _ Hres).
  - destruct Hinv as [[Hon Hrun] | [Hoff Hrun]]; [by left | by right].
  - unfold single_flight. simpl. by rewrite deliver_same_flag.
  - unfold single_flight. simpl.
    by rewrite (forceSyncRecords_same_flag ids ty (world p)).
Qed.

Lemma exec_all_single_flight acts : ∀ p,
  single_flight p → single_flight (exec_all p acts).
Proof.
  induction acts as [| act acts IH]; intros p Hinv; [done |].
  apply IH. by apply exec_single_flight.
Qed.

Lemma syncData_never_throws w : fst (syncData w) = Normal ().
Proof.
  unfold syncData. destruct (isSyncing w); [done |].
  unfold finally, catch.
  destruct (syncData_body (set_isSyncing true w)) as [[[] | e] w']; reflexivity.
Qed.

Lemma syncData_clears_flag w : isSyncing w = false → isSyncing (snd (syncData w)) = false.
Proof.
  intros Hoff. unfold syncData. rewrite Hoff. unfold finally.
  destruct (catch _ _ _) as [r w']. reflexivity.
Qed.

End SingleFlight.

(** C5.  In every state the process reaches from a freshly constructed
    sync service, under any interleaving of timer ticks, continuations
    of suspended runs, device events, forced syncs and storage outcomes:
    at most one [syncData] run is in flight and the flag is set exactly
    while one is; a trigger that finds the flag set changes nothing (it
    is neither queued nor retried); when a continuation ends the run,
    the flag is cleared, also when the run ends because a query
    rejected.  The function itself never throws, returns at once without
    any effect when the flag is set, and otherwise leaves the flag
    cleared. *)
Theorem sync_is_single_flight (d : Db) (t : Date) (acts : list Action) :
  let p := exec_all (started d t) acts in
  (length (running p) ≤ 1)%nat
  ∧ (isSyncing (world p) = true ↔ running p ≠ [])
  ∧ (isSyncing (world p) = true → exec p Tick = p)
  ∧ (∀ i, (length (running (exec p (Resume i))) < length (running p))%nat →
          isSyncing (world (exec p (Resume i))) = false)
  ∧ (∀ m fs, faults (world p) = true :: fs →
             ∃ w', resume (AwaitFind m) (world p) = (None, w')
                   ∧ isSyncing w' = false)
  ∧ (∀ w, fst (syncData w) = Normal ()
          ∧ (isSyncing w = true → syncData w = (Normal (), w))
          ∧ (isSyncing w = false → isSyncing (snd (syncData w)) = false)).
Proof.
  intros p.
  assert (Hinv : single_flight p).
  { apply exec_all_single_flight. right. done. }
  split; [| split; [| split; [| split; [| split]]]].
  - destruct Hinv as [[_ [ph ->]] | [_ ->]]; simpl; lia.
  - destruct Hinv as [[Hon [ph Hrun]] | [Hoff Hrun]]; rewrite Hrun.
    + split; [done | by intros _].
    + rewrite Hoff. split; [done | by intros []].
  - intros Hon. simpl. unfold trigger. by rewrite Hon.
  - intros i Hless.
    assert (Hnext : single_flight (exec p (Resume i))) by by apply exec_single_flight.
    destruct Hnext as [[_ [ph Hrun]] | [Hoff _]]; [| done].
    rewrite Hrun in Hless. simpl in Hless.
    destruct Hinv as [[_ [ph0 Hrun0]] | [_ Hrun0]]; rewrite Hrun0 in Hless;
      simpl in Hless; lia.
  - intros m fs Hf. by eapply resume_find_rejected.
  - intros w. split; [apply syncData_never_throws |].
    split; [| apply syncData_clears_flag].
    intros Hon. unfold syncData. by rewrite Hon.
Qed.

Lemma sync_is_single_flight_witness :
  let p := exec_all (started empty_db 0) two_ticks_then_fault in
  isSyncing (world p) = true
  ∧ exec p Tick = p
  ∧ (∃ w', resume (AwaitFind EMGData) (world p) = (None, w') ∧ isSyncing w' = false)
  ∧ isSyncing (world (exec p (Resume 0))) = false.
Proof.
  pose proof (sync_is_single_flight empty_db 0 two_ticks_then_fault)
    as (_ & _ & Hskip & Hdone & Herr & _).
  assert (Hon : isSyncing (world (exec_all (started empty_db 0)
                                   two_ticks_then_fault)) = true)
    by reflexivity.
  split; [exact Hon |].
  split; [exact (Hskip Hon) |].
  split; [exact (Herr EMGData [] eq_refl) |].
  apply (Hdone 0%nat). vm_compute. lia.
Defined.

(** ** Sync scheduler: what a run does *)

Section SyncRun.

Implicit Types (w : World) (m : Model) (r : SessionDoc) (rs c : list SessionDoc).

Lemma sync_record_run m r w :
  sync_record m r w = (Normal (fst (sync_effect m r w)), snd (sync_effect m r w)).
Proof.
  unfold sync_record, sync_effect, catch, cloud_push, save_syncStatus, storage_call,
    new_Date_now, gets, modify, mbind, M_bind, mret, M_ret.
  destruct w as [d t fs flag ps]. cbn.
  destruct fs as [| [] fs]; reflexivity.
Qed.

Lemma for_each_sync m rs : ∀ w,
  for_each rs (λ r, sync_record m r ;; mret ()) w = (Normal (), sync_batch m rs w).
Proof.
  induction rs as [| r rs IH]; intros w; [done |].
  cbn [for_each]. unfold mbind, M_bind at 1. unfold mbind, M_bind at 1.
  rewrite sync_record_run. cbn. apply IH.
Qed.

Lemma find_unsynced_run m w :
  find_unsynced m batch_size w
  = match faults w with
    | true :: fs => (Throw StorageError, set_faults fs w)
    | fs => (Normal (fetch m w), set_faults (tail fs) w)
    end.
Proof.
  unfold find_unsynced, fetch, storage_call, gets, mbind, M_bind, mret, M_ret.
  destruct w as [d t fs flag ps]. cbn.
  destruct fs as [| [] fs]; reflexivity.
Qed.

Lemma bind_run {A B} (c : M A) (k : A → M B) w :
  (c ≫= k) w
  = match c w with
    | (Normal a, w') => k a w'
    | (Throw e, w') => (Throw e, w')
    end.
Proof. reflexivity. Qed.

Lemma loop_run m rs w :
  (if decide (0 < length rs)%nat
   then for_each rs (λ r, sync_record m r ;; mret ())
   else mret ()) w
  = (Normal (), sync_batch m rs w).
Proof.
  case_decide as Hlen; [apply for_each_sync |].
  destruct rs; [reflexivity | simpl in Hlen; lia].
Qed.

Lemma syncData_body_run w :
  syncData_body w
  = let (ok, w1) := phase EMGData w in
    if ok then (if fst (phase EMSData w1) then Normal () else Throw StorageError,
                snd (phase EMSData w1))
    else (Throw StorageError, w1).
Proof.
  unfold syncData_body, syncEMGRecord, syncEMSRecord.
  rewrite bind_run, find_unsynced_run. unfold phase at 1.
  assert (Hems : ∀ w1,
    (pendingEMSData ← find_unsynced EMSData batch_size;
     if decide (0 < length pendingEMSData)%nat
     then for_each pendingEMSData (λ record, sync_record EMSData record ;; mret ())
     else mret ()) w1
    = (if fst (phase EMSData w1) then Normal () else Throw StorageError,
       snd (phase EMSData w1))).
  { intros w1. rewrite bind_run, find_unsynced_run. unfold phase.
    destruct (faults w1) as [| [] fs]; [| reflexivity |]; apply loop_run. }
  destruct (faults w) as [| [] fs]; [| reflexivity |];
    rewrite bind_run, loop_run; apply Hems.
Qed.

Lemma syncData_run w :
  isSyncing w = false → syncData w = (Normal (), sync_run w).
Proof.
  intros Hoff. unfold syncData, sync_run, finally, catch. rewrite Hoff.
  rewrite syncData_body_run.
  destruct (phase EMGData (set_isSyncing true w)) as [[] w1]; [| reflexivity].
  destruct (phase EMSData w1) as [[] w2]; reflexivity.
Qed.

(** *** One attempt *)

Lemma sync_effect_now m r w : now (snd (sync_effect m r w)) = now w.
Proof. unfold sync_effect. destruct (faults w) as [| [] fs]; reflexivity. Qed.

Lemma sync_effect_faults m r w : faults (snd (sync_effect m r w)) = tail (faults w).
Proof. unfold sync_effect. destruct (faults w) as [| [] fs]; reflexivity. Qed.

Lemma sync_effect_pushes m r w :
  pushes (snd (sync_effect m r w)) = pushes w ++ [(m, doc_id r)].
Proof. unfold sync_effect. destruct (faults w) as [| [] fs]; reflexivity. Qed.

Lemma sync_effect_collection m m' r w :
  collection m' (db (snd (sync_effect m r w)))
  = if decide (m' = m ∧ head (faults w) ≠ Some true)
    then update_by_id (doc_id r) (mark_synced (now w)) (collection m (db w))
    else collection m' (db w).
Proof.
  unfold sync_effect. destruct (faults w) as [| [] fs]; simpl.
  - rewrite collection_set. destruct (decide (m' = m)) as [-> |].
    + by rewrite decide_True.
    + rewrite decide_False; [done | tauto].
  - rewrite decide_False; [done | tauto].
  - rewrite collection_set. destruct (decide (m' = m)) as [-> |].
    + by rewrite decide_True.
    + rewrite decide_False; [done | tauto].
Qed.

(** *** Marking by identifier *)

Lemma update_by_id_map id f c :
  NoDup (doc_id <$> c) →
  update_by_id id f c = (λ d, if decide (doc_id d = id) then f d else d) <$> c.
Proof.
  induction c as [| x c IH]; intros Hnd; [done |].
  rewrite fmap_cons in Hnd. apply NoDup_cons in Hnd as [Hx Hnd].
  cbn [update_by_id]. rewrite fmap_cons. case_decide as Hid.
  - f_equal. symmetry. etrans; [| apply list_fmap_id].
    apply list_fmap_ext. intros i d Hd. rewrite decide_False; [done |].
    intros Heq. apply Hx. rewrite Hid, <- Heq.
    apply list_elem_of_fmap_2. eapply list_elem_of_lookup_2; eauto.
  - f_equal. by apply IH.
Qed.

Lemma mark_ids_ids t ids c : doc_id <$> mark_ids t ids c = doc_id <$> c.
Proof.
  unfold mark_ids. rewrite <- list_fmap_compose. apply list_fmap_ext.
  intros i d _. simpl. by case_decide.
Qed.

Lemma mark_ids_nil t c : mark_ids t [] c = c.
Proof.
  unfold mark_ids. etrans; [| apply list_fmap_id].
  apply list_fmap_ext. intros i d _. rewrite decide_False; [done |].
  apply not_elem_of_nil.
Qed.

Lemma mark_ids_cons t id ids c :
  NoDup (doc_id <$> c) →
  mark_ids t ids (update_by_id id (mark_synced t) c) = mark_ids t (id :: ids) c.
Proof.
  intros Hnd. rewrite update_by_id_map by done. unfold mark_ids.
  rewrite <- list_fmap_compose. apply list_fmap_ext. intros i d _. simpl.
  destruct (decide (doc_id d = id)) as [Hid | Hid].
  - rewrite (decide_True (P := doc_id d ∈ id :: ids))
      by (rewrite Hid; apply list_elem_of_here).
    by case_decide.
  - destruct (decide (doc_id d ∈ ids)) as [Hin | Hin].
    + by rewrite decide_True by by right.
    + rewrite decide_False; [done |].
      intros [? | ?]%elem_of_cons; done.
Qed.

(** *** A whole batch *)

Lemma sync_batch_now m rs : ∀ w, now (sync_batch m rs w) = now w.
Proof.
  induction rs as [| r rs IH]; intros w; [done |].
  simpl. by rewrite IH, sync_effect_now.
Qed.

Lemma sync_batch_faults m rs : ∀ w,
  faults (sync_batch m rs w) = drop (length rs) (faults w).
Proof.
  induction rs as [| r rs IH]; intros w; [done |].
  simpl. rewrite IH, sync_effect_faults.
  destruct (faults w); simpl; [by rewrite ?drop_nil | done].
Qed.

Lemma sync_batch_pushes m rs : ∀ w,
  pushes (sync_batch m rs w) = pushes w ++ ((λ r, (m, doc_id r)) <$> rs).
Proof.
  induction rs as [| r rs IH]; intros w; simpl; [by rewrite app_nil_r |].
  by rewrite IH, sync_effect_pushes, <- app_assoc.
Qed.

Lemma sync_batch_other m m' rs : ∀ w,
  m' ≠ m → collection m' (db (sync_batch m rs w)) = collection m' (db w).
Proof.
  induction rs as [| r rs IH]; intros w Hm; [done |].
  simpl. rewrite IH, sync_effect_collection by done.
  rewrite decide_False; [done | tauto].
Qed.

Lemma sync_batch_collection m rs : ∀ w,
  NoDup (doc_id <$> collection m (db w)) →
  collection m (db (sync_batch m rs w))
  = mark_ids (now w) (doc_id <$> succeeded rs (faults w)) (collection m (db w)).
Proof.
  induction rs as [| r rs IH]; intros w Hnd.
  - simpl. by rewrite mark_ids_nil.
  - cbn [sync_batch foldl]. fold (sync_batch m rs (snd (sync_effect m r w))).
    rewrite IH.
    + rewrite sync_effect_now, sync_effect_faults, sync_effect_collection.
      cbn [succeeded]. destruct (faults w) as [| [] fs]; simpl.
      * rewrite decide_True by done. by apply mark_ids_cons.
      * rewrite decide_False; [done |]. intros [_ Hf]. by apply Hf.
      * rewrite decide_True by done. by apply mark_ids_cons.
    + rewrite sync_effect_collection. case_decide; [| done].
      rewrite update_by_id_ids; [done | by intros []].
Qed.

(** *** Which records of a batch succeed *)

Lemma succeeded_elem_of rs : ∀ fs r, r ∈ succeeded rs fs → r ∈ rs.
Proof.
  induction rs as [| x rs IH]; intros fs r; simpl; [done |].
  destruct fs as [| [] fs]; simpl.
  - intros [-> | Hr]%elem_of_cons; [left | right; eauto].
  - intros Hr. right. eauto.
  - intros [-> | Hr]%elem_of_cons; [left | right; eauto].
Qed.

Lemma succeeded_all rs : ∀ fs,
  Forall (λ b, b = false) (take (length rs) fs) → succeeded rs fs = rs.
Proof.
  induction rs as [| x rs IH]; intros fs Hfs; simpl; [done |].
  destruct fs as [| b fs]; simpl in *.
  - f_equal. apply IH. by destruct (length rs).
  - apply Forall_cons in Hfs as [-> Hfs]. f_equal. by apply IH.
Qed.

Lemma succeeded_count rs : ∀ fs,
  (length (succeeded rs fs)
   + length (filter (λ b, b = true) (take (length rs) fs)) = length rs)%nat.
Proof.
  induction rs as [| x rs IH]; intros fs; [done |].
  destruct fs as [| [] fs]; cbn [succeeded length take tail].
  - specialize (IH []). rewrite take_nil in IH. rewrite filter_nil in *.
    simpl in *. lia.
  - rewrite filter_cons_True by done. cbn [length]. specialize (IH fs). lia.
  - rewrite filter_cons_False by done. specialize (IH fs). lia.
Qed.

Lemma succeeded_iff rs : ∀ fs i r,
  NoDup (doc_id <$> rs) → rs !! i = Some r →
  doc_id r ∈ doc_id <$> succeeded rs fs ↔ fs !! i ≠ Some true.
Proof.
  induction rs as [| x rs IH]; intros fs i r Hnd Hi; [done |].
  rewrite fmap_cons in Hnd. apply NoDup_cons in Hnd as [Hx Hnd].
  destruct i as [| i]; simpl in Hi.
  - injection Hi as ->. destruct fs as [| [] fs]; cbn [succeeded tail].
    + rewrite fmap_cons. split; [done | intros _; apply list_elem_of_here].
    + split; [| done]. intros (y & Hy & Hin%succeeded_elem_of)%list_elem_of_fmap.
      exfalso. apply Hx. rewrite Hy. by apply list_elem_of_fmap_2.
    + rewrite fmap_cons. split; [done | intros _; apply list_elem_of_here].
  - assert (Hr : r ∈ rs) by (eapply list_elem_of_lookup_2; eauto).
    assert (Hne : doc_id r ≠ doc_id x).
    { intros Heq. apply Hx. rewrite <- Heq. by apply list_elem_of_fmap_2. }
    destruct fs as [| [] fs]; cbn [succeeded tail].
    + rewrite fmap_cons, elem_of_cons, (IH [] i r Hnd Hi).
      rewrite !lookup_nil. split; [done | intros _; right; done].
    + apply (IH fs i r Hnd Hi).
    + rewrite fmap_cons, elem_of_cons, (IH fs i r Hnd Hi). simpl.
      split; [intros [? | ?]; done | by right].
Qed.

(** *** A whole run *)

Lemma fetch_sublist m w : fetch m w `sublist_of` collection m (db w).
Proof.
  unfold fetch. etrans; [apply sublist_take | apply sublist_filter].
Qed.

Lemma fetch_NoDup m w :
  NoDup (doc_id <$> collection m (db w)) → NoDup (doc_id <$> fetch m w).
Proof.
  intros Hnd. eapply sublist_NoDup; [exact Hnd |].
  apply fmap_sublist, fetch_sublist.
Qed.

Lemma fetch_length m w : (length (fetch m w) ≤ batch_size)%nat.
Proof. unfold fetch. rewrite length_take. lia. Qed.

Lemma phase_other m m' w :
  m' ≠ m → collection m' (db (snd (phase m w))) = collection m' (db w).
Proof.
  intros Hm. unfold phase. destruct (faults w) as [| [] fs]; simpl; [| done |];
    by rewrite sync_batch_other.
Qed.

Lemma phase_pushes m w :
  ∃ rs, pushes (snd (phase m w)) = pushes w ++ ((λ r, (m, doc_id r)) <$> rs).
Proof.
  unfold phase. destruct (faults w) as [| [] fs]; simpl.
  - eexists. by rewrite sync_batch_pushes.
  - exists []. by rewrite app_nil_r.
  - eexists. by rewrite sync_batch_pushes.
Qed.

Lemma filter_tagged m m' (rs : list SessionDoc) :
  snd <$> filter (λ p : Model * ObjectId, fst p = m') ((λ r, (m, doc_id r)) <$> rs)
  = if decide (m = m') then doc_id <$> rs else [].
Proof.
  induction rs as [| r rs IH]; [by case_decide |].
  rewrite fmap_cons. destruct (decide (m = m')) as [Hm | Hm].
  - rewrite filter_cons_True by done. rewrite !fmap_cons. simpl. by rewrite IH.
  - rewrite filter_cons_False by done. by rewrite IH.
Qed.

(** The EMG half of a run whose first query succeeds. *)
Lemma sync_run_emg w :
  isSyncing w = false → head (faults w) ≠ Some true →
  NoDup (doc_id <$> emgDocs (db w)) →
  emgDocs (db (sync_run w))
  = mark_ids (now w) (doc_id <$> succeeded (fetch EMGData w) (tail (faults w)))
      (emgDocs (db w))
  ∧ pushes_since EMGData w (sync_run w) = doc_id <$> fetch EMGData w.
Proof.
  intros Hoff Hfind Hnd. unfold sync_run.
  set (w0 := set_isSyncing true w).
  set (w2 := sync_batch EMGData (fetch EMGData w0) (set_faults (tail (faults w0)) w0)).
  assert (Hphase : phase EMGData w0 = (true, w2)).
  { unfold phase, w2. change (faults w0) with (faults w).
    destruct (faults w) as [| [] fs]; [done | | done]. by destruct Hfind. }
  rewrite Hphase. cbn [isSyncing set_isSyncing db].
  change (db (set_isSyncing false (snd (phase EMSData w2))))
    with (db (snd (phase EMSData w2))).
  split.
  - change (emgDocs (db (snd (phase EMSData w2))))
      with (collection EMGData (db (snd (phase EMSData w2)))).
    rewrite phase_other by done. unfold w2.
    rewrite sync_batch_collection by done. reflexivity.
  - unfold pushes_since.
    change (pushes (set_isSyncing false (snd (phase EMSData w2))))
      with (pushes (snd (phase EMSData w2))).
    destruct (phase_pushes EMSData w2) as [rs ->]. unfold w2.
    rewrite sync_batch_pushes. change (pushes (set_faults _ w0)) with (pushes w).
    rewrite <- app_assoc, drop_app_length, filter_app, fmap_app.
    rewrite !filter_tagged. rewrite decide_True, decide_False by done.
    by rewrite app_nil_r.
Qed.

Lemma mark_ids_elem_of t ids c r :
  r ∈ c → (if decide (doc_id r ∈ ids) then mark_synced t r else r) ∈ mark_ids t ids c.
Proof.
  intros Hr. unfold mark_ids.
  apply (list_elem_of_fmap_2
           (λ d, if decide (doc_id d ∈ ids) then mark_synced t d else d) c r Hr).
Qed.

Lemma filter_unsynced_mark t ids c :
  filter unsynced (mark_ids t ids c)
  = filter (λ d, doc_id d ∉ ids) (filter unsynced c).
Proof.
  induction c as [| d c IH]; [done |].
  unfold mark_ids in *. rewrite fmap_cons.
  destruct (decide (unsynced d)) as [Hu | Hu].
  - rewrite (filter_cons_True unsynced d) by done.
    destruct (decide (doc_id d ∈ ids)) as [Hin | Hin].
    + rewrite filter_cons_False by (by destruct d).
      rewrite (filter_cons_False _ d) by (by intros ?). exact IH.
    + rewrite (filter_cons_True unsynced d) by done.
      rewrite (filter_cons_True _ d) by done. by rewrite IH.
  - rewrite (filter_cons_False unsynced d) by done.
    rewrite filter_cons_False; [exact IH |].
    case_decide; [| done]. unfold unsynced. destruct d; simpl. done.
Qed.

Lemma filter_ext_in {A} (P Q : A → Prop) `{!∀ x, Decision (P x), !∀ x, Decision (Q x)}
    (l : list A) :
  (∀ x, x ∈ l → P x ↔ Q x) → filter P l = filter Q l.
Proof.
  induction l as [| x l IH]; intros Hext; [done |].
  assert (Hx : P x ↔ Q x) by apply Hext, list_elem_of_here.
  assert (Hl : filter P l = filter Q l).
  { apply IH. intros y Hy. apply Hext. by right. }
  destruct (decide (P x)) as [HP | HP].
  - rewrite !filter_cons_True by tauto. by rewrite Hl.
  - rewrite !filter_cons_False by tauto. done.
Qed.

Lemma filter_all {A} (P : A → Prop) `{!∀ x, Decision (P x)} (l : list A) :
  (∀ x, x ∈ l → P x) → filter P l = l.
Proof.
  induction l as [| x l IH]; intros Hall; [done |].
  rewrite filter_cons_True by apply Hall, list_elem_of_here.
  f_equal. apply IH. intros y Hy. apply Hall. by right.
Qed.

Lemma filter_not_in_take (l : list SessionDoc) : ∀ n,
  NoDup (doc_id <$> l) →
  filter (λ d, doc_id d ∉ doc_id <$> take n l) l = drop n l.
Proof.
  induction l as [| x l IH]; intros n Hnd; [by destruct n |].
  rewrite fmap_cons in Hnd. apply NoDup_cons in Hnd as [Hx Hnd].
  destruct n as [| n]; cbn [take drop].
  - apply filter_all. intros y _. rewrite fmap_nil. apply not_elem_of_nil.
  - rewrite fmap_cons.
    rewrite filter_cons_False by (intros Hn; apply Hn, list_elem_of_here).
    rewrite <- (IH n Hnd). apply filter_ext_in. intros y Hy.
    rewrite not_elem_of_cons. split; [tauto |]. intros Hn. split; [| done].
    intros Heq. apply Hx. rewrite <- Heq. by apply list_elem_of_fmap_2.
Qed.

End SyncRun.

(** ** The interleaved scheduler refines [syncData] *)

Section Refinement.

Implicit Types (p : Process) (w : World) (m : Model).

Lemma run_alone_done fuel w : run_alone fuel (mkProcess w []) = mkProcess w [].
Proof. by destruct fuel. Qed.

Lemma run_alone_add a : ∀ b p, run_alone (a + b) p = run_alone b (run_alone a p).
Proof.
  induction a as [| a IH]; intros b p; [done |].
  cbn [Nat.add run_alone]. destruct (running p) eqn:Hrun; [| apply IH].
  destruct p as [w ps]. simpl in Hrun. subst ps. by rewrite run_alone_done.
Qed.

Lemma run_alone_loop m rs : ∀ w,
  run_alone (length rs) (mkProcess w [Syncing m rs])
  = mkProcess (sync_batch m rs w) [Syncing m []].
Proof.
  induction rs as [| r rs IH]; intros w; [done |].
  cbn [length run_alone running exec]. simpl lookup. cbn [resume].
  destruct m; cbn; rewrite IH, sync_record_run; reflexivity.
Qed.

Lemma run_alone_phase m w :
  run_alone (1 + length (fetch m w)) (mkProcess w [AwaitFind m])
  = if fst (phase m w)
    then mkProcess (snd (phase m w)) [Syncing m []]
    else mkProcess (set_isSyncing false (snd (phase m w))) [].
Proof.
  cbn [Nat.add run_alone running exec]. simpl lookup. cbn [resume world].
  rewrite find_unsynced_run. unfold phase.
  destruct (faults w) as [| [] fs]; cbn -[fetch sync_batch run_alone].
  - apply (run_alone_loop m (fetch m w)).
  - apply run_alone_done.
  - apply (run_alone_loop m (fetch m w)).
Qed.

(** Left alone, a triggered run ends in the world [syncData] returns,
    with no run in flight. *)
Lemma run_alone_is_syncData w :
  isSyncing w = false →
  ∃ n, ∀ k, run_alone (n + k) (trigger (mkProcess w []))
            = mkProcess (snd (syncData w)) [].
Proof.
  intros Hoff. rewrite syncData_run by done. unfold trigger, sync_run.
  cbn [world running]. rewrite Hoff. cbn [app snd].
  set (w0 := set_isSyncing true w).
  pose proof (run_alone_phase EMGData w0) as H1.
  destruct (phase EMGData w0) as [[] w1] eqn:Hp1; cbn [fst snd] in H1.
  - pose proof (run_alone_phase EMSData w1) as H2.
    set (a := (1 + length (fetch EMGData w0))%nat) in *.
    set (b := (1 + length (fetch EMSData w1))%nat) in *.
    exists (a + (1 + (b + 1)))%nat. intros k.
    replace (a + (1 + (b + 1)) + k)%nat with (a + (1 + (b + (1 + k))))%nat by lia.
    rewrite (run_alone_add a), H1.
    rewrite (run_alone_add 1).
    change (run_alone 1 (mkProcess w1 [Syncing EMGData []]))
      with (mkProcess w1 [AwaitFind EMSData]).
    rewrite (run_alone_add b), H2.
    destruct (phase EMSData w1) as [[] w2]; cbn [fst snd].
    + rewrite (run_alone_add 1).
      change (run_alone 1 (mkProcess w2 [Syncing EMSData []]))
        with (mkProcess (set_isSyncing false w2) []).
      apply run_alone_done.
    + apply run_alone_done.
  - exists (1 + length (fetch EMGData w0))%nat. intros k.
    rewrite run_alone_add, H1. apply run_alone_done.
Qed.

End Refinement.

Lemma set_faults_fields fs w :
  db (set_faults fs w) = db w ∧ now (set_faults fs w) = now w
  ∧ pushes (set_faults fs w) = pushes w ∧ faults (set_faults fs w) = fs.
Proof. by destruct w. Qed.

Lemma sync_run_ems w :
  isSyncing w = false → head (faults w) ≠ Some true →
  query_outcome EMSData w ≠ Some true →
  NoDup (doc_id <$> emsDocs (db w)) →
  emsDocs (db (sync_run w))
  = mark_ids (now w)
      (doc_id <$> succeeded (fetch EMSData w) (save_outcomes EMSData w))
      (emsDocs (db w))
  ∧ pushes_since EMSData w (sync_run w) = doc_id <$> fetch EMSData w.
Proof.
  intros Hoff Hfind Hquery Hnd. unfold sync_run.
  set (w0 := set_isSyncing true w).
  set (w1 := sync_batch EMGData (fetch EMGData w0) (set_faults (tail (faults w0)) w0)).
  assert (Hphase : phase EMGData w0 = (true, w1)).
  { unfold phase, w1. change (faults w0) with (faults w).
    destruct (faults w) as [| [] fs]; [done | | done]. by destruct Hfind. }
  rewrite Hphase.
  assert (Hf1 : faults w1 = drop (S (length (fetch EMGData w))) (faults w)).
  { unfold w1. rewrite sync_batch_faults. change (fetch EMGData w0) with (fetch EMGData w).
    change (faults (set_faults (tail (faults w0)) w0)) with (tail (faults w)).
    destruct (faults w) as [| b0 fs0]; cbn [tail]; [by rewrite !drop_nil | done]. }
  assert (Hc1 : collection EMSData (db w1) = emsDocs (db w)).
  { unfold w1. by rewrite sync_batch_other. }
  assert (Hn1 : now w1 = now w) by (unfold w1; by rewrite sync_batch_now).
  assert (Hp1 : pushes w1
                = pushes w ++ ((λ r, (EMGData, doc_id r)) <$> fetch EMGData w)).
  { unfold w1. by rewrite sync_batch_pushes. }
  assert (Hfetch : fetch EMSData w1 = fetch EMSData w).
  { unfold fetch. by rewrite Hc1. }
  set (w2 := sync_batch EMSData (fetch EMSData w) (set_faults (tail (faults w1)) w1)).
  assert (Hphase2 : snd (phase EMSData w1) = w2).
  { unfold phase, w2. rewrite Hfetch.
    assert (Hhead : head (faults w1) ≠ Some true).
    { rewrite Hf1, head_lookup, lookup_drop, Nat.add_0_r. exact Hquery. }
    destruct (faults w1) as [| [] fs1]; [done | | done]. by destruct Hhead. }
  destruct (set_faults_fields (tail (faults w1)) w1)
    as (Hdb & Hnow & Hpushes & Hfaults).
  cbn [isSyncing set_isSyncing db pushes]. rewrite Hphase2. unfold pushes_since.
  change (db (set_isSyncing false w2)) with (db w2).
  change (pushes (set_isSyncing false w2)) with (pushes w2).
  split.
  - change (emsDocs (db w2)) with (collection EMSData (db w2)). unfold w2.
    rewrite sync_batch_collection by (rewrite Hdb, Hc1; exact Hnd).
    rewrite Hdb, Hnow, Hfaults, Hc1, Hn1. do 3 f_equal.
    rewrite Hf1. unfold save_outcomes.
    destruct (drop (S (length (fetch EMGData w))) (faults w)) as [| b fs1] eqn:Hdrop;
      cbn [tail].
    + symmetry. apply drop_ge. apply drop_nil_inv in Hdrop. lia.
    + replace (length (fetch EMGData w) + 2)%nat
        with (S (length (fetch EMGData w)) + 1)%nat by lia.
      by rewrite <- drop_drop, Hdrop.
  - unfold w2.
    rewrite sync_batch_pushes, Hpushes, Hp1, <- app_assoc, drop_app_length.
    rewrite filter_app, fmap_app, !filter_tagged.
    rewrite decide_False, decide_True by done. done.
Qed.

Lemma sync_run_model m w :
  isSyncing w = false → head (faults w) ≠ Some true →
  query_outcome m w ≠ Some true →
  NoDup (doc_id <$> collection m (db w)) →
  collection m (db (sync_run w))
  = mark_ids (now w) (doc_id <$> succeeded (fetch m w) (save_outcomes m w))
      (collection m (db w))
  ∧ pushes_since m w (sync_run w) = doc_id <$> fetch m w.
Proof.
  destruct m; intros Hoff Hfind Hquery Hnd.
  - by apply sync_run_emg.
  - by apply sync_run_ems.
Qed.

(** C6.  In a sync run, for the EMG batch and for the EMS batch alike:
    when the queries up to the batch succeed, every record of the batch
    is pushed exactly once, in order, whatever the outcome of the
    earlier ones (no abort, no retry); a record whose save rejects is
    left as it was, with synced = false, and every other record of the
    batch is stored with synced = true and syncedAt = the clock.  The
    number of records marked is the batch size minus the number of
    failures: 9 for a batch of 10 with one failure. *)
Theorem failed_push_is_isolated (m : Model) (w : World) :
  isSyncing w = false →
  head (faults w) ≠ Some true →
  query_outcome m w ≠ Some true →
  ids_wf m w →
  let pending := fetch m w in
  let outcome := save_outcomes m w in
  let w' := snd (syncData w) in
  pushes_since m w w' = doc_id <$> pending
  ∧ NoDup (doc_id <$> pending)
  ∧ NoDup (doc_id <$> collection m (db w'))
  ∧ (∀ i r, pending !! i = Some r →
       (outcome !! i = Some true →
        r ∈ collection m (db w') ∧ synced (doc_syncStatus r) = false)
       ∧ (outcome !! i ≠ Some true →
          mark_synced (now w) r ∈ collection m (db w')))
  ∧ collection m (db w')
    = mark_ids (now w) (doc_id <$> succeeded pending outcome) (collection m (db w))
  ∧ (length (succeeded pending outcome)
     + length (filter (λ b, b = true) (take (length pending) outcome))
     = length pending)%nat
  ∧ (length pending = 10%nat →
     length (filter (λ b, b = true) (take 10 outcome)) = 1%nat →
     length (succeeded pending outcome) = 9%nat).
Proof.
  intros Hoff Hfind Hquery [Hnd _] pending outcome w'.
  assert (Hw' : w' = sync_run w) by (unfold w'; by rewrite syncData_run).
  destruct (sync_run_model m w Hoff Hfind Hquery Hnd) as [Hdocs Hpushes].
  fold pending outcome in Hdocs. rewrite <- Hw' in Hdocs, Hpushes.
  assert (Hpnd : NoDup (doc_id <$> pending)) by by apply (fetch_NoDup m).
  pose proof (succeeded_count pending outcome) as Hcount.
  split; [exact Hpushes |]. split; [exact Hpnd |].
  split; [by rewrite Hdocs, mark_ids_ids |].
  split; [| split; [exact Hdocs | split; [exact Hcount |]]].
  - intros i r Hi.
    assert (Hr : r ∈ pending) by (eapply list_elem_of_lookup_2; eauto).
    assert (Hin : r ∈ filter unsynced (collection m (db w))).
    { eapply subseteq_take. exact Hr. }
    apply list_elem_of_filter in Hin as [Hun Hin].
    pose proof (mark_ids_elem_of (now w) (doc_id <$> succeeded pending outcome)
                  _ r Hin) as Hfinal.
    rewrite <- Hdocs in Hfinal.
    pose proof (succeeded_iff pending outcome i r Hpnd Hi) as Hiff.
    split.
    + intros Hfail. rewrite decide_False in Hfinal by (rewrite Hiff; auto).
      done.
    + intros Hok. by rewrite decide_True in Hfinal by (by rewrite Hiff).
  - intros Hten Hone. rewrite Hten in Hcount. lia.
Qed.

Lemma failed_push_is_isolated_witness :
  (pushes_since EMGData two_batches (snd (syncData two_batches))
   = doc_id <$> fetch EMGData two_batches
   ∧ length (succeeded (fetch EMGData two_batches)
               (save_outcomes EMGData two_batches)) = 9%nat)
  ∧ (pushes_since EMSData two_batches (snd (syncData two_batches))
     = doc_id <$> fetch EMSData two_batches
     ∧ unsynced_doc 11 ∈ collection EMSData (db (snd (syncData two_batches)))
     ∧ mark_synced (now two_batches) (unsynced_doc 12)
       ∈ collection EMSData (db (snd (syncData two_batches)))).
Proof.
  split.
  - destruct (failed_push_is_isolated EMGData two_batches)
      as (Hpushed & _ & _ & _ & _ & _ & Hnine).
    + reflexivity.
    + vm_compute. discriminate.
    + vm_compute. discriminate.
    + apply (bool_decide_unpack _). vm_compute. exact I.
    + split; [exact Hpushed |]. apply Hnine; vm_compute; reflexivity.
  - destruct (failed_push_is_isolated EMSData two_batches)
      as (Hpushed & _ & _ & Heach & _).
    + reflexivity.
    + vm_compute. discriminate.
    + vm_compute. discriminate.
    + apply (bool_decide_unpack _). vm_compute. exact I.
    + split; [exact Hpushed |]. split.
      * destruct (Heach 1%nat (unsynced_doc 11)) as [Hfail _];
          [vm_compute; reflexivity |].
        destruct Hfail as [Hin _]; [vm_compute; reflexivity |]. exact Hin.
      * destruct (Heach 2%nat (unsynced_doc 12)) as [_ Hok];
          [vm_compute; reflexivity |].
        apply Hok. vm_compute. discriminate.
Defined.

(** The scenario of C6, evaluated: ten unsynced records, the save of the
    fourth rejects. *)
Example batch_of_ten_one_failure :
  let w' := snd (syncData (world_with 10 one_failure)) in
  synced_flags w'
  = [true; true; true; false; true; true; true; true; true; true]
  ∧ pushes w' = (λ i, (EMGData, i)) <$> seq 0 10
  ∧ isSyncing w' = false.
Proof. vm_compute. done. Qed.

(** C8.  A query for unsynced records returns at most the batch size
    (100) of them.  In a run whose query for EMG records succeeds, the
    records pushed are the first 100 unsynced ones; the others are
    neither pushed nor changed, and when no save rejects they are
    exactly what the next run fetches.  With 150 unsynced EMG records,
    100 are attempted and 50 are left. *)
Theorem sync_fetch_is_bounded (w : World) :
  batch_size = 100%nat
  ∧ (∀ m n w0, match fst (find_unsynced m n w0) with
               | Normal rs => (length rs ≤ n)%nat
               | Throw _ => True
               end)
  ∧ (isSyncing w = false →
     head (faults w) ≠ Some true →
     ids_wf EMGData w →
     let unsynced_before := filter unsynced (emgDocs (db w)) in
     let w' := snd (syncData w) in
     pushes_since EMGData w w' = doc_id <$> take 100 unsynced_before
     ∧ (∀ r, r ∈ drop 100 unsynced_before →
             r ∈ emgDocs (db w') ∧ unsynced r
             ∧ doc_id r ∉ pushes_since EMGData w w')
     ∧ (Forall (λ b, b = false) (take 100 (tail (faults w))) →
        filter unsynced (emgDocs (db w')) = drop 100 unsynced_before
        ∧ fetch EMGData w' = take 100 (drop 100 unsynced_before))
     ∧ (length unsynced_before = 150%nat →
        length (pushes_since EMGData w w') = 100%nat
        ∧ length (drop 100 unsynced_before) = 50%nat)).
Proof.
  split; [reflexivity |]. split.
  { intros m n w0. unfold find_unsynced, storage_call, gets, mbind, M_bind, mret, M_ret.
    destruct (faults w0) as [| [] fs]; simpl; try done; rewrite length_take; lia. }
  intros Hoff Hfind [Hnd _] unsynced_before w'.
  change (collection EMGData (db w)) with (emgDocs (db w)) in Hnd.
  assert (Hw' : w' = sync_run w) by (unfold w'; by rewrite syncData_run).
  destruct (sync_run_emg w Hoff Hfind Hnd) as [Hdocs Hpushes].
  rewrite <- Hw' in Hdocs, Hpushes.
  change (fetch EMGData w) with (take 100 unsynced_before) in Hdocs, Hpushes.
  assert (Hall : NoDup (doc_id <$> unsynced_before)).
  { eapply sublist_NoDup; [exact Hnd |]. apply fmap_sublist, sublist_filter. }
  split; [exact Hpushes |]. split; [| split].
  - intros r Hr.
    assert (Hin : r ∈ unsynced_before).
    { eapply subseteq_drop. exact Hr. }
    apply list_elem_of_filter in Hin as [Hun Hin].
    assert (Hnew : doc_id r ∉ doc_id <$> take 100 unsynced_before).
    { rewrite <- (take_drop 100 unsynced_before), fmap_app in Hall.
      apply NoDup_app in Hall as (_ & Hdisj & _).
      intros Hbad. apply (Hdisj _ Hbad). by apply list_elem_of_fmap_2. }
    split; [| split; [exact Hun | by rewrite Hpushes]].
    pose proof (mark_ids_elem_of (now w)
                  (doc_id <$> succeeded (take 100 unsynced_before) (tail (faults w)))
                  _ r Hin) as Hfinal.
    rewrite <- Hdocs in Hfinal. rewrite decide_False in Hfinal; [done |].
    intros (y & Hy & Hin'%succeeded_elem_of)%list_elem_of_fmap.
    apply Hnew. rewrite Hy. by apply list_elem_of_fmap_2.
  - intros Hok.
    assert (Hrest : filter unsynced (emgDocs (db w')) = drop 100 unsynced_before).
    { rewrite Hdocs, succeeded_all.
      - rewrite filter_unsynced_mark. by apply filter_not_in_take.
      - assert (Hle : (length (take 100 unsynced_before) ≤ 100)%nat)
          by (rewrite length_take; lia).
        replace (take (length (take 100 unsynced_before)) (tail (faults w)))
          with (take (length (take 100 unsynced_before)) (take 100 (tail (faults w))))
          by (rewrite take_take; f_equal; lia).
        by apply Forall_take. }
    split; [exact Hrest |]. unfold fetch.
    change (collection EMGData (db w')) with (emgDocs (db w')). by rewrite Hrest.
  - intros H150. split.
    + rewrite Hpushes, length_fmap, length_take. lia.
    + rewrite length_drop. lia.
Qed.

Lemma sync_fetch_is_bounded_witness :
  let w := world_with 150 [] in
  let w' := snd (syncData w) in
  length (pushes_since EMGData w w') = 100%nat
  ∧ length (drop 100 (filter unsynced (emgDocs (db w)))) = 50%nat
  ∧ filter unsynced (emgDocs (db w')) = drop 100 (filter unsynced (emgDocs (db w)))
  ∧ fetch EMGData w' = take 100 (drop 100 (filter unsynced (emgDocs (db w)))).
Proof.
  intros w w'.
  destruct (sync_fetch_is_bounded w) as (_ & _ & Hrun).
  assert (Hwf : ids_wf EMGData w).
  { apply (bool_decide_unpack _). vm_compute. exact I. }
  assert (Hfind : head (faults w) ≠ Some true) by (simpl; discriminate).
  destruct (Hrun eq_refl Hfind Hwf) as (_ & _ & Hnext & Hcount).
  assert (Hok : Forall (λ b, b = false) (take 100 (tail (faults w))))
    by (simpl; constructor).
  assert (H150 : length (filter unsynced (emgDocs (db w))) = 150%nat)
    by (vm_compute; reflexivity).
  destruct (Hnext Hok) as [Hrest Hfetch].
  destruct (Hcount H150) as [Hpushed Hleft].
  repeat split; assumption.
Defined.

(** ** The sync status never goes back *)

Section SyncStatus.

Implicit Types (p : Process) (w : World) (m : Model).








End SyncStatus.



(** The same scenario, evaluated: the first record was synced from the
    start and stays so while the two events append their five samples
    to it; the second is synced by the forced sync. *)
Example busy_day_flags :
  synced_flags (world mixed_process) = [true; false]
  ∧ synced_flags (world (exec_all mixed_process (take 4 busy_day)))
    = [true; false]
  ∧ synced_flags (world (exec_all mixed_process (take 5 busy_day)))
    = [true; true]
  ∧ length (doc_dataPoints synced_doc) = 1%nat
  ∧ (λ d, length (doc_dataPoints d))
      <$> emgDocs (db (world (exec_all mixed_process busy_day)))
    = [6%nat; 0%nat].
Proof. vm_compute. done. Qed.

(** * Further properties *)

(** ** Session aggregator *)

Section AggregatorMore.

Implicit Types (w : World) (a : Arrival) (c : list SessionDoc) (via : Transport).

Lemma deliver_rejected via w a :
  ¬ fault_free a →
  emgDocs (db (deliver via w a)) = emgDocs (db w)
  ∧ emsDocs (db (deliver via w a)) = emsDocs (db w)
  ∧ nextId (db (deliver via w a)) = nextId (db w).
Proof.
  intros Hno. destruct a as [t fs dev data]. simpl in *.
  unfold fault_free in Hno. simpl in Hno.
  run_handler. cbn.
  destruct via; repeat case_decide; split_faults fs;
    try (exfalso; apply Hno; repeat constructor; fail);
    repeat (destruct (list_find _ _) as [[i ex]|]; cbn); done.
Qed.

Lemma deliver_first_call_rejected via w a fs :
  arr_faults a = true :: fs → db (deliver via w a) = db w.
Proof.
  intros Hfs. destruct a as [t fs0 dev data]. simpl in *. subst fs0.
  run_handler. cbn. destruct via; repeat case_decide; done.
Qed.

End AggregatorMore.

(** X1.  A delivery one of whose storage calls rejects is dropped: the
    handler completes normally, no session record is created or
    changed in either collection and no identifier is used; when the
    first call (the save of the device) is the one that rejects, the
    whole database is as before. *)
Theorem rejected_storage_drops_event (via : Transport) (w : World) (a : Arrival) :
  fst (handle via (arr_device a) (arr_data a)
         (set_faults (arr_faults a) (set_now (arr_now a) w))) = Normal ()
  ∧ (¬ fault_free a →
     emgDocs (db (deliver via w a)) = emgDocs (db w)
     ∧ emsDocs (db (deliver via w a)) = emsDocs (db w)
     ∧ nextId (db (deliver via w a)) = nextId (db w))
  ∧ (head (arr_faults a) = Some true → db (deliver via w a) = db w).
Proof.
  split; [| split].
  - destruct (handle_never_throws via (arr_device a) (arr_data a)
                (set_faults (arr_faults a) (set_now (arr_now a) w))) as [[] H].
    exact H.
  - apply deliver_rejected.
  - intros Hhead. destruct (arr_faults a) as [| [] fs] eqn:Hfs; try discriminate.
    by eapply deliver_first_call_rejected.
Qed.

Lemma rejected_storage_drops_event_witness :
  ¬ fault_free event_A_rejected
  ∧ emgDocs (db (deliver PubSub empty_world event_A_rejected)) = []
  ∧ lastConnected <$> devices (db (deliver PubSub empty_world event_A_rejected))
    = [Some 60]
  ∧ head (arr_faults event_A_unsaved) = Some true
  ∧ db (deliver Wireless empty_world event_A_unsaved) = db empty_world.
Proof.
  assert (Hno : ¬ fault_free event_A_rejected).
  { intros H. unfold fault_free in H. simpl in H.
    apply Forall_cons in H as [_ H]. apply Forall_cons in H as [H _]. discriminate. }
  split; [exact Hno |]. split; [| split; [reflexivity | split; [reflexivity |]]].
  - destruct (rejected_storage_drops_event PubSub empty_world event_A_rejected)
      as (_ & Hdrop & _).
    destruct (Hdrop Hno) as (-> & _). reflexivity.
  - destruct (rejected_storage_drops_event Wireless empty_world event_A_unsaved)
      as (_ & _ & Hfirst).
    apply Hfirst. reflexivity.
Defined.

(** ** EMS sessions *)

Section EmsSessions.

Implicit Types (w : World) (a : Arrival) (l : list Arrival) (via : Transport).

Lemma deliver_ems_ok via w a :
  type (arr_data a) = "ems" → fault_free a →
  (emsDocs (db (deliver via w a)), nextId (db (deliver via w a)))
  = ems_step (arr_device a) (arr_data a) (arr_now a) (db w).
Proof.
  intros Hty Hff. destruct a as [t fs dev data]. simpl in *.
  unfold fault_free in Hff. simpl in Hff.
  run_handler. unfold ems_step. cbn. rewrite Hty.
  rewrite !(decide_False (P := "ems" = "emg")) by discriminate.
  rewrite !decide_True by done.
  destruct via; split_faults fs;
    destruct (list_find _ _) as [[i ex]|]; cbn; reflexivity.
Qed.

Lemma deliver_ems_skip via w a :
  ¬ (type (arr_data a) = "ems" ∧ fault_free a) →
  emsDocs (db (deliver via w a)) = emsDocs (db w)
  ∧ (nextId (db w) ≤ nextId (db (deliver via w a)))%nat.
Proof.
  intros Hno. destruct a as [t fs dev data]. simpl in *.
  unfold fault_free in Hno. simpl in Hno.
  run_handler. cbn.
  destruct (decide (type data = "emg")) as [Hty | Hty].
  - destruct via; split_faults fs;
      repeat (destruct (list_find _ _) as [[i ex]|]; cbn);
      split; (reflexivity || lia).
  - destruct (decide (type data = "ems")) as [Hty' | Hty'].
    + assert (Hff : ¬ Forall (λ b, b = false) (take 3 fs)) by tauto. clear Hno.
      destruct via; split_faults fs;
        try (exfalso; apply Hff; repeat constructor; fail);
        repeat (destruct (list_find _ _) as [[i ex]|]; cbn);
        split; (reflexivity || lia).
    + destruct via; split_faults fs; split; (reflexivity || lia).
Qed.

Lemma deliver_ems_wf via w a : ids_wf EMSData w → ids_wf EMSData (deliver via w a).
Proof.
  intros [Hnd Hlt]. unfold ids_wf in *. simpl in *.
  destruct (decide (type (arr_data a) = "ems" ∧ fault_free a)) as [[Hty Hff] | Hno].
  - pose proof (deliver_ems_ok via w a Hty Hff) as Hstep.
    unfold ems_step in Hstep.
    destruct (list_find _ _) as [[i ex] |]; injection Hstep as -> ->.
    + rewrite update_by_id_ids by (by intros []). split; [done |].
      apply ids_below_fmap. rewrite update_by_id_ids by (by intros []).
      by apply ids_below_fmap.
    + rewrite fmap_app. simpl. split.
      * apply NoDup_app. split; [done |]. split; [| apply NoDup_singleton].
        intros x (d & Hx & Hd)%list_elem_of_fmap Hx'%list_elem_of_singleton.
        rewrite Forall_forall in Hlt. specialize (Hlt d Hd). simpl in Hlt. lia.
      * apply Forall_app. split.
        -- eapply Forall_impl; [exact Hlt |]. simpl. intros; lia.
        -- constructor; [simpl; lia | constructor].
  - destruct (deliver_ems_skip via w a Hno) as [-> Hle]. split; [done |].
    eapply Forall_impl; [exact Hlt |]. simpl. intros; lia.
Qed.

Lemma deliver_ems_other via dev sid w a :
  ids_wf EMSData w → ¬ ems_event_of dev sid a →
  ems_sessions_for dev sid (deliver via w a) = ems_sessions_for dev sid w.
Proof.
  intros [Hnd Hlt] Hother. unfold ems_sessions_for. simpl in *.
  destruct (decide (type (arr_data a) = "ems" ∧ fault_free a)) as [[Hty Hff] | Hno].
  - pose proof (deliver_ems_ok via w a Hty Hff) as Hstep.
    unfold ems_step in Hstep.
    destruct (list_find _ _) as [[i ex] |] eqn:Hfind; injection Hstep as -> _.
    + rewrite filter_update_by_id by (done || intros; apply push_each_filter).
      apply update_by_id_absent.
      apply list_find_Some in Hfind as (Hix & [Hsid Hdev] & _).
      intros (x & Hx & [HPx Hin]%list_elem_of_filter)%list_elem_of_fmap.
      assert (x = ex) as ->.
      { eapply same_id_same_doc; eauto. eapply list_elem_of_lookup_2; eauto. }
      destruct HPx as [Hsid' Hdev']. apply Hother. unfold ems_event_of.
      split; [done |]. split; congruence.
    + rewrite filter_app. rewrite (filter_cons_False _ (new_ems_session _ _ _ _)).
      * by rewrite filter_nil, app_nil_r.
      * intros [Hsid Hdev]. simpl in *. apply Hother. by unfold ems_event_of.
  - by destruct (deliver_ems_skip via w a Hno) as [-> _].
Qed.

Lemma deliver_ems_create via dev sid w a :
  ems_sessions_for dev sid w = [] → ems_event_of dev sid a → fault_free a →
  ems_sessions_for dev sid (deliver via w a)
  = [new_ems_session (arr_device a) (arr_data a) (nextId (db w)) (arr_now a)].
Proof.
  intros Hnone (Hty & Hsid & Hdev) Hff. unfold ems_sessions_for in *.
  pose proof (deliver_ems_ok via w a Hty Hff) as Hstep. unfold ems_step in Hstep.
  rewrite Hsid, Hdev, (list_find_filter_nil _ _ _ Hnone) in Hstep.
  injection Hstep as -> _.
  rewrite filter_app, Hnone, filter_cons_True; [done |].
  by split.
Qed.

Lemma deliver_ems_append via dev sid w a r :
  ids_wf EMSData w →
  ems_sessions_for dev sid w = [r] → ems_event_of dev sid a → fault_free a →
  ems_sessions_for dev sid (deliver via w a) = [append_response r a].
Proof.
  intros [Hnd _] Hone (Hty & Hsid & Hdev) Hff. unfold ems_sessions_for in *.
  pose proof (deliver_ems_ok via w a Hty Hff) as Hstep. unfold ems_step in Hstep.
  destruct (list_find_filter_one _ _ _ _ Hone) as [i Hfind].
  rewrite Hsid, Hdev, Hfind in Hstep. injection Hstep as -> _.
  rewrite filter_update_by_id by (done || intros; apply push_each_filter).
  rewrite Hone. simpl. by rewrite decide_True.
Qed.

Lemma append_response_points r l :
  doc_dataPoints (foldl append_response r l)
  = doc_dataPoints r ++ concat (responses <$> l).
Proof.
  revert r. induction l as [| a l IH]; intros r; simpl.
  - by rewrite app_nil_r.
  - rewrite IH. simpl. by rewrite <- app_assoc.
Qed.

Lemma append_response_keeps l : ∀ r,
  doc_stimulationParameters (foldl append_response r l) = doc_stimulationParameters r
  ∧ doc_stimulationPattern (foldl append_response r l) = doc_stimulationPattern r
  ∧ doc_startTime (foldl append_response r l) = doc_startTime r
  ∧ doc_syncStatus (foldl append_response r l) = doc_syncStatus r.
Proof.
  induction l as [| b l IH]; intros r; [done |]. simpl.
  destruct (IH (append_response r b)) as (-> & -> & -> & ->). done.
Qed.

Lemma deliver_all_ems_grow via dev sid l : ∀ w r,
  ids_wf EMSData w →
  ems_sessions_for dev sid w = [r] →
  Forall (λ a, ems_event_of dev sid a → fault_free a) l →
  ems_sessions_for dev sid (deliver_all via w l)
  = [foldl append_response r (filter (ems_event_of dev sid) l)].
Proof.
  induction l as [| a l IH]; intros w r Hwf Hone Hff; [done |].
  apply Forall_cons in Hff as [Ha Hff]. simpl.
  destruct (decide (ems_event_of dev sid a)) as [Hev | Hev].
  - rewrite filter_cons_True by done. simpl.
    apply IH; [by apply deliver_ems_wf | | done].
    by apply deliver_ems_append; auto.
  - rewrite filter_cons_False by done.
    apply IH; [by apply deliver_ems_wf | | done].
    by rewrite deliver_ems_other.
Qed.

Lemma deliver_all_ems_first via dev sid l : ∀ w first rest,
  ids_wf EMSData w →
  ems_sessions_for dev sid w = [] →
  Forall (λ a, ems_event_of dev sid a → fault_free a) l →
  filter (ems_event_of dev sid) l = first :: rest →
  ∃ id,
    ems_sessions_for dev sid (deliver_all via w l)
    = [foldl append_response
         (new_ems_session (arr_device first) (arr_data first) id (arr_now first))
         rest].
Proof.
  induction l as [| a l IH]; intros w first rest Hwf Hnone Hff Hmine; [done |].
  apply Forall_cons in Hff as [Ha Hff]. simpl.
  destruct (decide (ems_event_of dev sid a)) as [Hev | Hev].
  - rewrite filter_cons_True in Hmine by done. injection Hmine as -> <-.
    exists (nextId (db w)).
    apply deliver_all_ems_grow; [by apply deliver_ems_wf | | done].
    by apply deliver_ems_create; auto.
  - rewrite filter_cons_False in Hmine by done.
    apply IH; [by apply deliver_ems_wf | | done | done].
    by rewrite deliver_ems_other.
Qed.

End EmsSessions.

(** X2.  EMS events handled one after the other, each call of the
    handler completing before the next delivery begins, are aggregated
    like EMG events, in their own collection: if a (device, session)
    pair has no EMS record at the start and the storage calls of its
    EMS events succeed, then after any sequence of deliveries containing
    at least one EMS event of the pair there is exactly one EMS record
    of the pair; it carries the stimulation pattern of the first event
    and, of its stimulation parameters, the frequency and the pulse
    width (the schema has no intensity, which is dropped; the
    parameters of later events are ignored), and its response data are
    the response data of the events in arrival order, an event without
    [responseData] contributing nothing. *)
Theorem one_ems_record_per_session (via : Transport) (dev : ObjectId) (sid : string)
    (w : World) (l : list Arrival) (first : Arrival) (rest : list Arrival) :
  ids_wf EMSData w →
  ems_sessions_for dev sid w = [] →
  Forall (λ a, ems_event_of dev sid a → fault_free a) l →
  filter (ems_event_of dev sid) l = first :: rest →
  ∃ r,
    ems_sessions_for dev sid (deliver_all via w l) = [r]
    ∧ doc_dataPoints r = concat (responses <$> first :: rest)
    ∧ doc_stimulationParameters r
      = schema_stimulation <$> stimulationParameters (arr_data first)
    ∧ doc_stimulationPattern r = stimulationPattern (arr_data first)
    ∧ doc_startTime r = arr_now first
    ∧ synced (doc_syncStatus r) = false.
Proof.
  intros Hwf Hnone Hff Hmine.
  destruct (deliver_all_ems_first via dev sid l w first rest Hwf Hnone Hff Hmine)
    as [id Hfinal].
  eexists. split; [exact Hfinal |].
  split; [by rewrite append_response_points |].
  destruct (append_response_keeps rest
              (new_ems_session (arr_device first) (arr_data first) id
                 (arr_now first))) as (-> & -> & -> & ->).
  done.
Qed.

Lemma one_ems_record_per_session_witness :
  ∃ r,
    ems_sessions_for 1%nat "S1" (deliver_all PubSub empty_world [ems_A; event_A; ems_B])
    = [r]
    ∧ doc_dataPoints r = concat (responses <$> [ems_A; ems_B])
    ∧ doc_stimulationParameters r = Some (mkStim None (Some 50) (Some 300))
    ∧ doc_stimulationPattern r = stimulationPattern (arr_data ems_A)
    ∧ doc_startTime r = arr_now ems_A
    ∧ synced (doc_syncStatus r) = false.
Proof.
  apply (one_ems_record_per_session PubSub 1%nat "S1" empty_world
           [ems_A; event_A; ems_B] ems_A [ems_B]).
  - vm_compute. split; repeat constructor.
  - reflexivity.
  - repeat constructor; intros _; vm_compute; constructor.
  - reflexivity.
Defined.

(** X3.  An event whose type is neither "emg" nor "ems" creates and
    changes no session record.  The Bluetooth dispatch makes no storage
    call for it; the MQTT handler has already saved the device's
    lastConnected when it looks at the type. *)
Theorem unknown_kind_is_ignored (w : World) (a : Arrival) :
  type (arr_data a) ≠ "emg" → type (arr_data a) ≠ "ems" →
  (∀ via, emgDocs (db (deliver via w a)) = emgDocs (db w)
          ∧ emsDocs (db (deliver via w a)) = emsDocs (db w)
          ∧ nextId (db (deliver via w a)) = nextId (db w))
  ∧ db (deliver Wireless w a) = db w
  ∧ faults (deliver Wireless w a) = arr_faults a
  ∧ devices (db (deliver PubSub w a))
    = (if decide (head (arr_faults a) = Some true) then devices (db w)
       else update_device (dev_id (arr_device a))
              (set_lastConnected (Some (arr_now a))) (devices (db w)))
  ∧ faults (deliver PubSub w a) = tail (arr_faults a).
Proof.
  intros Hemg Hems. destruct a as [t fs dev data]. simpl in *.
  run_handler. cbn. rewrite !decide_False by done.
  split; [intros []; destruct fs as [| [] fs]; done |].
  split; [done |]. split; [done |].
  destruct fs as [| [] fs]; done.
Qed.

Lemma unknown_kind_is_ignored_witness :
  db (deliver Wireless empty_world event_unknown) = db empty_world
  ∧ lastConnected <$> devices (db (deliver PubSub empty_world event_unknown))
    = [Some 70]
  ∧ emgDocs (db (deliver PubSub empty_world event_unknown)) = [].
Proof.
  destruct (unknown_kind_is_ignored empty_world event_unknown)
    as (Hsessions & Hwireless & _ & Hdevices & _);
    [simpl; discriminate | simpl; discriminate |].
  split; [exact Hwireless |]. split; [by rewrite Hdevices |].
  by destruct (Hsessions PubSub) as (-> & _).
Defined.

(** X4.  Appending to a record that is already synced leaves it marked
    synced: the record then holds samples that were never pushed, and a
    later sync run neither fetches nor pushes it. *)
Theorem append_to_synced_record_is_not_resynced (via : Transport) (dev : ObjectId)
    (sid : string) (w : World) (a : Arrival) (r : SessionDoc) (fs : list bool) :
  ids_wf EMGData w →
  sessions_for dev sid w = [r] →
  synced (doc_syncStatus r) = true →
  emg_event_of dev sid a → fault_free a →
  isSyncing w = false → head fs ≠ Some true →
  let w1 := set_faults fs (deliver via w a) in
  sessions_for dev sid w1 = [append_event r a]
  ∧ doc_dataPoints (append_event r a) = doc_dataPoints r ++ samples a
  ∧ synced (doc_syncStatus (append_event r a)) = true
  ∧ (append_event r a ∉ fetch EMGData w1)
  ∧ (doc_id r ∉ pushes_since EMGData w1 (snd (syncData w1)))
  ∧ append_event r a ∈ emgDocs (db (snd (syncData w1))).
Proof.
  intros Hwf Hone Hs Hev Hff Hoff Hfind w1.
  pose proof (deliver_append via dev sid w a r Hwf Hone Hev Hff) as Happ.
  pose proof (deliver_wf via w a Hwf) as [Hnd _].
  assert (Hin : append_event r a ∈ emgDocs (db w1)).
  { assert (H : append_event r a ∈ sessions_for dev sid (deliver via w a))
      by (rewrite Happ; apply list_elem_of_here).
    by apply list_elem_of_filter in H as [_ H]. }
  assert (Hnf : ∀ x, x ∈ fetch EMGData w1 → doc_id x ≠ doc_id r).
  { intros x Hx Hid.
    assert (Hx' : x ∈ filter unsynced (emgDocs (db w1))) by (eapply subseteq_take; eauto).
    apply list_elem_of_filter in Hx' as [Hun Hx'].
    assert (x = append_event r a) as ->.
    { eapply same_id_same_doc; eauto. }
    unfold unsynced in Hun. destruct r; simpl in *. congruence. }
  split; [exact Happ |]. split; [by destruct r |]. split; [by destruct r |].
  split; [intros Hbad; by apply (Hnf _ Hbad); destruct r |].
  assert (Hoff1 : isSyncing w1 = false) by (unfold w1; simpl; by rewrite deliver_same_flag).
  rewrite syncData_run by done. cbn [snd].
  destruct (sync_run_emg w1 Hoff1 Hfind Hnd) as [Hdocs Hpushes].
  split.
  - rewrite Hpushes. intros (x & Hid & Hx)%list_elem_of_fmap.
    by apply (Hnf x Hx).
  - rewrite Hdocs.
    pose proof (mark_ids_elem_of (now w1)
                  (doc_id <$> succeeded (fetch EMGData w1) (tail (faults w1)))
                  _ _ Hin) as Hfinal.
    rewrite decide_False in Hfinal; [done |].
    intros (x & Hid & Hx%succeeded_elem_of)%list_elem_of_fmap.
    apply (Hnf x Hx). rewrite <- Hid. by destruct r.
Qed.

Lemma append_to_synced_record_is_not_resynced_witness :
  let w1 := set_faults [] (deliver PubSub synced_world event_B) in
  sessions_for 1%nat "S1" w1 = [append_event synced_doc event_B]
  ∧ doc_dataPoints (append_event synced_doc event_B)
    = doc_dataPoints synced_doc ++ samples event_B
  ∧ synced (doc_syncStatus (append_event synced_doc event_B)) = true
  ∧ (append_event synced_doc event_B ∉ fetch EMGData w1)
  ∧ (doc_id synced_doc ∉ pushes_since EMGData w1 (snd (syncData w1)))
  ∧ append_event synced_doc event_B ∈ emgDocs (db (snd (syncData w1))).
Proof.
  apply (append_to_synced_record_is_not_resynced PubSub 1%nat "S1" synced_world
           event_B synced_doc []).
  - apply (bool_decide_unpack _). vm_compute. exact I.
  - reflexivity.
  - reflexivity.
  - vm_compute. auto.
  - vm_compute. constructor.
  - reflexivity.
  - simpl. discriminate.
Defined.

(** X5.  The find-or-create is not atomic.  [upsert_emg] is a lookup
    followed, after an [await], by a write that trusts its result; when
    the lookups of two events of a new session both precede the writes,
    both events create a record and the pair ends with two records. *)
Theorem interleaved_lookups_duplicate_session (w : World)
    (deviceA deviceB : Device) (dataA dataB : DeviceData) :
  faults w = [] →
  sessionId dataB = sessionId dataA →
  dev_id deviceB = dev_id deviceA →
  sessions_for (dev_id deviceA) (sessionId dataA) w = [] →
  (∀ device data, upsert_emg device data
                  = lookup_emg device data ≫= write_emg device data)
  ∧ sessions_for (dev_id deviceA) (sessionId dataA)
      (snd (interleaved_upserts deviceA dataA deviceB dataB w))
    = [new_emg_session deviceA dataA (nextId (db w)) (now w);
       new_emg_session deviceB dataB (S (nextId (db w))) (now w)].
Proof.
  intros Hfs HsidB HdevB Hnone. split; [reflexivity |].
  unfold sessions_for in *.
  pose proof (list_find_filter_nil _ _ _ Hnone) as Hfind.
  unfold interleaved_upserts, lookup_emg, write_emg, findOne, create, storage_call,
    new_Date_now, gets, modify, mbind, M_bind, mret, M_ret.
  destruct w as [d t fs flag ps]. simpl in *. subst fs. cbn.
  rewrite HsidB, HdevB, Hfind. cbn.
  rewrite <- app_assoc, filter_app, Hnone. cbn [app].
  rewrite !filter_cons_True; [done | |]; split; simpl; congruence.
Qed.

Lemma interleaved_lookups_duplicate_session_witness :
  length (sessions_for 1%nat "S1"
            (snd (interleaved_upserts device_D1 (arr_data event_A)
                    device_D1 (arr_data event_B) empty_world))) = 2%nat.
Proof.
  destruct (interleaved_lookups_duplicate_session empty_world device_D1 device_D1
              (arr_data event_A) (arr_data event_B)) as [_ Htwo];
    [reflexivity | reflexivity | reflexivity | reflexivity |].
  change (dev_id device_D1) with 1%nat in Htwo.
  change (sessionId (arr_data event_A)) with "S1" in Htwo.
  by rewrite Htwo.
Defined.

(** ** What every interleaving respects *)

Section Interleavings.

Context (R : relation World) `{!PreOrder R} `{!Insensitive R}
  (Hdb : ∀ w1 w2 w1' w2', db w1' = db w1 → db w2' = db w2 → R w1 w2 → R w1' w2')
  (Hupdate : ∀ m id pts t, preserves R (findByIdAndUpdate m id (push_each pts t)))
  (Hcreate_emg : ∀ dev data, preserves R (create EMGData (new_emg_session dev data)))
  (Hcreate_ems : ∀ dev data, preserves R (create EMSData (new_ems_session dev data)))
  (Hsave : ∀ m r, synced (doc_syncStatus r) = true →
             preserves R (save_syncStatus m r)).

Lemma same_db_related w w' : db w' = db w → R w w'.
Proof. intros Heq. apply (Hdb w w w w'); [done | done | reflexivity]. Qed.

Lemma deliver_related via w a : R w (deliver via w a).
Proof.
  unfold deliver.
  apply (Hdb (set_faults (arr_faults a) (set_now (arr_now a) w))
           (snd (handle via (arr_device a) (arr_data a)
                   (set_faults (arr_faults a) (set_now (arr_now a) w))))
           w _ eq_refl eq_refl).
  by apply preserves_handle.
Qed.

Lemma resume_related ph w : R w (snd (resume ph w)).
Proof.
  destruct ph as [m | m [| r rest]]; simpl.
  - pose proof (preserves_find_unsynced R m batch_size w) as Hfind.
    destruct (find_unsynced m batch_size w) as [[pending | e] w1]; simpl in *;
      [exact Hfind |].
    etrans; [exact Hfind | by apply same_db_related].
  - destruct m; by apply same_db_related.
  - destruct m; by apply preserves_sync_record.
Qed.

Lemma exec_related p act : R (world p) (world (exec p act)).
Proof.
  destruct act as [| i | t fs | via a | ids ty]; simpl.
  - unfold trigger. destruct (isSyncing (world p)); by apply same_db_related.
  - destruct (running p !! i) as [ph |]; [| reflexivity].
    pose proof (resume_related ph (world p)) as Hres.
    destruct (resume ph (world p)) as [[ph' |] w']; exact Hres.
  - by apply same_db_related.
  - apply deliver_related.
  - by apply preserves_forceSyncRecords.
Qed.

Lemma exec_all_related acts : ∀ p, R (world p) (world (exec_all p acts)).
Proof.
  induction acts as [| act acts IH]; intros p; [reflexivity |].
  simpl. etrans; [apply exec_related | apply IH].
Qed.

End Interleavings.

Section Samples.

Implicit Types (c : list SessionDoc) (w : World).

Lemma keeps_samples_refl c : keeps_samples c c.
Proof. intros i d Hd. exists d. by repeat split. Qed.

Lemma keeps_samples_trans c1 c2 c3 :
  keeps_samples c1 c2 → keeps_samples c2 c3 → keeps_samples c1 c3.
Proof.
  intros H12 H23 i d Hd.
  destruct (H12 i d Hd) as (d2 & Hd2 & ? & ? & ? & ? & Hp2).
  destruct (H23 i d2 Hd2) as (d3 & Hd3 & ? & ? & ? & ? & Hp3).
  exists d3. repeat split; try congruence. by etrans.
Qed.

Lemma keeps_samples_app c extra : keeps_samples c (c ++ extra).
Proof.
  intros i d Hd. exists d. split; [by apply lookup_app_l_Some |]. by repeat split.
Qed.

Lemma keeps_samples_update id f c :
  (∀ d, doc_id (f d) = doc_id d ∧ doc_device (f d) = doc_device d
        ∧ doc_sessionId (f d) = doc_sessionId d
        ∧ doc_startTime (f d) = doc_startTime d
        ∧ doc_dataPoints d `prefix_of` doc_dataPoints (f d)) →
  keeps_samples c (update_by_id id f c).
Proof.
  intros Hf. induction c as [| x c IH]; [apply keeps_samples_refl |].
  cbn [update_by_id]. case_decide.
  - intros [| i] d Hd; simpl in *.
    + injection Hd as <-. exists (f x). split; [done |]. apply Hf.
    + exists d. by repeat split.
  - intros [| i] d Hd; simpl in *.
    + injection Hd as <-. exists x. by repeat split.
    + by apply IH.
Qed.

#[export] Instance additive_preorder : PreOrder additive.
Proof.
  split.
  - intros w m. apply keeps_samples_refl.
  - intros w1 w2 w3 H12 H23 m. eapply keeps_samples_trans; eauto.
Qed.

#[export] Instance additive_insensitive : Insensitive additive.
Proof. split; intros w x m; destruct m; apply keeps_samples_refl. Qed.

Lemma additive_update m id f :
  (∀ d, doc_id (f d) = doc_id d ∧ doc_device (f d) = doc_device d
        ∧ doc_sessionId (f d) = doc_sessionId d
        ∧ doc_startTime (f d) = doc_startTime d
        ∧ doc_dataPoints d `prefix_of` doc_dataPoints (f d)) →
  preserves additive (findByIdAndUpdate m id f).
Proof.
  intros Hf.
  papply preserves_bind; [papply preserves_storage_call | intros _].
  papply preserves_modify. intros w m'. simpl.
  rewrite collection_set. case_decide as Hm; [| apply keeps_samples_refl].
  subst m'. by apply keeps_samples_update.
Qed.

Lemma additive_create m fields : preserves additive (create m fields).
Proof.
  papply preserves_bind; [papply preserves_storage_call | intros _].
  papply preserves_bind; [papply preserves_gets | intros t].
  papply preserves_bind; [papply preserves_gets | intros id].
  papply preserves_bind; [| intros _; papply preserves_ret].
  papply preserves_modify. intros w m'. simpl.
  rewrite collection_set_nextId, collection_set.
  case_decide as Hm; [| apply keeps_samples_refl]. subst m'. apply keeps_samples_app.
Qed.

Lemma additive_save m r : preserves additive (save_syncStatus m r).
Proof.
  papply preserves_bind; [papply preserves_storage_call | intros _].
  papply preserves_modify. intros w m'. simpl.
  rewrite collection_set. case_decide as Hm; [| apply keeps_samples_refl].
  subst m'. apply keeps_samples_update. intros d. by repeat split.
Qed.

Lemma status_only_refl c : status_only c c.
Proof. apply Forall2_same_length_lookup. split; [done |].
  intros i d d' Hd Hd'. simplify_eq. by destruct d. Qed.

Lemma status_only_trans c1 c2 c3 :
  status_only c1 c2 → status_only c2 c3 → status_only c1 c3.
Proof.
  unfold status_only. intros H12. revert c3.
  induction H12 as [| d1 d2 c1 c2 Hd _ IH]; intros c3 H23.
  - by apply Forall2_nil_inv_l in H23 as ->.
  - apply Forall2_cons_inv_l in H23 as (d3 & c3' & Hd3 & H23 & ->).
    constructor; [| by apply IH].
    destruct d1, d2, d3. unfold set_syncStatus in *. simpl in *.
    injection Hd as -> -> -> -> -> -> -> -> -> -> ->.
    injection Hd3 as -> -> -> -> -> -> -> -> -> -> ->. reflexivity.
Qed.

Lemma status_only_update id st c :
  status_only c (update_by_id id (set_syncStatus st) c).
Proof.
  induction c as [| x c IH]; [constructor |]. cbn [update_by_id].
  case_decide; constructor; try done; [apply status_only_refl | by destruct x].
Qed.

#[export] Instance sync_only_preorder : PreOrder sync_only.
Proof.
  split.
  - intros w m. apply status_only_refl.
  - intros w1 w2 w3 H12 H23 m. eapply status_only_trans; eauto.
Qed.

#[export] Instance sync_only_insensitive : Insensitive sync_only.
Proof. split; intros w x m; destruct m; apply status_only_refl. Qed.

Lemma sync_only_save m r : preserves sync_only (save_syncStatus m r).
Proof.
  papply preserves_bind; [papply preserves_storage_call | intros _].
  papply preserves_modify. intros w m'. simpl.
  rewrite collection_set. case_decide as Hm; [| apply status_only_refl].
  subst m'. apply status_only_update.
Qed.

Lemma status_only_erase c c' :
  status_only c c' →
  set_syncStatus (mkSyncStatus false None) <$> c'
  = set_syncStatus (mkSyncStatus false None) <$> c.
Proof.
  induction 1 as [| d d' c c' Hd _ IH]; [done |].
  rewrite !fmap_cons, IH. f_equal. rewrite Hd. by destruct d.
Qed.

End Samples.

(** X6.  No stored sample is ever lost or reordered: under any
    interleaving of device events, timer ticks, continuations of sync
    runs, forced syncs and storage outcomes, every session document
    stays at its place with its identifier, device, session and
    startTime, and the samples it had remain a prefix of its samples. *)
Theorem stored_samples_are_kept (p : Process) (acts : list Action) (m : Model)
    (i : nat) (d : SessionDoc) :
  collection m (db (world p)) !! i = Some d →
  ∃ d', collection m (db (world (exec_all p acts))) !! i = Some d'
        ∧ doc_id d' = doc_id d
        ∧ doc_device d' = doc_device d
        ∧ doc_sessionId d' = doc_sessionId d
        ∧ doc_startTime d' = doc_startTime d
        ∧ doc_dataPoints d `prefix_of` doc_dataPoints d'.
Proof.
  intros Hd.
  assert (Hrel : additive (world p) (world (exec_all p acts))).
  { apply exec_all_related; try apply _.
    - intros w1 w2 w1' w2' H1 H2 Hr m'. rewrite H1, H2. apply Hr.
    - intros. apply additive_update. intros []. simpl.
      repeat split; by apply prefix_app_r.
    - intros. apply additive_create.
    - intros. apply additive_create.
    - intros. apply additive_save. }
  exact (Hrel m i d Hd).
Qed.

Lemma stored_samples_are_kept_witness :
  ∃ d', collection EMGData (db (world (exec_all mixed_process busy_day))) !! 0%nat
        = Some d'
        ∧ doc_id d' = doc_id synced_doc
        ∧ doc_device d' = doc_device synced_doc
        ∧ doc_sessionId d' = doc_sessionId synced_doc
        ∧ doc_startTime d' = doc_startTime synced_doc
        ∧ doc_dataPoints synced_doc `prefix_of` doc_dataPoints d'.
Proof.
  apply (stored_samples_are_kept mixed_process busy_day EMGData 0 synced_doc).
  reflexivity.
Defined.

(** X7.  A sync run and a forced sync touch nothing but the sync status:
    whatever the storage outcomes, they add and remove no session
    document, and with the sync status erased every collection is what
    it was (samples, endTime, references and identifiers included). *)
Theorem sync_touches_status_only (w : World) (m : Model) :
  (set_syncStatus (mkSyncStatus false None) <$> collection m (db (snd (syncData w)))
   = set_syncStatus (mkSyncStatus false None) <$> collection m (db w))
  ∧ (∀ ids ty,
       set_syncStatus (mkSyncStatus false None)
         <$> collection m (db (snd (forceSyncRecords ids ty w)))
       = set_syncStatus (mkSyncStatus false None) <$> collection m (db w)).
Proof.
  split.
  - apply status_only_erase. unfold syncData.
    destruct (isSyncing w); [apply status_only_refl |].
    assert (Hrun : sync_only (set_isSyncing true w)
                     (snd (finally (catch syncData_body (λ _, mret ()))
                             (set_isSyncing false) (set_isSyncing true w)))).
    { papply preserves_finally; [| intros w0 m0; apply status_only_refl].
      papply preserves_catch; [| intros e; papply preserves_ret].
      papply preserves_syncData_body. intros; apply sync_only_save. }
    exact (Hrun m).
  - intros ids ty. apply status_only_erase.
    assert (Hrun : sync_only w (snd (forceSyncRecords ids ty w))).
    { papply preserves_forceSyncRecords. intros; apply sync_only_save. }
    exact (Hrun m).
Qed.

(** ** Frame decoder and Bluetooth ingestion *)

Lemma byte_val_range (b : byte) : 0 ≤ byte_val b < 256.
Proof. destruct b; vm_compute; split; congruence. Qed.

Lemma int16_at_bytes (data : Buffer) o v :
  int16_at data o = Some v →
  ∃ lo hi, index data o = Some lo ∧ index data (o + 1) = Some hi
           ∧ v = to_int16 (lo + 256 * hi) ∧ -32768 ≤ v ≤ 32767.
Proof.
  unfold int16_at, index.
  destruct (data !! o) as [lo |]; simpl; [| done].
  destruct (data !! (o + 1)%nat) as [hi |]; simpl; [| done].
  intros [= <-]. exists (byte_val lo), (byte_val hi).
  pose proof (byte_val_range lo). pose proof (byte_val_range hi).
  repeat split; try done; unfold to_int16; case_decide; lia.
Qed.

(** X8.  The sample loop of the decoder, run on any buffer, yields one
    data point per complete byte pair after the 13-byte header, in
    order: floor((L - 13) / 2) points, the j-th holding the frame
    timestamp and the signed 16-bit little-endian value of the bytes at
    13 + 2j and 13 + 2j + 1; a trailing odd byte yields nothing and the
    loop never reads outside the buffer. *)
Theorem sample_loop_decodes_pairs (data : Buffer) (ts : Date) :
  ∃ points,
    parse_loop (length data) data ts 13 [] = Normal points
    ∧ length points = ((length data - 13) / 2)%nat
    ∧ ∀ j, (j < length points)%nat →
        ∃ lo hi,
          index data (13 + 2 * j) = Some lo
          ∧ index data (13 + 2 * j + 1) = Some hi
          ∧ points !! j
            = Some (mkDataPoint (Some ts) (Some (to_int16 (lo + 256 * hi))) None None)
          ∧ -32768 ≤ to_int16 (lo + 256 * hi) ≤ 32767.
Proof.
  destruct (parse_loop_spec data ts (length data) 13 []) as (new & Hrun & Hlen & Hnth);
    [lia |].
  exists new. split; [exact Hrun |]. split; [exact Hlen |].
  intros j Hj. destruct (Hnth j Hj) as (v & Hv & Hpoint).
  destruct (int16_at_bytes _ _ _ Hv) as (lo & hi & Hlo & Hhi & -> & Hrange).
  exists lo, hi. done.
Qed.

Lemma sample_loop_decodes_pairs_witness :
  ∃ points,
    parse_loop (length emg_frame_18) emg_frame_18 100 13 [] = Normal points
    ∧ length points = 2%nat
    ∧ points !! 1%nat = Some (mkDataPoint (Some 100) (Some (-1)) None None).
Proof.
  destruct (sample_loop_decodes_pairs emg_frame_18 100) as (points & Hrun & Hlen & Hnth).
  exists points. split; [exact Hrun |]. split; [exact Hlen |].
  destruct (Hnth 1%nat) as (lo & hi & Hlo & Hhi & Hpoint & _).
  { rewrite Hlen. vm_compute. lia. }
  vm_compute in Hlo, Hhi. by simplify_eq.
Defined.

(** X9.  No Bluetooth frame reaches the store: the decoder returns
    [null] for every buffer (a frame long enough to carry a timestamp
    makes [new Date] throw on a BigInt, a shorter one makes a read
    throw), so that [handleDeviceData] of the Bluetooth service, for
    every device id, frame and storage outcome, completes normally and
    leaves the database as it was. *)
Theorem bluetooth_handler_stores_nothing (deviceId : string) (data : Buffer)
    (w : World) :
  parseDeviceData data = Normal None
  ∧ fst (bluetooth_handleDeviceData deviceId data w) = Normal ()
  ∧ db (snd (bluetooth_handleDeviceData deviceId data w)) = db w.
Proof.
  split; [apply parseDeviceData_null | apply bluetooth_frames_are_dropped].
Qed.

(** ** Device status *)

Section Status.

Implicit Types (w : World) (status : DeviceStatus) (device : Device).

Lemma has_keys_status status :
  has_keys (status_updates status) = true
  ↔ batteryLevel status ≠ None
    ∨ (∃ v, firmwareVersion status = Some v ∧ v ≠ EmptyString).
Proof.
  unfold has_keys, status_updates. rewrite bool_decide_eq_true. simpl.
  destruct (firmwareVersion status) as [v |];
    [destruct (decide (v = EmptyString)) as [-> | Hv] |]; split.
  - intros [Hb | [Hf | Hl]]; [by left | done | done].
  - intros [Hb | (v & Hv & Hne)]; [by left |]. by simplify_eq.
  - intros [Hb | [Hf | Hl]]; [by left | right; eauto | done].
  - intros [Hb | _]; [by left | right; left; done].
  - intros [Hb | [Hf | Hl]]; [by left | done | done].
  - intros [Hb | (v & Hv & _)]; [by left | done].
Qed.

Lemma write_status_idle device status w :
  has_keys (status_updates status) = false →
  write_status device status w = (Normal None, w).
Proof. intros H. unfold write_status. by rewrite H. Qed.

Lemma write_status_run device status w :
  has_keys (status_updates status) = true →
  write_status device status w
  = match faults w with
    | true :: fs => (Throw StorageError, set_faults fs w)
    | fs =>
        (Normal (Some (mkUpdates (upd_batteryLevel (status_updates status))
                         (upd_firmwareVersion (status_updates status))
                         (Some (now w)))),
         set_db (set_devices
                   (update_device (dev_id device) (set_lastConnected (Some (now w)))
                      (devices (db w))) (db w))
           (set_faults (tail fs) w))
    end.
Proof.
  intros H. unfold write_status. rewrite H.
  unfold Device_findByIdAndUpdate, storage_call, new_Date_now, gets, modify,
    mbind, M_bind, mret, M_ret.
  destruct w as [d t fs flag ps]. cbn. destruct fs as [| [] fs]; reflexivity.
Qed.

End Status.

(** X10.  The MQTT status handler never throws.  A status with no
    batteryLevel and no (or an empty) firmwareVersion makes no storage
    call at all, so that not even lastConnected is refreshed.
    Otherwise one update is sent that carries the batteryLevel whenever
    it is present (0 included), the firmwareVersion only when it is a
    non-empty string, and lastConnected = now; when that call rejects,
    nothing is written. *)
Theorem status_update_fields (device : Device) (status : DeviceStatus) (w : World) :
  (∃ r, fst (handleDeviceStatus device status w) = Normal r)
  ∧ (batteryLevel status = None →
     (firmwareVersion status = None ∨ firmwareVersion status = Some EmptyString) →
     handleDeviceStatus device status w = (Normal None, w))
  ∧ ((batteryLevel status ≠ None
      ∨ ∃ v, firmwareVersion status = Some v ∧ v ≠ EmptyString) →
     (head (faults w) ≠ Some true →
      fst (handleDeviceStatus device status w)
      = Normal (Some (mkUpdates (batteryLevel status)
                        (match firmwareVersion status with
                         | Some v => if decide (v = EmptyString) then None else Some v
                         | None => None
                         end)
                        (Some (now w))))
      ∧ devices (db (snd (handleDeviceStatus device status w)))
        = update_device (dev_id device) (set_lastConnected (Some (now w)))
            (devices (db w)))
     ∧ (head (faults w) = Some true →
        fst (handleDeviceStatus device status w) = Normal None
        ∧ db (snd (handleDeviceStatus device status w)) = db w)).
Proof.
  unfold handleDeviceStatus, catch.
  destruct (has_keys (status_updates status)) eqn:Hkeys.
  - rewrite write_status_run by done. split; [| split].
    + destruct (faults w) as [| [] fs]; simpl; eauto.
    + intros Hb Hf. apply has_keys_status in Hkeys as [? | (v & Hv & Hne)]; [done |].
      destruct Hf as [Hf | Hf]; rewrite Hf in Hv; by simplify_eq.
    + intros _. split; intros Hhead.
      * destruct (faults w) as [| [] fs]; simpl in *; done.
      * destruct (faults w) as [| [] fs]; simpl in *; by simplify_eq.
  - rewrite write_status_idle by done. split; [eauto |]. split; [done |].
    intros Hsome. apply has_keys_status in Hsome. congruence.
Qed.

Lemma status_update_fields_witness :
  handleDeviceStatus device_D1 (mkStatus None (Some EmptyString)) empty_world
  = (Normal None, empty_world)
  ∧ fst (handleDeviceStatus device_D1 (mkStatus (Some 0) (Some EmptyString)) empty_world)
    = Normal (Some (mkUpdates (Some 0) None (Some 0)))
  ∧ fst (handleDeviceStatus device_D1 (mkStatus (Some 0) None)
           (set_faults [true] empty_world)) = Normal None.
Proof.
  split; [| split].
  - apply (proj1 (proj2 (status_update_fields device_D1 (mkStatus None (Some EmptyString))
                           empty_world))); [reflexivity | by right].
  - destruct (status_update_fields device_D1 (mkStatus (Some 0) (Some EmptyString)) empty_world)
      as (_ & _ & Hwrite).
    destruct Hwrite as [Hok _]; [by left |].
    destruct Hok as [-> _]; [simpl; discriminate | reflexivity].
  - destruct (status_update_fields device_D1 (mkStatus (Some 0) None)
                (set_faults [true] empty_world)) as (_ & _ & Hwrite).
    destruct Hwrite as [_ Hfail]; [by left |].
    by destruct Hfail as [-> _].
Defined.

Lemma append_dot_nonempty (s t : string) : s +:+ "." +:+ t ≠ EmptyString.
Proof. destruct s; discriminate. Qed.

(** X11.  [parseDeviceStatus] never returns [null] and never throws: for
    every buffer it yields the first byte (if any) as batteryLevel and a
    firmwareVersion string that is never empty, bytes out of range being
    printed as "undefined".  Hence the Bluetooth status handler, for a
    registered device and successful storage calls, always sends an
    update with a firmwareVersion and lastConnected = now, even for an
    empty frame; for an unregistered device it writes nothing. *)
Theorem bluetooth_status_always_has_firmware (deviceId : string) (data : Buffer)
    (w : World) :
  ∃ version,
    version ≠ EmptyString
    ∧ version = show_element (index data 1) +:+ "." +:+ show_element (index data 2)
                +:+ "." +:+ show_element (index data 3)
                +:+ "." +:+ show_element (index data 4)
    ∧ parseDeviceStatus data = Normal (Some (mkStatus (index data 0) (Some version)))
    ∧ parseDeviceStatus [] = Normal (Some (mkStatus None
                               (Some "undefined.undefined.undefined.undefined")))
    ∧ (∃ r, fst (bluetooth_handleDeviceStatus deviceId data w) = Normal r)
    ∧ (∀ i device,
         Forall (λ b, b = false) (take 2 (faults w)) →
         list_find (λ d, serialNumber d = deviceId) (devices (db w)) = Some (i, device) →
         fst (bluetooth_handleDeviceStatus deviceId data w)
         = Normal (Some (mkUpdates (index data 0) (Some version) (Some (now w))))
         ∧ devices (db (snd (bluetooth_handleDeviceStatus deviceId data w)))
           = update_device (dev_id device) (set_lastConnected (Some (now w)))
               (devices (db w)))
    ∧ (list_find (λ d, serialNumber d = deviceId) (devices (db w)) = None →
       fst (bluetooth_handleDeviceStatus deviceId data w) = Normal None
       ∧ db (snd (bluetooth_handleDeviceStatus deviceId data w)) = db w).
Proof.
  eexists. split; [apply append_dot_nonempty |]. split; [reflexivity |].
  split; [reflexivity |]. split; [reflexivity |].
  set (version := show_element (index data 1) +:+ "." +:+ show_element (index data 2)
                  +:+ "." +:+ show_element (index data 3)
                  +:+ "." +:+ show_element (index data 4)).
  assert (Hkeys : has_keys (status_updates (mkStatus (index data 0) (Some version)))
                  = true).
  { apply has_keys_status. right. exists version. split; [done |].
    apply append_dot_nonempty. }
  assert (Hupd : upd_firmwareVersion
                   (status_updates (mkStatus (index data 0) (Some version)))
                 = Some version).
  { unfold status_updates. simpl. rewrite decide_False; [done |].
    apply append_dot_nonempty. }
  unfold bluetooth_handleDeviceStatus, catch, lift, Device_findOne.
  change (parseDeviceStatus data)
    with (Normal (Some (mkStatus (index data 0) (Some version)))
          : Completion (option DeviceStatus)).
  unfold storage_call, gets, mbind, M_bind, mret, M_ret.
  destruct w as [d t fs flag ps]. cbn [faults db now set_faults].
  destruct (list_find (λ d0, serialNumber d0 = deviceId) (devices d))
    as [[i dev] |] eqn:Hfind.
  - split; [| split].
    + destruct fs as [| [] fs]; cbn; rewrite ?Hfind; cbn; eauto.
      * rewrite write_status_run by done. cbn. eauto.
      * rewrite write_status_run by done. cbn.
        destruct fs as [| [] fs]; cbn; eauto.
    + intros i' device Hfs [= <- <-].
      destruct fs as [| [] fs]; cbn in *; try (by inversion Hfs);
        rewrite Hfind; cbn; rewrite write_status_run by done; cbn;
        rewrite Hupd.
      * done.
      * apply Forall_cons in Hfs as [_ Hfs].
        destruct fs as [| [] fs]; cbn; try done. by inversion Hfs.
    + intros Hnone. discriminate.
  - split; [| split].
    + destruct fs as [| [] fs]; cbn; rewrite ?Hfind; cbn; eauto.
    + intros i' device _ Hsome. discriminate.
    + intros _. destruct fs as [| [] fs]; cbn; rewrite ?Hfind; done.
Qed.

Lemma bluetooth_status_always_has_firmware_witness :
  fst (bluetooth_handleDeviceStatus "D1" status_frame empty_world)
  = Normal (Some (mkUpdates (Some 85) (Some "1.2.3.4") (Some 0)))
  ∧ fst (bluetooth_handleDeviceStatus "D1" [] empty_world)
    = Normal (Some (mkUpdates None (Some "undefined.undefined.undefined.undefined")
                      (Some 0)))
  ∧ fst (bluetooth_handleDeviceStatus "nobody" status_frame empty_world) = Normal None.
Proof.
  split; [| split].
  - destruct (bluetooth_status_always_has_firmware "D1" status_frame empty_world)
      as (version & _ & Hv & _ & _ & _ & Hwrite & _).
    destruct (Hwrite 0%nat device_D1) as [-> _];
      [simpl; constructor | reflexivity |].
    rewrite Hv. reflexivity.
  - destruct (bluetooth_status_always_has_firmware "D1" [] empty_world)
      as (version & _ & Hv & _ & _ & _ & Hwrite & _).
    destruct (Hwrite 0%nat device_D1) as [-> _];
      [simpl; constructor | reflexivity |].
    rewrite Hv. reflexivity.
  - destruct (bluetooth_status_always_has_firmware "nobody" status_frame empty_world)
      as (version & _ & _ & _ & _ & _ & _ & Hnone).
    by destruct Hnone as [-> _].
Defined.

(** ** Connection supervision *)

Section SupervisorMore.

Lemma mqtt_run_snoc s es e : mqtt_run s (es ++ [e]) = mqtt_step (mqtt_run s es) e.
Proof. unfold mqtt_run. by rewrite foldl_app. Qed.

Lemma mqtt_run_count es :
  reconnectCount (mqtt_run mqtt_initial es) = reconnects_since_connect (reverse es).
Proof.
  induction es as [| e es IH] using rev_ind; [done |].
  rewrite mqtt_run_snoc, reverse_snoc.
  destruct e; simpl; rewrite <- ?IH; try done.
  - unfold on_error. by case_decide.
  - lia.
Qed.

Lemma mqtt_run_messages es :
  messageCount (mqtt_run mqtt_initial es) = messages_since_reset (reverse es).
Proof.
  induction es as [| e es IH] using rev_ind; [done |].
  rewrite mqtt_run_snoc, reverse_snoc.
  destruct e; simpl; rewrite <- ?IH; try done.
  unfold on_error. by case_decide.
Qed.

Lemma mqtt_step_ended s e : ended s = true → ended (mqtt_step s e) = true.
Proof. destruct e; simpl; try done. unfold on_error. by case_decide. Qed.

Lemma mqtt_run_ended es : ∀ s, ended s = true → ended (mqtt_run s es) = true.
Proof.
  induction es as [| e es IH]; intros s Hs; [done |].
  apply IH. by apply mqtt_step_ended.
Qed.

Lemma peripheral_step_idle s e :
  bt_reconnectCount s = None → listeners s = [] →
  bt_reconnectCount (fst (peripheral_step s e)) = None
  ∧ listeners (fst (peripheral_step s e)) = []
  ∧ snd (peripheral_step s e) = []
  ∧ connectedDevices (fst (peripheral_step s e))
    = list_to_set (resolved [e]) ∪ connectedDevices s.
Proof.
  intros Hcount Hlisteners.
  destruct e as [id [[] | err] | id];
    unfold peripheral_step, connectToDevice, reconnectCount_set;
    cbn [bt_reconnectCount listeners connectedDevices];
    rewrite ?Hcount, ?Hlisteners; cbn; repeat split; try done.
  - by rewrite (right_id_L (∅ : gset string) (∪)).
  - by rewrite (left_id_L (∅ : gset string) (∪)).
  - by rewrite (left_id_L (∅ : gset string) (∪)).
Qed.

Lemma listeners_stay_empty es : ∀ s,
  bt_reconnectCount s = None → listeners s = [] →
  bt_reconnectCount (fst (peripheral_run s es)) = None
  ∧ listeners (fst (peripheral_run s es)) = []
  ∧ snd (peripheral_run s es) = []
  ∧ connectedDevices (fst (peripheral_run s es))
    = list_to_set (resolved es) ∪ connectedDevices s.
Proof.
  induction es as [| e es IH]; intros s Hcount Hlisteners.
  - cbn. repeat split; try done. by rewrite (left_id_L (∅ : gset string) (∪)).
  - cbn [peripheral_run].
    destruct (peripheral_step_idle s e Hcount Hlisteners) as (Hc1 & Hl1 & Hr1 & Hd1).
    destruct (peripheral_step s e) as [s1 r1]. cbn [fst snd] in *. subst r1.
    destruct (IH s1 Hc1 Hl1) as (Hc2 & Hl2 & Hr2 & Hd2).
    destruct (peripheral_run s1 es) as [s2 r2]. cbn [fst snd] in *.
    repeat split; try done.
    rewrite Hd2, Hd1.
    replace (resolved (e :: es)) with (resolved [e] ++ resolved es)
      by (unfold resolved; by rewrite <- omap_app).
    rewrite list_to_set_app_L.
    rewrite (assoc_L (∪)). f_equal. apply (comm_L (∪)).
Qed.

(** X12.  As the module stands, the wireless transport never schedules
    a reconnect.  Over any run of connect attempts and disconnect events
    from the module's initial state, whatever the outcomes of
    [connectAsync]: nothing is handed to [setTimeout], no disconnect
    listener is ever registered, [connectionState.reconnectCount] stays
    undefined, every peripheral whose [connectAsync] resolved stays on
    the connected list (nothing removes it), and every further call of
    [connectToDevice] throws. *)
Theorem wireless_reconnect_is_never_scheduled (es : list PeripheralEvent) :
  let final := fst (peripheral_run bluetooth_initial es) in
  snd (peripheral_run bluetooth_initial es) = []
  ∧ listeners final = []
  ∧ bt_reconnectCount final = None
  ∧ connectedDevices final = list_to_set (resolved es)
  ∧ (∀ id connected, fst (connectToDevice id connected final) ≠ Normal ()).
Proof.
  cbv zeta.
  destruct (listeners_stay_empty es bluetooth_initial) as (Hc & Hl & Hr & Hd);
    [done | done |].
  split; [exact Hr |]. split; [exact Hl |]. split; [exact Hc |]. split.
  - rewrite Hd. apply (right_id_L (∅ : gset string) (∪)).
  - intros id [[] | err]; [| done].
    by destruct (connect_attempt_throws id _ Hc) as (-> & _).
Qed.

Lemma backoff_step n : backoff n ≤ backoff (S n).
Proof.
  unfold backoff. cbn [reconnectDelay maxReconnectDelay mqttConfig].
  rewrite Nat2Z.inj_succ, Z.pow_succ_r by lia.
  assert (0 < 2 ^ Z.of_nat n) by (apply Z.pow_pos_nonneg; lia).
  lia.
Qed.

(** X13. Over any run of events of the pub/sub client,
    [reconnectCount] is the number of reconnect events since the last
    connect and [messageCount] the number of messages since the last
    reset of the count; an error event ends the client exactly when it
    was ended already or at least [maxReconnectAttempts] (10)
    reconnects have passed since the last connect, and no event brings
    an ended client back. *)
Theorem mqtt_error_ends_after_max_reconnects es :
  let s := mqtt_run mqtt_initial es in
  reconnectCount s = reconnects_since_connect (reverse es)
  ∧ messageCount s = messages_since_reset (reverse es)
  ∧ (ended (mqtt_step s Error) = true
     ↔ ended s = true ∨ (10 ≤ reconnects_since_connect (reverse es))%nat)
  ∧ ∀ more, ended s = true → ended (mqtt_run s more) = true.
Proof.
  cbv zeta. split; [apply mqtt_run_count |]. split; [apply mqtt_run_messages |].
  split.
  - rewrite <- mqtt_run_count. simpl. unfold on_error.
    change (maxReconnectAttempts mqttConfig) with 10%nat.
    case_decide; simpl; [tauto |].
    split; [tauto | intros [? | ?]; [done | lia]].
  - intros more. apply mqtt_run_ended.
Qed.

(** X14.  For the constants of the pub/sub client (base 1000 ms, cap
    30000 ms) the reconnect delay never decreases as the count of
    reconnects grows; it lies between the base and the cap at every
    count and is the cap from count 5 on. *)
Theorem backoff_is_monotone (n m : nat) :
  (n ≤ m)%nat →
  1000 ≤ backoff n
  ∧ backoff n ≤ backoff m
  ∧ backoff m ≤ 30000
  ∧ ((5 ≤ n)%nat → backoff n = 30000).
Proof.
  intros Hnm.
  assert (Hpos : ∀ k, 1 ≤ 2 ^ Z.of_nat k).
  { intros k. assert (0 < 2 ^ Z.of_nat k) by (apply Z.pow_pos_nonneg; lia). lia. }
  split; [| split; [| split]].
  - unfold backoff. cbn [reconnectDelay maxReconnectDelay mqttConfig].
    pose proof (Hpos n). lia.
  - induction Hnm as [| m Hnm IH]; [lia |].
    etrans; [exact IH | apply backoff_step].
  - apply backoff_capped.
  - intros Hn. unfold backoff. cbn [reconnectDelay maxReconnectDelay mqttConfig].
    assert (Hpow : 2 ^ 5 ≤ 2 ^ Z.of_nat n) by (apply Z.pow_le_mono_r; lia).
    lia.
Qed.

Lemma backoff_is_monotone_witness :
  1000 ≤ backoff 2 ∧ backoff 2 ≤ backoff 7 ∧ backoff 7 ≤ 30000
  ∧ ((5 ≤ 2)%nat → backoff 2 = 30000).
Proof. apply backoff_is_monotone. lia. Defined.

End SupervisorMore.

(** ** Forced sync and repeated runs *)

Section Forced.

Implicit Types (w : World) (m : Model) (rs : list SessionDoc).

Lemma force_loop_run m rs : ∀ n w,
  force_loop m rs n w
  = (Normal (n + length (succeeded rs (faults w)))%nat, sync_batch m rs w).
Proof.
  induction rs as [| r rs IH]; intros n w.
  - cbn. by rewrite Nat.add_0_r.
  - cbn [force_loop]. rewrite bind_run, sync_record_run, IH.
    unfold sync_batch. cbn [foldl]. rewrite sync_effect_faults.
    f_equal. f_equal. unfold sync_effect.
    destruct (faults w) as [| [] fs]; cbn [fst succeeded tail length]; lia.
Qed.

Lemma forceSyncRecords_run recordIds dataType w :
  forceSyncRecords recordIds dataType w
  = match faults w with
    | true :: fs => (Throw StorageError, set_faults fs w)
    | fs =>
        let rs := requested (model_of dataType) recordIds w in
        let done := length (succeeded rs (tail fs)) in
        (Normal (mkSummary (length rs) done (length rs - done)),
         sync_batch (model_of dataType) rs (set_faults (tail fs) w))
    end.
Proof.
  unfold forceSyncRecords, catch, find_by_ids, storage_call, gets, lift, requested,
    mbind, M_bind, mret, M_ret.
  fold (model_of dataType).
  destruct w as [d t fs flag ps]. cbn [faults db set_faults].
  destruct fs as [| [] fs]; cbn [tail]; try reflexivity;
    rewrite force_loop_run; reflexivity.
Qed.

Lemma sync_batch_db_faults m rs fs w :
  db (set_faults fs w) = db w ∧ now (set_faults fs w) = now w
  ∧ pushes (set_faults fs w) = pushes w ∧ faults (set_faults fs w) = fs.
Proof. by destruct w. Qed.

Lemma forceSyncRecords_world recordIds dataType w :
  head (faults w) ≠ Some true →
  snd (forceSyncRecords recordIds dataType w)
  = sync_batch (model_of dataType) (requested (model_of dataType) recordIds w)
      (set_faults (tail (faults w)) w).
Proof.
  intros Hhead. rewrite forceSyncRecords_run.
  by destruct (faults w) as [| [] fs].
Qed.

(** X15.  What a forced sync reports and does.  When the query rejects,
    the call throws and has pushed and written nothing.  Otherwise it
    returns a summary whose total is the number of stored documents of
    the chosen collection with a requested identifier (identifiers that
    match nothing are not counted), whose failed is the number of
    rejected saves and whose success is the rest; every found document
    is pushed once, in store order; the other collection is untouched,
    and the documents whose save succeeded are marked synced at the
    current time. *)
Theorem force_sync_summary (recordIds : list ObjectId) (dataType : string) (w : World) :
  let m := model_of dataType in
  let rs := requested m recordIds w in
  let result := forceSyncRecords recordIds dataType w in
  (head (faults w) = Some true →
   fst result = Throw StorageError
   ∧ db (snd result) = db w
   ∧ pushes (snd result) = pushes w)
  ∧ (head (faults w) ≠ Some true →
     ∃ s, fst result = Normal s
          ∧ total s = length rs
          ∧ failed s = rejections (length rs) (tail (faults w))
          ∧ (success s + failed s = total s)%nat
          ∧ pushes (snd result) = pushes w ++ ((λ r, (m, doc_id r)) <$> rs)
          ∧ (∀ m', m' ≠ m → collection m' (db (snd result)) = collection m' (db w))
          ∧ (NoDup (doc_id <$> collection m (db w)) →
             collection m (db (snd result))
             = mark_ids (now w) (doc_id <$> succeeded rs (tail (faults w)))
                 (collection m (db w)))).
Proof.
  cbv zeta. rewrite forceSyncRecords_run. split.
  - intros Hhead. by destruct (faults w) as [| [] fs].
  - intros Hhead.
    set (rs := requested (model_of dataType) recordIds w).
    assert (Hgen : ∀ fs,
      let done := length (succeeded rs fs) in
      let w' := sync_batch (model_of dataType) rs (set_faults fs w) in
      (length rs - done)%nat = rejections (length rs) fs
      ∧ (done + (length rs - done) = length rs)%nat
      ∧ pushes w' = pushes w ++ ((λ r, (model_of dataType, doc_id r)) <$> rs)
      ∧ (∀ m', m' ≠ model_of dataType →
               collection m' (db w') = collection m' (db w))
      ∧ (NoDup (doc_id <$> collection (model_of dataType) (db w)) →
         collection (model_of dataType) (db w')
         = mark_ids (now w) (doc_id <$> succeeded rs fs)
             (collection (model_of dataType) (db w)))).
    { intros fs. cbv zeta.
      destruct (sync_batch_db_faults (model_of dataType) rs fs w)
        as (Hdb & Hnow & Hpushes & Hfaults).
      pose proof (succeeded_count rs fs) as Hcount.
      fold (rejections (length rs) fs) in Hcount.
      repeat split.
      - lia.
      - lia.
      - by rewrite sync_batch_pushes, Hpushes.
      - intros m' Hm'. by rewrite sync_batch_other, Hdb.
      - intros Hnd. rewrite sync_batch_collection by (by rewrite Hdb).
        by rewrite Hdb, Hnow, Hfaults. }
    destruct (faults w) as [| [] fs]; [| done |]; cbv zeta; cbn [fst snd tail];
      (eexists; split; [reflexivity |]; cbn [total success failed];
       split; [reflexivity |]; apply Hgen).
Qed.

Lemma force_sync_summary_witness :
  fst (forceSyncRecords [4; 5; 99]%nat "EMG" (two_kinds [false; true; false]))
  = Normal (mkSummary 2 1 1)
  ∧ fst (forceSyncRecords [6%nat] "ecg" (two_kinds [true])) = Throw StorageError.
Proof.
  split.
  - destruct (proj2 (force_sync_summary [4; 5; 99]%nat "EMG"
                       (two_kinds [false; true; false])))
      as (s & -> & Htotal & Hfailed & Hsum & _); [discriminate |].
    destruct s as [n1 n2 n3]. vm_compute in Htotal, Hfailed. simpl in *.
    f_equal. f_equal; lia.
  - apply (proj1 (force_sync_summary [6%nat] "ecg" (two_kinds [true]))).
    reflexivity.
Defined.

Lemma phase_pushes_fetch m w :
  ∃ rs, rs ⊆ filter unsynced (collection m (db w))
        ∧ pushes (snd (phase m w)) = pushes w ++ ((λ r, (m, doc_id r)) <$> rs).
Proof.
  assert (Hsub : fetch m w ⊆ filter unsynced (collection m (db w))).
  { apply subseteq_take. }
  unfold phase. destruct (faults w) as [| [] fs]; cbn [snd].
  - exists (fetch m w). split; [done |]. by rewrite sync_batch_pushes.
  - exists []. split; [by intros x Hx%elem_of_nil |]. by rewrite app_nil_r.
  - exists (fetch m w). split; [done |]. by rewrite sync_batch_pushes.
Qed.

Lemma sync_run_pushed w m id :
  (m, id) ∈ drop (length (pushes w)) (pushes (sync_run w)) →
  ∃ r, r ∈ collection m (db w) ∧ unsynced r ∧ doc_id r = id.
Proof.
  unfold sync_run.
  set (w0 := set_isSyncing true w).
  destruct (phase EMGData w0) as [ok w1] eqn:Hphase.
  destruct (phase_pushes_fetch EMGData w0) as (rs1 & Hsub1 & Hp1).
  rewrite Hphase in Hp1. cbn [snd] in Hp1.
  change (pushes w0) with (pushes w) in Hp1.
  change (db w0) with (db w) in Hsub1.
  assert (Hfrom : ∀ m' (rs : list SessionDoc),
            rs ⊆ filter unsynced (collection m' (db w)) →
            (m, id) ∈ (λ r, (m', doc_id r)) <$> rs →
            ∃ r, r ∈ collection m (db w) ∧ unsynced r ∧ doc_id r = id).
  { intros m' rs Hsub (r & Heq & Hr)%list_elem_of_fmap. simplify_eq.
    apply Hsub, list_elem_of_filter in Hr as [Hun Hr]. eauto. }
  destruct ok.
  - destruct (phase_pushes_fetch EMSData w1) as (rs2 & Hsub2 & Hp2).
    assert (Hems : collection EMSData (db w1) = collection EMSData (db w)).
    { replace w1 with (snd (phase EMGData w0)) by (by rewrite Hphase).
      by rewrite phase_other. }
    rewrite Hems in Hsub2.
    change (pushes (set_isSyncing false (snd (phase EMSData w1))))
      with (pushes (snd (phase EMSData w1))).
    rewrite Hp2, Hp1, <- app_assoc, drop_app_length.
    intros [Hin | Hin]%elem_of_app; eauto.
  - change (pushes (set_isSyncing false w1)) with (pushes w1).
    rewrite Hp1, drop_app_length. eauto.
Qed.

(** X16.  A forced sync is not restricted to unsynced records.  With no
    rejected storage call, a requested record is pushed and its
    syncedAt is set to the current time even when it was synced before,
    whereas a run of [syncData] from the same state does not push it. *)
Theorem forced_sync_repeats_synced_records (recordIds : list ObjectId)
    (dataType : string) (w : World) (i : nat) (r : SessionDoc) :
  let m := model_of dataType in
  let w' := snd (forceSyncRecords recordIds dataType w) in
  Forall (λ b, b = false) (faults w) →
  NoDup (doc_id <$> collection m (db w)) →
  collection m (db w) !! i = Some r →
  doc_id r ∈ recordIds →
  synced (doc_syncStatus r) = true →
  collection m (db w') !! i = Some (mark_synced (now w) r)
  ∧ (m, doc_id r) ∈ drop (length (pushes w)) (pushes w')
  ∧ (isSyncing w = false →
     (m, doc_id r) ∉ drop (length (pushes w)) (pushes (snd (syncData w)))).
Proof.
  cbv zeta. intros Hfs Hnd Hi Hid Hsynced.
  assert (Hhead : head (faults w) ≠ Some true).
  { destruct (faults w) as [| b fs]; [done |].
    apply Forall_cons in Hfs as [-> _]. done. }
  assert (Hr : r ∈ requested (model_of dataType) recordIds w).
  { apply list_elem_of_filter. split; [done |]. by eapply list_elem_of_lookup_2. }
  rewrite forceSyncRecords_world by done.
  destruct (sync_batch_db_faults (model_of dataType)
              (requested (model_of dataType) recordIds w) (tail (faults w)) w)
    as (Hdb & Hnow & Hpushes & Hfaults).
  split; [| split].
  - rewrite sync_batch_collection by (by rewrite Hdb).
    rewrite Hdb, Hnow, Hfaults.
    unfold mark_ids. rewrite list_lookup_fmap, Hi.
    cbn [fmap option_fmap option_map]. rewrite decide_True; [done |].
    rewrite succeeded_all.
    + by apply list_elem_of_fmap_2.
    + apply Forall_take. destruct (faults w); [done |].
      by apply Forall_cons in Hfs as [_ ?].
  - rewrite sync_batch_pushes, Hpushes, drop_app_length.
    apply list_elem_of_fmap. by exists r.
  - intros Hoff. rewrite syncData_run by done. cbn [snd].
    intros (r' & Hr' & Hun & Hid')%sync_run_pushed.
    assert (r' = r) as ->.
    { eapply same_id_same_doc; [exact Hnd | done | by eapply list_elem_of_lookup_2 | done]. }
    unfold unsynced in Hun. congruence.
Qed.

Lemma forced_sync_repeats_synced_records_witness :
  emgDocs (db (snd (forceSyncRecords [4%nat] "Emg" (two_kinds [])))) !! 0%nat
  = Some (mark_synced 9 synced_doc)
  ∧ (EMGData, 4%nat) ∈ pushes (snd (forceSyncRecords [4%nat] "Emg" (two_kinds [])))
  ∧ (EMGData, 4%nat) ∉ pushes (snd (syncData (two_kinds []))).
Proof.
  destruct (forced_sync_repeats_synced_records [4%nat] "Emg" (two_kinds []) 0
              synced_doc) as (H1 & H2 & H3).
  - constructor.
  - apply (bool_decide_unpack _). vm_compute. exact I.
  - reflexivity.
  - apply (bool_decide_unpack _). vm_compute. exact I.
  - reflexivity.
  - split; [exact H1 |]. split; [exact H2 |]. apply H3. reflexivity.
Defined.

Lemma filter_none {A} (P : A → Prop) `{!∀ x, Decision (P x)} (l : list A) :
  (∀ x, x ∈ l → ¬ P x) → filter P l = [].
Proof.
  induction l as [| x l IH]; intros Hl; [done |].
  rewrite filter_cons_False by (apply Hl; left).
  apply IH. intros y Hy. apply Hl. by right.
Qed.

Lemma mark_all_unsynced t c :
  filter unsynced (mark_ids t (doc_id <$> filter unsynced c) c) = [].
Proof.
  rewrite filter_unsynced_mark. apply filter_none.
  intros x Hx Hnot. apply Hnot. by apply list_elem_of_fmap_2.
Qed.

(** One half of a run when no storage call rejects and the backlog
    fits into one batch. *)
Lemma phase_quiet m w :
  faults w = [] →
  NoDup (doc_id <$> collection m (db w)) →
  (length (filter unsynced (collection m (db w))) ≤ batch_size)%nat →
  fst (phase m w) = true
  ∧ faults (snd (phase m w)) = []
  ∧ now (snd (phase m w)) = now w
  ∧ collection m (db (snd (phase m w)))
    = mark_ids (now w) (doc_id <$> filter unsynced (collection m (db w)))
        (collection m (db w))
  ∧ pushes (snd (phase m w))
    = pushes w ++ ((λ r, (m, doc_id r)) <$> filter unsynced (collection m (db w))).
Proof.
  intros Hfs Hnd Hlen. unfold phase. rewrite Hfs. cbn [fst snd tail].
  assert (Hfetch : fetch m w = filter unsynced (collection m (db w))).
  { unfold fetch. by apply take_ge. }
  destruct (sync_batch_db_faults m (fetch m w) [] w)
    as (Hdb & Hnow & Hpushes & Hfaults).
  split; [done |]. split; [| split; [| split]].
  - rewrite sync_batch_faults, Hfaults. by rewrite drop_nil.
  - by rewrite sync_batch_now, Hnow.
  - rewrite sync_batch_collection by (by rewrite Hdb).
    rewrite Hdb, Hnow, Hfaults, succeeded_all by (by rewrite take_nil).
    by rewrite Hfetch.
  - by rewrite sync_batch_pushes, Hpushes, Hfetch.
Qed.

Lemma sync_run_quiet w :
  faults w = [] →
  (∀ m, NoDup (doc_id <$> collection m (db w))) →
  (∀ m, (length (filter unsynced (collection m (db w))) ≤ batch_size)%nat) →
  faults (sync_run w) = []
  ∧ (∀ m, collection m (db (sync_run w))
          = mark_ids (now w) (doc_id <$> filter unsynced (collection m (db w)))
              (collection m (db w)))
  ∧ pushes (sync_run w)
    = pushes w
      ++ ((λ r, (EMGData, doc_id r)) <$> filter unsynced (collection EMGData (db w)))
      ++ ((λ r, (EMSData, doc_id r)) <$> filter unsynced (collection EMSData (db w))).
Proof.
  intros Hfs Hnd Hlen. unfold sync_run.
  set (w0 := set_isSyncing true w).
  destruct (phase_quiet EMGData w0) as (Hok & Hfs1 & Hnow1 & Hc1 & Hp1);
    [done | apply Hnd | apply Hlen |].
  destruct (phase EMGData w0) as [ok w1] eqn:Hphase. cbn [fst snd] in *.
  subst ok.
  assert (Hems : collection EMSData (db w1) = collection EMSData (db w)).
  { replace w1 with (snd (phase EMGData w0)) by (by rewrite Hphase).
    by rewrite phase_other. }
  destruct (phase_quiet EMSData w1) as (_ & Hfs2 & Hnow2 & Hc2 & Hp2);
    [done | rewrite Hems; apply Hnd | rewrite Hems; apply Hlen |].
  change (db w0) with (db w) in *. change (now w0) with (now w) in *.
  change (pushes w0) with (pushes w) in *.
  split; [exact Hfs2 |]. split.
  - intros [].
    + change (collection EMGData (db (snd (phase EMSData w1)))
              = mark_ids (now w)
                  (doc_id <$> filter unsynced (collection EMGData (db w)))
                  (collection EMGData (db w))).
      by rewrite phase_other, Hc1.
    + change (collection EMSData (db (snd (phase EMSData w1)))
              = mark_ids (now w)
                  (doc_id <$> filter unsynced (collection EMSData (db w)))
                  (collection EMSData (db w))).
      by rewrite Hc2, Hems, Hnow1.
  - change (pushes (snd (phase EMSData w1))
            = pushes w
              ++ ((λ r, (EMGData, doc_id r))
                    <$> filter unsynced (collection EMGData (db w)))
              ++ ((λ r, (EMSData, doc_id r))
                    <$> filter unsynced (collection EMSData (db w)))).
    by rewrite Hp2, Hp1, Hems, <- app_assoc.
Qed.

Lemma sync_run_flag w : isSyncing (sync_run w) = false.
Proof. unfold sync_run. by destruct (phase EMGData _). Qed.

(** X17.  A run that meets no rejected storage call and whose backlog
    fits into one batch per collection leaves no unsynced record: it
    pushes exactly the records that were unsynced, each collection in
    store order, and the next run finds nothing, pushes nothing and
    changes no session record. *)
Theorem second_run_is_idle (w : World) :
  let w1 := snd (syncData w) in
  let w2 := snd (syncData w1) in
  isSyncing w = false →
  faults w = [] →
  (∀ m, NoDup (doc_id <$> collection m (db w))) →
  (∀ m, (length (filter unsynced (collection m (db w))) ≤ batch_size)%nat) →
  (∀ m, filter unsynced (collection m (db w1)) = [])
  ∧ (∀ m, pushes_since m w w1 = doc_id <$> filter unsynced (collection m (db w)))
  ∧ (∀ m, collection m (db w2) = collection m (db w1))
  ∧ pushes w2 = pushes w1.
Proof.
  cbv zeta. intros Hoff Hfs Hnd Hlen.
  rewrite syncData_run by done. cbn [snd].
  destruct (sync_run_quiet w Hfs Hnd Hlen) as (Hfs1 & Hc1 & Hp1).
  assert (Hnone : ∀ m, filter unsynced (collection m (db (sync_run w))) = []).
  { intros m. rewrite Hc1. apply mark_all_unsynced. }
  rewrite syncData_run by apply sync_run_flag. cbn [snd].
  destruct (sync_run_quiet (sync_run w)) as (_ & Hc2 & Hp2); [done | | |].
  { intros m. rewrite Hc1, mark_ids_ids. apply Hnd. }
  { intros m. rewrite Hnone. cbn. lia. }
  split; [exact Hnone |]. split; [| split].
  - intros m. unfold pushes_since.
    rewrite Hp1, drop_app_length, filter_app, fmap_app, !filter_tagged.
    destruct m; cbn; by rewrite ?app_nil_r.
  - intros m. by rewrite Hc2, Hnone, mark_ids_nil.
  - rewrite Hp2, !Hnone. cbn. by rewrite app_nil_r.
Qed.

Lemma second_run_is_idle_witness :
  synced_flags (snd (syncData (two_kinds []))) = [true; true]
  ∧ pushes (snd (syncData (two_kinds []))) = [(EMGData, 5%nat); (EMSData, 6%nat)]
  ∧ pushes (snd (syncData (snd (syncData (two_kinds [])))))
    = pushes (snd (syncData (two_kinds []))).
Proof.
  destruct (second_run_is_idle (two_kinds [])) as (H1 & H2 & H3 & H4).
  - reflexivity.
  - reflexivity.
  - intros []; apply (bool_decide_unpack _); vm_compute; exact I.
  - intros []; vm_compute; lia.
  - split; [reflexivity |]. split; [reflexivity |]. exact H4.
Defined.

(** X18.  A rejected query ends the run without a retry.  When the
    query for unsynced EMG records rejects, [syncData] still completes
    normally, but it has made that one storage call only: the EMS
    records are not even queried, nothing is pushed, the database is as
    before and the flag is cleared.  When the EMG half went through and
    the EMS query rejects, the EMG records already marked stay marked,
    and no EMS record is pushed or changed. *)
Theorem rejected_query_ends_run (w : World) :
  let w' := snd (syncData w) in
  isSyncing w = false →
  fst (syncData w) = Normal ()
  ∧ isSyncing w' = false
  ∧ (head (faults w) = Some true →
     db w' = db w ∧ pushes w' = pushes w ∧ faults w' = tail (faults w))
  ∧ (head (faults w) ≠ Some true →
     tail (faults w) !! length (fetch EMGData w) = Some true →
     NoDup (doc_id <$> emgDocs (db w)) →
     emgDocs (db w')
     = mark_ids (now w) (doc_id <$> succeeded (fetch EMGData w) (tail (faults w)))
         (emgDocs (db w))
     ∧ emsDocs (db w') = emsDocs (db w)
     ∧ pushes_since EMGData w w' = doc_id <$> fetch EMGData w
     ∧ pushes_since EMSData w w' = []).
Proof.
  cbv zeta. intros Hoff. rewrite syncData_run by done. cbn [fst snd].
  split; [done |]. split; [apply sync_run_flag |]. split.
  - intros Hhead. unfold sync_run, phase. cbn [faults set_isSyncing].
    by destruct (faults w) as [| [] fs].
  - intros Hhead Hems Hnd.
    destruct (sync_run_emg w Hoff Hhead Hnd) as [Hemg Hpushed].
    split; [exact Hemg |]. split; [| split; [exact Hpushed |]];
      unfold pushes_since, sync_run.
    all: set (w0 := set_isSyncing true w).
    all: set (w1 := sync_batch EMGData (fetch EMGData w0)
                      (set_faults (tail (faults w0)) w0)).
    all: assert (Hphase : phase EMGData w0 = (true, w1))
           by (unfold phase, w1; change (faults w0) with (faults w);
               by destruct (faults w) as [| [] fs]).
    all: assert (Hf1 : head (faults w1) = Some true)
           by (unfold w1; rewrite sync_batch_faults, head_lookup, lookup_drop,
                 Nat.add_0_r; exact Hems).
    all: assert (Hphase2 : snd (phase EMSData w1) = set_faults (tail (faults w1)) w1)
           by (unfold phase; by destruct (faults w1) as [| [] fs1]).
    all: rewrite Hphase, Hphase2.
    + change (collection EMSData (db w1) = collection EMSData (db w)).
      unfold w1. by rewrite sync_batch_other.
    + change (pushes (set_isSyncing false (set_faults (tail (faults w1)) w1)))
        with (pushes w1).
      unfold w1. rewrite sync_batch_pushes.
      change (pushes (set_faults (tail (faults w0)) w0)) with (pushes w).
      rewrite drop_app_length, filter_tagged. by rewrite decide_False.
Qed.

Lemma rejected_query_ends_run_witness :
  pushes (snd (syncData (two_kinds [true]))) = []
  ∧ synced_flags (snd (syncData (two_kinds [false; false; true]))) = [true; true]
  ∧ pushes (snd (syncData (two_kinds [false; false; true]))) = [(EMGData, 5%nat)].
Proof.
  split; [| split].
  - destruct (rejected_query_ends_run (two_kinds [true]))
      as (_ & _ & Habort & _); [reflexivity |].
    destruct Habort as (_ & -> & _); reflexivity.
  - destruct (rejected_query_ends_run (two_kinds [false; false; true]))
      as (_ & _ & _ & Hkept); [reflexivity |].
    destruct Hkept as (Hemg & _); [discriminate | reflexivity | |].
    + apply (bool_decide_unpack _). vm_compute. exact I.
    + unfold synced_flags. rewrite Hemg. reflexivity.
  - reflexivity.
Defined.

End Forced.
